(** * Triton-Puzzles-Lite: block-tiled kernels against their references

    A shallow embedding of [puzzles.py].  A kernel instance is a function
    of its program id, its buffers and its launch constants; tiles are
    (nested) lists, one list level per tile axis; a tensor handed to a
    kernel is the flat row-major buffer of the nested list the reference
    function receives.

    The element type of a [float32] tile is read in two ways.  Over the
    reals the arithmetic is exact: no rounding, no overflow; the kernels
    that use [-float("inf")] work on reals extended with the infinities
    and NaN.  The kernels whose agreement with their reference hinges on
    rounding or overflow (the matrix product, the convolution, the fused
    multiplication) are generic in their element arithmetic and are read
    both over the reals and over IEEE-754 binary32, the format of the
    tensors.  A masked-true access outside its buffer is an error of the
    run. *)

From Stdlib Require Import Reals Lra Lia ZArith QArith Qabs Bool String Sorted SpecFloat.
From stdpp Require Import base list.

Set Default Proof Using "Type".

(** ** Results of a run *)

Inductive error : Type :=
  | OutOfBounds
  | StaticAssert (msg : string)
  | ShapeMismatch.

Inductive result (A : Type) : Type :=
  | Ok (a : A)
  | Err (e : error).
Arguments Ok {A} a.
Arguments Err {A} e.

Global Instance result_ret : MRet result := fun A a => Ok a.
Global Instance result_bind : MBind result := fun A B k m =>
  match m with
  | Ok a => k a
  | Err e => Err e
  end.

Fixpoint mapR {A B} (f : A -> result B) (l : list A) : result (list B) :=
  match l with
  | [] => Ok []
  | a :: l' => b ← f a; bs ← mapR f l'; Ok (b :: bs)
  end.

Fixpoint foldR {A St} (f : St -> A -> result St) (s : St) (l : list A) : result St :=
  match l with
  | [] => Ok s
  | a :: l' => s' ← f s a; foldR f s' l'
  end.

(** ** Tile algebra (the part of [triton.language] the kernels use) *)

(** Modelled from the spec: [tl.arange(lo, hi)] of the Triton library,
    the coordinate vector [lo, lo+1, ..., hi-1] (TileIndex, 4.1).  Triton
    takes block sizes that are powers of two; the model is defined for
    every length, the powers of two among them. *)
Definition arange (lo hi : nat) : list nat := seq lo (hi - lo).

(** Modelled from the spec: [triton.cdiv], the rounded-up quotient that
    counts the blocks covering an extent. *)
Definition cdiv (n b : nat) : nat := (n + b - 1) / b.

(** Modelled from the spec: [tl.range(lo, hi, step)], the loop counter
    values [lo, lo+step, ...] below [hi]. *)
Definition tl_range (lo hi step : nat) : list nat :=
  map (fun c => lo + c * step) (seq 0 (cdiv (hi - lo) step)).

(** Modelled from the spec: [expand_dims] inserts singleton axes; the
    suffix lists the positions of the new axes. *)
Definition expand_dims_0 {A} (x : list A) : list (list A) := [x].
Definition expand_dims_1 {A} (x : list A) : list (list A) := map (fun a => [a]) x.
Definition expand_dims_2 {A} (t : list (list A)) : list (list (list A)) :=
  map (map (fun a => [a])) t.
Definition expand_dims_12 {A} (x : list A) : list (list (list A)) :=
  map (fun a => [[a]]) x.
Definition expand_dims_02 {A} (x : list A) : list (list (list A)) :=
  [map (fun a => [a]) x].
Definition expand_dims_01 {A} (x : list A) : list (list (list A)) := [[x]].

(** Modelled from the spec: [broadcast_to] repeats every axis of
    extent one up to the requested extent. *)
Definition bcast {A} (n : nat) (l : list A) : list A :=
  match l with
  | [a] => replicate n a
  | _ => l
  end.

Definition broadcast_to2 {A} (n0 n1 : nat) (t : list (list A)) : list (list A) :=
  bcast n0 (map (bcast n1) t).

Definition broadcast_to3 {A} (n0 n1 n2 : nat) (t : list (list (list A)))
  : list (list (list A)) :=
  bcast n0 (map (broadcast_to2 n1 n2) t).

(** Element-wise operations on tiles of equal shape. *)
Definition map2 {A B} (f : A -> B) : list (list A) -> list (list B) := map (map f).
Definition map3 {A B} (f : A -> B) : list (list (list A)) -> list (list (list B)) :=
  map (map2 f).
Definition zip2 {A B C} (f : A -> B -> C) : list (list A) -> list (list B) -> list (list C) :=
  zip_with (zip_with f).
Definition zip3 {A B C} (f : A -> B -> C)
  : list (list (list A)) -> list (list (list B)) -> list (list (list C)) :=
  zip_with (zip2 f).

(** Row-major flattening, the order in which a tile meets memory. *)
Definition flat2 {A} (t : list (list A)) : list A := concat t.
Definition flat3 {A} (t : list (list (list A))) : list A := concat (map flat2 t).

(** ** Masked loads and stores *)

Section Memory.
Context {A : Type}.

(** Modelled from the spec: [tl.load(ptr + idx, mask, other)] (MaskedView,
4.2): the buffer's value where the mask is true, [other] elsewhere.
A call that passes no [other] fills zero, the default fill of 4.2; the
kernels below then pass the zero of their element type. *)
Definition load_at (other : A) (buf : list A) (i : nat) (m : bool) : result A :=
if m then
match buf !! i with
| Some v => Ok v
| None => Err OutOfBounds
end
else Ok other.

Definition load1 (other : A) (buf : list A) (idx : list nat) (mask : list bool)
: result (list A) :=
mapR (fun im => load_at other buf im.1 im.2) (zip idx mask).

Definition load2 (other : A) (buf : list A)
(idx : list (list nat)) (mask : list (list bool)) : result (list (list A)) :=
mapR (fun im => load1 other buf im.1 im.2) (zip idx mask).

Definition load3 (other : A) (buf : list A)
(idx : list (list (list nat))) (mask : list (list (list bool)))
: result (list (list (list A))) :=
mapR (fun im => load2 other buf im.1 im.2) (zip idx mask).

(** A load without a mask reads every position. *)
Definition all_true {B} (idx : list B) : list bool := map (fun _ => true) idx.

(** Modelled from the spec: [tl.store(ptr + idx, value, mask)] (MaskedView,
4.2).  A store is the list of the cell writes it performs, in tile
order; only masked-true positions write. *)
Definition write : Type := nat * A.

Definition store1 (idx : list nat) (val : list A) (mask : list bool) : list write :=
omap (fun w : nat * A * bool => if w.2 then Some w.1 else None)
 (zip (zip idx val) mask).

Definition store2 (idx : list (list nat)) (val : list (list A))
(mask : list (list bool)) : list write :=
store1 (flat2 idx) (flat2 val) (flat2 mask).

Definition store3 (idx : list (list (list nat))) (val : list (list (list A)))
(mask : list (list (list bool))) : list write :=
store1 (flat3 idx) (flat3 val) (flat3 mask).

(** Writes take effect in order; a write outside the buffer is an error. *)
Definition apply_write (buf : list A) (w : write) : result (list A) :=
if decide (w.1 < length buf) then Ok (<[w.1 := w.2]> buf) else Err OutOfBounds.

Definition apply_writes (ws : list write) (buf : list A) : result (list A) :=
foldR apply_write buf ws.
End Memory.
Arguments write A : clear implicits.

(** ** The launch grid *)

(** Modelled from the spec: the harness of [test_puzzle.py] launches one
    instance per cell of the grid [(cdiv N0 B0, cdiv N1 B1, cdiv N2 B2)]
    (GridDescriptor, GridRunner 4.3); an axis the puzzle does not declare
    has extent one. *)
Definition pid : Type := nat * nat * nat.

Definition program_id (axis : nat) (p : pid) : nat :=
  match axis with
  | 0 => p.1.1
  | 1 => p.1.2
  | _ => p.2
  end.

Definition grid_cells (g0 g1 g2 : nat) : list pid :=
  p0 ← seq 0 g0; p1 ← seq 0 g1; p2 ← seq 0 g2; [(p0, p1, p2)].

(** The writes of a launch: those of its instances, cell after cell. *)
Definition launch_writes {A} (g0 g1 g2 : nat)
    (kernel : pid -> result (list (write A))) : result (list (write A)) :=
  ws ← mapR kernel (grid_cells g0 g1 g2);
  Ok (concat ws).

Definition launch {A} (g0 g1 g2 : nat) (kernel : pid -> result (list (write A)))
    (z : list A) : result (list A) :=
  ws ← launch_writes g0 g1 g2 kernel;
  apply_writes ws z.

(** ** Element arithmetic *)

(** The operations a kernel applies to the elements of its tiles: the
    zero that [tl.zeros] and a masked load fill in, [+] and [*]. *)
Class Scalar (A : Type) : Type := {
  s_zero : A;
  s_add : A -> A -> A;
  s_mul : A -> A -> A
}.

(** Exact arithmetic. *)
Global Instance R_scalar : Scalar R :=
  {| s_zero := 0%R; s_add := Rplus; s_mul := Rmult |}.

(** IEEE-754 binary32, the [float32] of the tensors: 24 bits of
    precision, infinities at exponent 128, round to nearest even
    ([SpecFloat] of the standard library). *)
Abbreviation binary32 := spec_float (only parsing).

Definition b32_add : binary32 -> binary32 -> binary32 := SFadd 24 128.
Definition b32_mul : binary32 -> binary32 -> binary32 := SFmul 24 128.

Global Instance b32_scalar : Scalar binary32 :=
  {| s_zero := S754_zero false; s_add := b32_add; s_mul := b32_mul |}.

(** The binary32 value nearest to an integer. *)
Definition b32_of_Z (n : Z) : binary32 := binary_normalize 24 128 n 0 false.

(** ** Reductions *)

Definition Rsum (l : list R) : R := foldr Rplus 0%R l.

(** Modelled from the spec: [t.sum(axis)] along one axis of a tile (the
    reduction of 4.4).  The order in which a reduction adds the elements
    of its axis is the library's; here it adds from the last element
    back.  Over the reals this is [Rsum]. *)
Definition s_sum {A} `{Scalar A} (l : list A) : A := foldr s_add s_zero l.

(** Modelled from the spec: [tl.dot] and torch's [@], the matrix product
    of an [M x K] by a [K x N] tile; on rank three, one product per batch
    entry (TiledMatmulKernel, 4.6). *)
Definition dot2 {A} `{Scalar A} (a b : list (list A)) : list (list A) :=
  map (fun arow =>
         map (fun n => s_sum (zip_with (fun av brow => s_mul av (nth n brow s_zero)) arow b))
             (seq 0 (length (hd [] b))))
      a.

Definition dot3 {A} `{Scalar A} (a b : list (list (list A))) : list (list (list A)) :=
  zip_with dot2 a b.

(** The harness compares with [|a - b| <= atol + rtol * |b|]. *)
Definition atol : R := (1 / 10000)%R.
Definition rtol : R := (1 / 1000)%R.
Definition close (a b : R) : Prop := (Rabs (a - b) <= atol + rtol * Rabs b)%R.

(** The same comparison on binary32 values, decided on the rationals
    they denote.  A NaN is within tolerance of nothing, itself included;
    an infinity only of itself. *)
Definition b32_Q (a : binary32) : option Q :=
  match a with
  | S754_zero _ => Some 0%Q
  | S754_finite s m e =>
      Some (inject_Z (if s then Zneg m else Zpos m) * Qpower 2 e)%Q
  | _ => None
  end.

Definition b32_close (a b : binary32) : bool :=
  match b32_Q a, b32_Q b with
  | Some u, Some v =>
      Qle_bool (Qabs (u - v)) ((1 # 10000) + (1 # 1000) * Qabs v)
  | _, _ => SFeqb a b
  end.

(** ** Demos of the introduction *)

Definition ones (n : nat) : list R := replicate n 1%R.

(** [print] becomes the returned value. *)
Definition demo1 (x : list R) : result (list nat * list R) :=
  let range := arange 0 8 in
  xv ← load1 0%R x range (map (fun i => i <? 5) range);
  Ok (range, xv).

Definition demo2 (x : list R) : result (list (list nat) * list (list R)) :=
  let i_range := expand_dims_1 (arange 0 8) in
  let j_range := expand_dims_0 (arange 0 4) in
  let range := zip2 Nat.add (broadcast_to2 8 4 (map2 (fun i => i * 4) i_range))
                            (broadcast_to2 8 4 j_range) in
  xv ← load2 0%R x range
         (zip2 andb (broadcast_to2 8 4 (map2 (fun i => i <? 4) i_range))
                    (broadcast_to2 8 4 (map2 (fun j => j <? 3) j_range)));
  Ok (range, xv).

Definition demo3 (p : pid) : result (list (write R)) :=
  let range := arange 0 8 in
  Ok (store1 range (replicate 8 10%R) (map (fun i => i <? 5) range)).

Definition demo4 (x : list R) (p : pid) : result (nat * list R) :=
  let pid := program_id 0 p in
  let range := map (fun a => a + pid * 8) (arange 0 8) in
  xv ← load1 0%R x range (map (fun i => i <? 20) range);
  Ok (pid, xv).

(** ** Puzzle 1: constant add *)

Definition add_spec (x : list R) : list R := map (fun a => (a + 10)%R) x.

Definition add_kernel (x_ptr : list R) (N0 B0 : nat) (p : pid)
  : result (list (write R)) :=
  let off_x := arange 0 B0 in
  x ← load1 0%R x_ptr off_x (all_true off_x);
  let x := map (fun a => (a + 10)%R) x in
  Ok (store1 off_x x (all_true off_x)).

(** The harness call of puzzle 1: [nelem = {N0: 32}], default [B0 = 32]. *)
Definition run_add (x z : list R) : result (list R) :=
  launch (cdiv 32 32) (cdiv 1 1) (cdiv 1 1) (add_kernel x 32 32) z.

(** ** Puzzle 2: constant add, blocked *)

Definition add2_spec (x : list R) : list R := map (fun a => (a + 10)%R) x.

Definition add_mask2_kernel (x_ptr : list R) (N0 B0 : nat) (p : pid)
  : result (list (write R)) :=
  let block_id := program_id 0 p in
  let idx := map (fun a => block_id * B0 + a) (arange 0 B0) in
  let msk := map (fun i => i <? N0) idx in
  x ← load1 0%R x_ptr idx msk;
  let x := map (fun a => (a + 10)%R) x in
  Ok (store1 idx x msk).

(** The harness launch of a kernel that declares only [N0]: one instance
    per cell of [(cdiv N0 B0, 1, 1)]. *)
Definition launch1 {A} (N0 B0 : nat)
    (kernel : pid -> result (list (write A))) (z : list A) : result (list A) :=
  launch (cdiv N0 B0) (cdiv 1 1) (cdiv 1 1) kernel z.

(** ** Puzzle 3: outer vector add *)

(** [x[None, :] + y[:, None]]: row [j], column [i] holds [x_i + y_j]. *)
Definition add_vec_spec (x y : list R) : list (list R) :=
  zip2 Rplus (broadcast_to2 (length y) (length x) (expand_dims_0 x))
             (broadcast_to2 (length y) (length x) (expand_dims_1 y)).

Definition add_vec_kernel (x_ptr y_ptr : list R) (N0 N1 B0 B1 : nat) (p : pid)
  : result (list (write R)) :=
  let idx_x := arange 0 B0 in
  let idx_y := arange 0 B1 in
  x_value ← load1 0%R x_ptr idx_x (all_true idx_x);
  let x_value := broadcast_to2 B1 B0 (expand_dims_0 x_value) in
  y_value ← load1 0%R y_ptr idx_y (all_true idx_y);
  let y_value := broadcast_to2 B1 B0 (expand_dims_1 y_value) in
  let z_value := zip2 Rplus x_value y_value in
  let dim1 := broadcast_to2 B1 B0 (expand_dims_0 (arange 0 B0)) in
  let dim0 :=
    map2 (fun a => B0 * a) (broadcast_to2 B1 B0 (expand_dims_1 (arange 0 B1))) in
  let idx_z := zip2 Nat.add dim0 dim1 in
  Ok (store2 idx_z z_value (map all_true idx_z)).

(** ** Puzzle 4: outer vector add, blocked *)

Definition add_vec_block_spec (x y : list R) : list (list R) :=
  zip2 Rplus (broadcast_to2 (length y) (length x) (expand_dims_0 x))
             (broadcast_to2 (length y) (length x) (expand_dims_1 y)).

Definition add_vec_block_kernel (x_ptr y_ptr : list R) (N0 N1 B0 B1 : nat) (p : pid)
  : result (list (write R)) :=
  let block_id_x := program_id 0 p in
  let block_id_y := program_id 1 p in
  let idx_x := map (fun a => block_id_x * B0 + a) (arange 0 B0) in
  let idx_y := map (fun a => block_id_y * B1 + a) (arange 0 B1) in
  let mask_x := map (fun i => i <? N0) idx_x in
  let mask_y := map (fun i => i <? N1) idx_y in
  x_value ← load1 0%R x_ptr idx_x mask_x;
  let x_value := broadcast_to2 B1 B0 (expand_dims_0 x_value) in
  y_value ← load1 0%R y_ptr idx_y mask_y;
  let y_value := broadcast_to2 B1 B0 (expand_dims_1 y_value) in
  let z_value := zip2 Rplus x_value y_value in
  let dim1 :=
    broadcast_to2 B1 B0
      (expand_dims_0 (map (fun a => block_id_x * B0 + a) (arange 0 B0))) in
  let dim0 :=
    broadcast_to2 B1 B0
      (expand_dims_1
         (map (fun i => N0 * i) (map (fun a => block_id_y * B1 + a) (arange 0 B1)))) in
  let idx_z := zip2 Nat.add dim0 dim1 in
  let mask_z :=
    zip2 andb (broadcast_to2 B1 B0 (expand_dims_0 mask_x))
              (broadcast_to2 B1 B0 (expand_dims_1 mask_y)) in
  Ok (store2 idx_z z_value mask_z).

(** ** Puzzle 5: fused outer multiplication *)

(** [torch.relu] *)
Definition relu (r : R) : R := Rmax r 0.

(** A comparison used as a factor: [1.0] where it holds, [0.0] elsewhere. *)
Definition gt_zero (r : R) : R := if Rlt_dec 0 r then 1%R else 0%R.

Definition mul_relu_block_spec (x y : list R) : list (list R) :=
  map2 relu
    (zip2 Rmult (broadcast_to2 (length y) (length x) (expand_dims_0 x))
                (broadcast_to2 (length y) (length x) (expand_dims_1 y))).

Definition mul_relu_block_kernel (x_ptr y_ptr : list R) (N0 N1 B0 B1 : nat) (p : pid)
  : result (list (write R)) :=
  let block_id_x := program_id 0 p in
  let block_id_y := program_id 1 p in
  let idx_x := map (fun a => block_id_x * B0 + a) (arange 0 B0) in
  let idx_y := map (fun a => block_id_y * B1 + a) (arange 0 B1) in
  let mask_x := map (fun i => i <? N0) idx_x in
  let mask_y := map (fun i => i <? N1) idx_y in
  x_value ← load1 0%R x_ptr idx_x mask_x;
  let x_value := broadcast_to2 B1 B0 (expand_dims_0 x_value) in
  y_value ← load1 0%R y_ptr idx_y mask_y;
  let y_value := broadcast_to2 B1 B0 (expand_dims_1 y_value) in
  let z_value := zip2 Rmult x_value y_value in
  let z_value := map2 (fun z => (z * gt_zero z)%R) z_value in
  let dim1 :=
    broadcast_to2 B1 B0
      (expand_dims_0 (map (fun a => block_id_x * B0 + a) (arange 0 B0))) in
  let dim0 :=
    broadcast_to2 B1 B0
      (expand_dims_1
         (map (fun i => N0 * i) (map (fun a => block_id_y * B1 + a) (arange 0 B1)))) in
  let idx_z := zip2 Nat.add dim0 dim1 in
  let mask_z :=
    zip2 andb (broadcast_to2 B1 B0 (expand_dims_0 mask_x))
              (broadcast_to2 B1 B0 (expand_dims_1 mask_y)) in
  Ok (store2 idx_z z_value mask_z).

(** ** Puzzle 6: fused outer multiplication, backwards *)

(** The reference runs autograd through [z = relu(x * y[:, None])] with the
    incoming gradient [dz]: [relu] hands [dz] back where its argument was
    positive and zero elsewhere, and the product with [y] scales that by
    [y]; the result is [x.grad]. *)
Definition mul_relu_block_back_spec (x : list (list R)) (y : list R)
    (dz : list (list R)) : list (list R) :=
  let yb := broadcast_to2 (length x) (length (hd [] x)) (expand_dims_1 y) in
  let u := zip2 Rmult x yb in
  let du := zip2 (fun u g => if Rlt_dec 0 u then g else 0%R) u dz in
  zip2 Rmult du yb.

Definition mul_relu_block_back_kernel (x_ptr y_ptr dz_ptr : list R)
    (N0 N1 B0 B1 : nat) (p : pid) : result (list (write R)) :=
  let block_id_i := program_id 0 p in
  let block_id_j := program_id 1 p in
  let idx_i := map (fun a => block_id_i * B0 + a) (arange 0 B0) in
  let mask_i := map (fun i => i <? N0) idx_i in
  let idx_j := map (fun a => block_id_j * B1 + a) (arange 0 B1) in
  let mask_j := map (fun j => j <? N1) idx_j in
  let idx_ji :=
    zip2 Nat.add
      (map2 (fun j => N0 * j) (broadcast_to2 B1 B0 (expand_dims_1 idx_j)))
      (broadcast_to2 B1 B0 (expand_dims_0 idx_i)) in
  let mask_ji :=
    zip2 andb (broadcast_to2 B1 B0 (expand_dims_0 mask_i))
              (broadcast_to2 B1 B0 (expand_dims_1 mask_j)) in
  x ← load2 0%R x_ptr idx_ji mask_ji;
  y ← load1 0%R y_ptr idx_j mask_j;
  let y_broadcast := broadcast_to2 B1 B0 (expand_dims_1 y) in
  let _mul := zip2 Rmult x y_broadcast in
  dz ← load2 0%R dz_ptr idx_ji mask_ji;
  let dx := zip2 Rmult (zip2 Rmult dz (map2 gt_zero _mul)) y_broadcast in
  Ok (store2 idx_ji dx mask_ji).

(** The harness launch of a kernel that declares [N0], [N1]: one instance
    per cell of [(cdiv N0 B0, cdiv N1 B1, 1)]. *)
Definition launch2 {A} (N0 N1 B0 B1 : nat)
    (kernel : pid -> result (list (write A))) (z : list A) : result (list A) :=
  launch (cdiv N0 B0) (cdiv N1 B1) (cdiv 1 1) kernel z.

(** ** Puzzle 7: long sum *)

(** [x.sum(1)] on the [N0 x T] tensor. *)
Definition sum_spec (x : list (list R)) : list R := map Rsum x.

Definition sum_kernel (x_ptr : list R) (N0 N1 T B0 B1 : nat) (p : pid)
  : result (list (write R)) :=
  let block_id_i := program_id 0 p in
  let idx_i := map (fun a => block_id_i * B0 + a) (arange 0 B0) in
  let mask_i := map (fun i => i <? N0) idx_i in
  let sums := replicate B0 0%R in
  sums ← foldR (fun sums idx_j_start =>
      let idx_j := map (fun a => idx_j_start + a) (arange 0 B1) in
      let mask_j := map (fun j => j <? T) idx_j in
      let idx_ij :=
        zip2 Nat.add
          (map2 (fun i => i * T) (broadcast_to2 B0 B1 (expand_dims_1 idx_i)))
          (broadcast_to2 B0 B1 (expand_dims_0 idx_j)) in
      let mask_ij :=
        zip2 andb (broadcast_to2 B0 B1 (expand_dims_1 mask_i))
                  (broadcast_to2 B0 B1 (expand_dims_0 mask_j)) in
      vals ← load2 0%R x_ptr idx_ij mask_ij;
      Ok (zip_with Rplus sums (map Rsum vals)))
    sums (tl_range 0 T B1);
  Ok (store1 idx_i sums mask_i).

(** The harness launch of a kernel that declares [N0], [N1] and block
    sizes [B0], [B1]. *)
Definition run_sum (N0 N1 T B0 B1 : nat) (x : list (list R)) (z : list R)
  : result (list R) :=
  launch (cdiv N0 B0) (cdiv N1 B1) (cdiv 1 1) (sum_kernel (flat2 x) N0 N1 T B0 B1) z.

(** ** Reals with infinities, for the kernels that start from [-inf] *)

Inductive f32 : Type :=
  | NaN
  | NInf
  | PInf
  | Fin (r : R).

Definition f32_neg (a : f32) : f32 :=
  match a with
  | NaN => NaN
  | NInf => PInf
  | PInf => NInf
  | Fin r => Fin (- r)
  end.

Definition f32_add (a b : f32) : f32 :=
  match a, b with
  | NaN, _ | _, NaN => NaN
  | Fin x, Fin y => Fin (x + y)
  | NInf, PInf | PInf, NInf => NaN
  | NInf, _ | _, NInf => NInf
  | PInf, _ | _, PInf => PInf
  end.

Definition f32_sub (a b : f32) : f32 := f32_add a (f32_neg b).

(** An infinity scaled by a finite factor keeps or flips its sign;
    scaled by zero it is NaN. *)
Definition scale_inf (r : R) (pos : bool) : f32 :=
  if Rlt_dec 0 r then (if pos then PInf else NInf)
  else if Rlt_dec r 0 then (if pos then NInf else PInf)
  else NaN.

Definition f32_mul (a b : f32) : f32 :=
  match a, b with
  | NaN, _ | _, NaN => NaN
  | Fin x, Fin y => Fin (x * y)
  | Fin x, PInf | PInf, Fin x => scale_inf x true
  | Fin x, NInf | NInf, Fin x => scale_inf x false
  | PInf, PInf | NInf, NInf => PInf
  | PInf, NInf | NInf, PInf => NaN
  end.

Definition f32_div (a b : f32) : f32 :=
  match a, b with
  | NaN, _ | _, NaN => NaN
  | Fin x, Fin y =>
      if Req_EM_T y 0 then scale_inf x true else Fin (x / y)
  | Fin _, _ => Fin 0
  | PInf, Fin y => if Rlt_dec y 0 then NInf else PInf
  | NInf, Fin y => if Rlt_dec y 0 then PInf else NInf
  | _, _ => NaN
  end.

(** [tl.maximum]: the larger operand; a NaN operand is dropped. *)
Definition f32_max (a b : f32) : f32 :=
  match a, b with
  | NaN, c | c, NaN => c
  | PInf, _ | _, PInf => PInf
  | NInf, c | c, NInf => c
  | Fin x, Fin y => Fin (Rmax x y)
  end.

(** [tl.exp2] *)
Definition f32_exp2 (a : f32) : f32 :=
  match a with
  | NaN => NaN
  | NInf => Fin 0
  | PInf => PInf
  | Fin r => Fin (Rpower 2 r)
  end.

(** [torch.exp] *)
Definition f32_exp (a : f32) : f32 :=
  match a with
  | NaN => NaN
  | NInf => Fin 0
  | PInf => PInf
  | Fin r => Fin (exp r)
  end.

(** [t.sum(axis)] and [t.max(axis)] along the last axis of a tile. *)
Definition f32_sum (l : list f32) : f32 := foldr f32_add (Fin 0) l.
Definition f32_maxl (l : list f32) : f32 := foldr f32_max NInf l.

(** ** Puzzle 8: long softmax *)

Definition softmax_spec (x : list (list f32)) : list (list f32) :=
  let x_max := map f32_maxl x in
  let x := zip_with (fun row m => map (fun a => f32_sub a m) row) x x_max in
  let x_exp := map2 f32_exp x in
  zip_with (fun row s => map (fun a => f32_div a s) row) x_exp (map f32_sum x_exp).

Definition softmax_kernel (x_ptr : list f32) (N0 N1 T B0 B1 : nat) (p : pid)
  : result (list (write f32)) :=
  let block_id_i := program_id 0 p in
  let log2_e := Fin (144269504 / 100000000) in
  let idx_i := map (fun a => block_id_i * B0 + a) (arange 0 B0) in
  let mask_i := map (fun i => i <? N0) idx_i in
  let global_maxs := replicate B0 NInf in
  let sums := replicate B0 (Fin 0) in
  st ← foldR (fun (st : list f32 * list f32) idx_j_start =>
      let global_maxs := st.1 in
      let sums := st.2 in
      let idx_j := map (fun a => idx_j_start + a) (arange 0 B1) in
      let mask_j := map (fun j => j <? T) idx_j in
      let idx_ij :=
        zip2 Nat.add
          (map2 (fun i => i * T) (broadcast_to2 B0 B1 (expand_dims_1 idx_i)))
          (broadcast_to2 B0 B1 (expand_dims_0 idx_j)) in
      let mask_ij :=
        zip2 andb (broadcast_to2 B0 B1 (expand_dims_1 mask_i))
                  (broadcast_to2 B0 B1 (expand_dims_0 mask_j)) in
      vals ← load2 (Fin 0) x_ptr idx_ij mask_ij;
      let last_maxs := global_maxs in
      let global_maxs := zip_with f32_max global_maxs (map f32_maxl vals) in
      let factory :=
        map (fun d => f32_exp2 (f32_mul log2_e d))
            (zip_with f32_sub last_maxs global_maxs) in
      let local_sum :=
        map f32_sum
          (map2 (fun d => f32_exp2 (f32_mul log2_e d))
             (zip2 f32_sub vals
                (broadcast_to2 B0 B1 (expand_dims_1 global_maxs)))) in
      let sums := zip_with f32_add (zip_with f32_mul sums factory) local_sum in
      Ok (global_maxs, sums))
    (global_maxs, sums) (tl_range 0 T B1);
  let global_maxs := st.1 in
  let sums := st.2 in
  foldR (fun (ws : list (write f32)) idx_j_start =>
      let idx_j := map (fun a => idx_j_start + a) (arange 0 B1) in
      let mask_j := map (fun j => j <? T) idx_j in
      let idx_ij :=
        zip2 Nat.add
          (map2 (fun i => i * T) (broadcast_to2 B0 B1 (expand_dims_1 idx_i)))
          (broadcast_to2 B0 B1 (expand_dims_0 idx_j)) in
      let mask_ij :=
        zip2 andb (broadcast_to2 B0 B1 (expand_dims_1 mask_i))
                  (broadcast_to2 B0 B1 (expand_dims_0 mask_j)) in
      vals ← load2 (Fin 0) x_ptr idx_ij mask_ij;
      let softmaxs :=
        zip2 f32_div
          (map2 (fun d => f32_exp2 (f32_mul log2_e d))
             (zip2 f32_sub vals
                (broadcast_to2 B0 B1 (expand_dims_1 global_maxs))))
          (broadcast_to2 B0 B1 (expand_dims_1 sums)) in
      Ok (ws ++ store2 idx_ij softmaxs mask_ij))
    [] (tl_range 0 T B1).

Definition run_softmax (N0 N1 T B0 B1 : nat) (x : list (list f32)) (z : list f32)
  : result (list f32) :=
  launch (cdiv N0 B0) (cdiv N1 B1) (cdiv 1 1)
         (softmax_kernel (flat2 x) N0 N1 T B0 B1) z.

(** ** Puzzle 9: simple flash attention *)

Definition flashatt_spec (q k v : list f32) : list f32 :=
  let x := map (fun qi => map (fun kj => f32_mul qi kj) k) q in
  let x_max := map f32_maxl x in
  let x := zip_with (fun row m => map (fun a => f32_sub a m) row) x x_max in
  let x_exp := map2 f32_exp x in
  let soft :=
    zip_with (fun row s => map (fun a => f32_div a s) row) x_exp (map f32_sum x_exp) in
  map (fun row => f32_sum (zip_with f32_mul v row)) soft.

(** The score tile [qk] of the chunk that starts at [idx_j_start]. *)
Definition flashatt_qk (q_ptr k_ptr : list f32) (N0 T B0 B1 : nat) (p : pid)
    (idx_j_start : nat) : result (list (list f32)) :=
  let block_id_i := program_id 0 p in
  let idx_i := map (fun a => block_id_i * B0 + a) (arange 0 B0) in
  let mask_i := map (fun i => i <? N0) idx_i in
  let idx_j := map (fun a => idx_j_start + a) (arange 0 B1) in
  let mask_j := map (fun j => j <? T) idx_j in
  q0 ← load1 (Fin 0) q_ptr idx_i mask_i;
  let q := expand_dims_1 q0 in
  k0 ← load1 (Fin 0) k_ptr idx_j mask_j;
  let k := expand_dims_0 k0 in
  Ok (zip2 f32_mul (broadcast_to2 B0 B1 q) (broadcast_to2 B0 B1 k)).

(** One chunk of the streaming loop: the running maxima, sums and
    weighted accumulator before and after. *)
Definition flashatt_step (q_ptr k_ptr v_ptr : list f32) (N0 T B0 B1 : nat) (p : pid)
    (st : list f32 * list f32 * list f32) (idx_j_start : nat)
  : result (list f32 * list f32 * list f32) :=
  let log2_e := Fin (144269504 / 100000000) in
  let global_maxs := st.1.1 in
  let sums := st.1.2 in
  let result := st.2 in
  let idx_j := map (fun a => idx_j_start + a) (arange 0 B1) in
  let mask_j := map (fun j => j <? T) idx_j in
  qk ← flashatt_qk q_ptr k_ptr N0 T B0 B1 p idx_j_start;
  let last_maxs := global_maxs in
  let global_maxs := zip_with f32_max global_maxs (map f32_maxl qk) in
  let factory :=
    map (fun d => f32_exp2 (f32_mul log2_e d))
        (zip_with f32_sub last_maxs global_maxs) in
  let global_maxs_expand := broadcast_to2 B0 B1 (expand_dims_1 global_maxs) in
  let qk_exp :=
    map2 (fun d => f32_exp2 (f32_mul log2_e d))
         (zip2 f32_sub qk global_maxs_expand) in
  let local_sum := map f32_sum qk_exp in
  let sums := zip_with f32_add (zip_with f32_mul sums factory) local_sum in
  v0 ← load1 (Fin 0) v_ptr idx_j mask_j;
  let v := broadcast_to2 B0 B1 (expand_dims_0 v0) in
  let local_result := map f32_sum (zip2 f32_mul qk_exp v) in
  let result := zip_with f32_add (zip_with f32_mul result factory) local_result in
  Ok (global_maxs, sums, result).

Definition flashatt_kernel (q_ptr k_ptr v_ptr : list f32) (N0 T B0 B1 : nat) (p : pid)
  : result (list (write f32)) :=
  let block_id_i := program_id 0 p in
  let idx_i := map (fun a => block_id_i * B0 + a) (arange 0 B0) in
  let mask_i := map (fun i => i <? N0) idx_i in
  let global_maxs := replicate B0 NInf in
  let sums := replicate B0 (Fin 0) in
  let result := replicate B0 (Fin 0) in
  st ← foldR (flashatt_step q_ptr k_ptr v_ptr N0 T B0 B1 p)
         (global_maxs, sums, result) (tl_range 0 T B1);
  let sums := st.1.2 in
  let result := st.2 in
  let result := zip_with f32_div result sums in
  Ok (store1 idx_i result mask_i).

Definition run_flashatt (N0 T B0 B1 : nat) (q k v z : list f32) : result (list f32) :=
  launch (cdiv N0 B0) (cdiv 1 1) (cdiv 1 1) (flashatt_kernel q k v N0 T B0 B1) z.

(** ** Puzzle 10: two-dimensional convolution *)

(** [torch.nn.functional.pad(x, (0, pw, 0, ph, 0, 0), value=0.0)]: [pw]
    zero columns on the right, [ph] zero rows below, per image. *)
Definition pad_right_bottom {A} `{Scalar A} (pw ph : nat) (x : list (list (list A)))
  : list (list (list A)) :=
  map (fun img =>
         let w := length (hd [] img) in
         map (fun row => row ++ replicate pw s_zero) img
           ++ replicate ph (replicate (w + pw) s_zero))
      x.

(** [x[:, i : i + kh, j : j + kw]] *)
Definition window {A} (i kh j kw : nat) (x : list (list (list A)))
  : list (list (list A)) :=
  map (fun img => map (fun row => take kw (drop j row)) (take kh (drop i img))) x.

(** [t.sum(1)] on a rank-three tensor: per image, the sums down the rows. *)
Definition sum_axis1 {A} `{Scalar A} (t : list (list (list A))) : list (list A) :=
  map (fun img =>
         map (fun c => s_sum (map (fun row => nth c row s_zero) img))
             (seq 0 (length (hd [] img))))
      t.

(** The reference with its extents as parameters; the source fixes them
    to four images of 8 x 8 and a 4 x 4 kernel. *)
Definition conv2d_spec_at {A} `{Scalar A} (H W KH KW : nat)
    (x : list (list (list A))) (k : list (list A)) : list (list (list A)) :=
  let n := length x in
  let x := pad_right_bottom KW KH x in
  map (fun b =>
         map (fun i =>
                map (fun j =>
                       nth b
                         (map s_sum
                            (sum_axis1
                               (map (fun img => zip2 s_mul k img)
                                    (window i KH j KW x))))
                         s_zero)
                    (seq 0 W))
             (seq 0 H))
      (seq 0 n).

Definition conv2d_spec {A} `{Scalar A} (x : list (list (list A))) (k : list (list A))
  : list (list (list A)) :=
  conv2d_spec_at 8 8 4 4 x k.

(** The input tile of the window at [(h, w)]. *)
Definition conv2d_inp {A} `{Scalar A} (x_ptr : list A) (N0 H W KH KW B0 : nat)
    (p : pid) (h w : nat) : result (list (list (list A))) :=
  let block_id_i := program_id 0 p in
  let idx_b := map (fun a => block_id_i * B0 + a) (arange 0 B0) in
  let offset_b :=
    map3 (fun a => a * H * W) (broadcast_to3 B0 KH KW (expand_dims_12 idx_b)) in
  let mask_b :=
    broadcast_to3 B0 KH KW (expand_dims_12 (map (fun i => i <? N0) idx_b)) in
  let offset_h :=
    map3 (fun a => a * W)
         (broadcast_to3 B0 KH KW (expand_dims_02 (arange h (h + KH)))) in
  let mask_h :=
    broadcast_to3 B0 KH KW
      (expand_dims_02 (map (fun i => i <? H) (arange h (h + KH)))) in
  let offset_w :=
    broadcast_to3 B0 KH KW (expand_dims_01 (arange w (w + KW))) in
  let mask_w :=
    broadcast_to3 B0 KH KW
      (expand_dims_01 (map (fun i => i <? W) (arange w (w + KW)))) in
  let offset_tile := zip3 Nat.add (zip3 Nat.add offset_b offset_h) offset_w in
  let mask_tile := zip3 andb (zip3 andb mask_b mask_h) mask_w in
  load3 s_zero x_ptr offset_tile mask_tile.

Definition conv2d_kernel {A} `{Scalar A} (x_ptr k_ptr : list A)
    (N0 H W KH KW B0 : nat) (p : pid) : result (list (write A)) :=
  let block_id_i := program_id 0 p in
  let idx_kernel :=
    zip2 Nat.add
      (map2 (fun a => KW * a) (broadcast_to2 KH KW (expand_dims_1 (arange 0 KH))))
      (broadcast_to2 KH KW (expand_dims_0 (arange 0 KW))) in
  kernel ← load2 s_zero k_ptr idx_kernel (map all_true idx_kernel);
  let idx_b := map (fun a => block_id_i * B0 + a) (arange 0 B0) in
  foldR (fun (ws : list (write A)) h =>
      foldR (fun (ws : list (write A)) w =>
          inp ← conv2d_inp x_ptr N0 H W KH KW B0 p h w;
          let conv :=
            map s_sum
              (map2 s_sum
                 (zip3 s_mul inp (broadcast_to3 B0 KH KW (expand_dims_0 kernel)))) in
          let out_idx := map (fun a => a * H * W + h * W + w) idx_b in
          let out_mask := map (fun i => i <? N0) idx_b in
          Ok (ws ++ store1 out_idx conv out_mask))
        ws (tl_range 0 W 1))
    [] (tl_range 0 H 1).

Definition run_conv2d {A} `{Scalar A} (N0 H W KH KW B0 : nat)
    (x : list (list (list A))) (k : list (list A)) (z : list A) : result (list A) :=
  launch (cdiv N0 B0) (cdiv 1 1) (cdiv 1 1)
         (conv2d_kernel (flat3 x) (flat2 k) N0 H W KH KW B0) z.

(** ** Puzzle 11: matrix multiplication *)

(** [x @ y] on [N2 x N1 x MID] and [N2 x MID x N0]. *)
Definition dot_spec {A} `{Scalar A} (x y : list (list (list A)))
  : list (list (list A)) :=
  dot3 x y.

Section DotKernel.
Context {A : Type} `{Scalar A}.
Variables (x_ptr y_ptr : list A).
Variables (N0 N1 N2 MID B0 B1 B2 B_MID : nat).
Variable (p : pid).

Let block_id_n := program_id 0 p.
Let block_id_m := program_id 1 p.
Let block_id_b := program_id 2 p.
Let idx_b := map (fun a => block_id_b * B2 + a) (arange 0 B2).
Let idx_m := map (fun a => block_id_m * B1 + a) (arange 0 B1).
Let idx_n := map (fun a => block_id_n * B0 + a) (arange 0 B0).

(** The operand tiles of the chunk that starts at [k]. *)
Definition dot_tile_A (k : nat) : result (list (list (list A))) :=
let idx_k := map (fun a => k + a) (arange 0 B_MID) in
let idx_A :=
zip3 Nat.add
(zip3 Nat.add
 (map3 (fun a => a * N1 * MID)
 (broadcast_to3 B2 B1 B_MID (expand_dims_12 idx_b)))
 (map3 (fun a => a * MID)
 (broadcast_to3 B2 B1 B_MID (expand_dims_02 idx_m))))
(broadcast_to3 B2 B1 B_MID (expand_dims_01 idx_k)) in
let msk_A :=
zip3 andb
(zip3 andb
 (broadcast_to3 B2 B1 B_MID (expand_dims_12 (map (fun i => i <? N2) idx_b)))
 (broadcast_to3 B2 B1 B_MID (expand_dims_02 (map (fun i => i <? N1) idx_m))))
(broadcast_to3 B2 B1 B_MID (expand_dims_01 (map (fun i => i <? MID) idx_k))) in
load3 s_zero x_ptr idx_A msk_A.

Definition dot_tile_B (k : nat) : result (list (list (list A))) :=
let idx_k := map (fun a => k + a) (arange 0 B_MID) in
let idx_B :=
zip3 Nat.add
(zip3 Nat.add
 (map3 (fun a => a * MID * N0)
 (broadcast_to3 B2 B_MID B0 (expand_dims_12 idx_b)))
 (map3 (fun a => a * N0)
 (broadcast_to3 B2 B_MID B0 (expand_dims_02 idx_k))))
(broadcast_to3 B2 B_MID B0 (expand_dims_01 idx_n)) in
let msk_B :=
zip3 andb
(zip3 andb
 (broadcast_to3 B2 B_MID B0 (expand_dims_12 (map (fun i => i <? N2) idx_b)))
 (broadcast_to3 B2 B_MID B0 (expand_dims_02 (map (fun i => i <? MID) idx_k))))
(broadcast_to3 B2 B_MID B0 (expand_dims_01 (map (fun i => i <? N0) idx_n))) in
load3 s_zero y_ptr idx_B msk_B.

Definition dot_kernel : result (list (write A)) :=
let tile := replicate B2 (replicate B1 (replicate B0 s_zero)) in
tile ← foldR (fun tile k =>
A ← dot_tile_A k;
B ← dot_tile_B k;
Ok (zip3 s_add tile (dot3 A B)))
tile (tl_range 0 MID B_MID);
let idx_C :=
zip3 Nat.add
(zip3 Nat.add
 (map3 (fun a => a * N1 * N0)
 (broadcast_to3 B2 B1 B0 (expand_dims_12 idx_b)))
 (map3 (fun a => a * N0)
 (broadcast_to3 B2 B1 B0 (expand_dims_02 idx_m))))
(broadcast_to3 B2 B1 B0 (expand_dims_01 idx_n)) in
let msk_C :=
zip3 andb
(zip3 andb
 (broadcast_to3 B2 B1 B0 (expand_dims_12 (map (fun i => i <? N2) idx_b)))
 (broadcast_to3 B2 B1 B0 (expand_dims_02 (map (fun i => i <? N1) idx_m))))
(broadcast_to3 B2 B1 B0 (expand_dims_01 (map (fun i => i <? N0) idx_n))) in
Ok (store3 idx_C tile msk_C).
End DotKernel.

Definition run_dot {A} `{Scalar A} (N0 N1 N2 MID B0 B1 B2 B_MID : nat)
    (x y : list (list (list A))) (z : list A) : result (list A) :=
  launch (cdiv N0 B0) (cdiv N1 B1) (cdiv N2 B2)
         (dot_kernel (flat3 x) (flat3 y) N0 N1 N2 MID B0 B1 B2 B_MID) z.

(** ** Puzzle 12: quantized matrix multiplication *)

Definition FPINT : nat := 32 / 4.
Definition GROUP : nat := 8.

(** Modelled from the spec: [tl.static_assert(cond, msg)], a
    ConfigurationError of the launch when [cond] is false. *)
Definition static_assert (cond : bool) (msg : string) : result unit :=
  if cond then Ok () else Err (StaticAssert msg).

(** Modelled from the spec: [reshape] and [view] keep the row-major
    element order and need the element counts to agree. *)
Fixpoint chunks {A} (r c : nat) (l : list A) : list (list A) :=
  match r with
  | 0 => []
  | S r' => take c l :: chunks r' c (drop c l)
  end.

Definition reshape1 {A} (n : nat) (flat : list A) : result (list A) :=
  if decide (length flat = n) then Ok flat else Err ShapeMismatch.

Definition reshape2 {A} (r c : nat) (flat : list A) : result (list (list A)) :=
  if decide (length flat = r * c) then Ok (chunks r c flat) else Err ShapeMismatch.

(** [t.view(-1, c)] *)
Definition view_rows {A} (c : nat) (flat : list A) : list (list A) :=
  chunks (length flat / c) c flat.

(** [extract] of the reference, on one packed word: the eight 4-bit
    fields, lowest first. *)
Definition extract (x : Z) : list Z :=
  let over := map (fun i => Z.of_nat (i * 4)) (arange 0 8) in
  let mask := (2 ^ 4 - 1)%Z in
  map (fun o => Z.land (Z.shiftr x o) mask) over.

(** The word whose 4-bit fields, lowest first, are [fields]: the packing
    that [extract] and the kernel's shifts undo. *)
Definition pack_fields (fields : list Z) : Z :=
  foldr (fun f acc => (f + 16 * acc)%Z) 0%Z fields.

Definition quant_dequant_spec (scale : list (list R)) (offset : list Z)
    (weight : list (list Z)) : list (list R) :=
  let offset := expand_dims_1 offset in
  let scale := view_rows 64 (flat3 (map2 (fun s => replicate GROUP s) scale)) in
  let offset :=
    view_rows 64
      (concat (map flat3 (map3 (fun v => replicate GROUP v) (map2 extract offset)))) in
  zip2 Rmult scale
    (map2 IZR (zip2 Z.sub (view_rows 64 (flat3 (map2 extract weight))) offset)).

Definition quant_dot_spec (scale : list (list R)) (offset : list Z)
    (weight : list (list Z)) (activation : list (list R)) : list (list R) :=
  dot2 (quant_dequant_spec scale offset weight) activation.

Section QuantKernel.
Variables (scale_ptr : list R) (offset_ptr weight_ptr : list Z).
Variables (activation_ptr : list R).
Variables (N0 N1 MID B0 B1 B_MID : nat).
Variable (p : pid).

Let block_id_m := program_id 0 p.
Let block_id_n := program_id 1 p.
Let idx_m := map (fun a => block_id_m * B0 + a) (arange 0 B0).
Let idx_n := map (fun a => block_id_n * B1 + a) (arange 0 B1).
Let msk_m := map (fun i => i <? N0) idx_m.
Let msk_n := map (fun i => i <? N1) idx_n.

Definition quant_static_asserts : result unit :=
static_assert (MID mod FPINT =? 0) "MID % FPINT != 0";;
static_assert (B_MID mod FPINT =? 0) "B_MID % FPINT != 0";;
static_assert (MID mod B_MID =? 0) "B_MID % FPINT != 0";;
static_assert ((MID / FPINT) mod (B_MID / FPINT) =? 0)
"(MID // FPINT) % (B_MID // FPINT) != 0";;
static_assert (MID mod GROUP =? 0) "MID % GROUP != 0".

(** The unpacked weights of the chunk that starts at [k]. *)
Definition quant_unpack_weight (k : nat) : result (list (list Z)) :=
let idx_scaled_k := map (fun a => k / FPINT + a) (arange 0 (B_MID / FPINT)) in
let mask_scaled_k := map (fun i => i <? MID / FPINT) idx_scaled_k in
let idx_quant_weight :=
zip2 Nat.add
(map2 (fun a => a * (MID / FPINT))
(broadcast_to2 B0 (B_MID / FPINT) (expand_dims_1 idx_m)))
(broadcast_to2 B0 (B_MID / FPINT) (expand_dims_0 idx_scaled_k)) in
let msk_quant_weight :=
zip2 andb (broadcast_to2 B0 (B_MID / FPINT) (expand_dims_1 msk_m))
(broadcast_to2 B0 (B_MID / FPINT) (expand_dims_0 mask_scaled_k)) in
quant_weight ← load2 0%Z weight_ptr idx_quant_weight msk_quant_weight;
let BITS := 32 / FPINT in
let shifts := map (fun i => Z.of_nat (i * (32 / FPINT))) (arange 0 FPINT) in
let quant_weight :=
map3 (fun w => Z.land w (Z.shiftl 1 (Z.of_nat BITS) - 1))
(zip3 Z.shiftr
 (broadcast_to3 B0 (B_MID / FPINT) FPINT (expand_dims_2 quant_weight))
 (broadcast_to3 B0 (B_MID / FPINT) FPINT (expand_dims_01 shifts))) in
reshape2 B0 B_MID (flat3 quant_weight).

Definition quant_load_scale (k : nat) : result (list (list R)) :=
let idx_k := map (fun a => k + a) (arange 0 B_MID) in
let idx_scale := map (fun i => i / GROUP) idx_k in
let msk_scale := map (fun i => i <? MID / GROUP) idx_scale in
let idx_scale_factory :=
zip2 Nat.add
(map2 (fun a => a * (MID / GROUP))
(broadcast_to2 B0 B_MID (expand_dims_1 idx_m)))
(broadcast_to2 B0 B_MID (expand_dims_0 idx_scale)) in
let msk_scale_factory :=
zip2 andb (broadcast_to2 B0 B_MID (expand_dims_1 msk_m))
(broadcast_to2 B0 B_MID (expand_dims_0 msk_scale)) in
load2 0%R scale_ptr idx_scale_factory msk_scale_factory.

Definition quant_unpack_offset (k : nat) : result (list (list Z)) :=
let BITS := 32 / FPINT in
let idx_k := map (fun a => k + a) (arange 0 B_MID) in
let idx_offset := map (fun i => i / GROUP / FPINT) idx_k in
let msk_offset := map (fun i => i <? B_MID / GROUP / FPINT) idx_offset in
let _idx_offset :=
zip2 Nat.add
(map2 (fun a => a * (MID / GROUP / FPINT))
(broadcast_to2 B0 B_MID (expand_dims_1 idx_m)))
(broadcast_to2 B0 B_MID (expand_dims_0 idx_offset)) in
let _msk_offset :=
zip2 andb (broadcast_to2 B0 B_MID (expand_dims_1 msk_m))
(broadcast_to2 B0 B_MID (expand_dims_0 msk_offset)) in
offset ← load2 0%Z offset_ptr _idx_offset _msk_offset;
offset_shifts ←
reshape1 B_MID
(flat2 (broadcast_to2 FPINT GROUP
(expand_dims_1
 (map (fun i => Z.of_nat (i * (32 / FPINT))) (arange 0 FPINT)))));
Ok (map2 (fun w => Z.land w (Z.shiftl 1 (Z.of_nat BITS) - 1))
(zip2 Z.shiftr offset
 (broadcast_to2 B0 B_MID (expand_dims_0 offset_shifts)))).

(** The dequantized left operand of the chunk that starts at [k]. *)
Definition quant_dequant (k : nat) : result (list (list R)) :=
quant_weight ← quant_unpack_weight k;
scale ← quant_load_scale k;
offset ← quant_unpack_offset k;
Ok (zip2 Rmult scale (map2 IZR (zip2 Z.sub quant_weight offset))).

Definition quant_load_act (k : nat) : result (list (list R)) :=
let idx_k := map (fun a => k + a) (arange 0 B_MID) in
let idx_act :=
zip2 Nat.add
(map2 (fun a => a * N1) (broadcast_to2 B_MID B1 (expand_dims_1 idx_k)))
(broadcast_to2 B_MID B1 (expand_dims_0 idx_n)) in
let msk_act :=
zip2 andb
(broadcast_to2 B_MID B1 (expand_dims_1 (map (fun i => i <? MID) idx_k)))
(broadcast_to2 B_MID B1 (expand_dims_0 msk_n)) in
load2 0%R activation_ptr idx_act msk_act.

Definition quant_dot_kernel : result (list (write R)) :=
let tile := replicate B0 (replicate B1 0%R) in
quant_static_asserts;;
tile ← foldR (fun tile k =>
dequant_weight ← quant_dequant k;
act ← quant_load_act k;
Ok (zip2 Rplus tile (dot2 dequant_weight act)))
tile (tl_range 0 MID B_MID);
let idx_out :=
zip2 Nat.add
(map2 (fun a => a * N1) (broadcast_to2 B0 B1 (expand_dims_1 idx_m)))
(broadcast_to2 B0 B1 (expand_dims_0 idx_n)) in
let msk_out :=
zip2 andb (broadcast_to2 B0 B1 (expand_dims_1 msk_m))
(broadcast_to2 B0 B1 (expand_dims_0 msk_n)) in
Ok (store2 idx_out tile msk_out).
End QuantKernel.

Definition run_quant_dot (N0 N1 MID B0 B1 B_MID : nat)
    (scale : list (list R)) (offset : list Z) (weight : list (list Z))
    (activation : list (list R)) (z : list R) : result (list R) :=
  launch (cdiv N0 B0) (cdiv N1 B1) (cdiv 1 1)
         (quant_dot_kernel (flat2 scale) offset (flat2 weight) (flat2 activation)
                           N0 N1 MID B0 B1 B_MID) z.

(** ** Softmax in closed form *)

(** The largest element of a non-empty list of reals. *)
Fixpoint Rmaxl (l : list R) : R :=
  match l with
  | [] => 0%R
  | a :: l' =>
      match l' with
      | [] => a
      | _ => Rmax a (Rmaxl l')
      end
  end.

(** The exponential of the streaming kernels, [tl.exp2(log2_e * d)] with
    the source's constant [log2_e = 1.44269504]. *)
Definition exp2c (d : R) : R := Rpower 2 (144269504 / 100000000 * d).

(** Softmax of a row of reals with [ex] as its exponential: every entry
    shifted by the row maximum, normalised by the sum. *)
Definition softmax_row (ex : R -> R) (row : list R) : list R :=
  let m := Rmaxl row in
  let s := Rsum (map (fun a => ex (a - m)%R) row) in
  map (fun a => (ex (a - m) / s)%R) row.

(** A row as the chunked loops see it: followed by the fill value of the
    masked loads, zero, up to a whole number of chunks. *)
Definition pad_chunks (T B1 : nat) (row : list R) : list R :=
  row ++ replicate (cdiv T B1 * B1 - T) 0%R.

(** Attention of one query over keys [k] and values [v]: the values
    weighted by the softmax of the scores [q * k_j]. *)
Definition attention_row (ex : R -> R) (k v : list R) (q : R) : R :=
  Rsum (zip_with Rmult v (softmax_row ex (map (fun kj => (q * kj)%R) k))).

(** The running statistics of the streaming loops after the first [n]
    elements of a sequence [rr] (with values [vv] to weight): the maximum,
    the sum of the exponentials shifted by it, and the weighted sum. *)
Definition running_max (rr : nat -> R) (n : nat) : R := Rmaxl (map rr (seq 0 n)).

Definition running_sum (rr : nat -> R) (n : nat) : R :=
  Rsum (map (fun t => exp2c (rr t - running_max rr n)) (seq 0 n)).

Definition running_weighted (rr vv : nat -> R) (n : nat) : R :=
  Rsum (map (fun t => (exp2c (rr t - running_max rr n) * vv t)%R) (seq 0 n)).

(** What a masked load of the [N0 x T] tensor [x] yields at row [i],
    column [t]: the entry inside the bounds, the fill value zero outside. *)
Definition masked_entry (x : list (list R)) (N0 T : nat) (i t : nat) : R :=
  if (i <? N0) && (t <? T) then nth t (nth i x []) 0%R else 0%R.

(** What a masked load of the vector [v] of length [n] yields at position
    [i]: the element inside the bound, the fill value zero outside. *)
Definition masked_elem (v : list R) (n i : nat) : R :=
  if i <? n then nth i v 0%R else 0%R.

(** ** The command line *)

(** The lines [run_puzzles] prints itself: [print("Puzzle #n:")],
    [print_end_line()] and [print("All tests passed!")].  What the harness
    call [test] prints in between is not kept. *)
Inductive printed : Type :=
  | PuzzleHeader (n : Z)
  | EndLine
  | AllPassed.

(** [run_puzzles]: the blocks of the source in their order, each run when
    its number is in [puzzles]; a block whose test fails returns at once,
    and the last line is printed when no block returned.  [test n] is the
    outcome of the harness call of block [n] ([test] is imported from
    [test_puzzle]). *)
Fixpoint run_puzzle_blocks (test : Z -> bool) (puzzles blocks : list Z)
  : list printed :=
  match blocks with
  | [] => [AllPassed]
  | n :: rest =>
      if bool_decide (n ∈ puzzles)
      then PuzzleHeader n :: EndLine
             :: (if test n then run_puzzle_blocks test puzzles rest else [])
      else run_puzzle_blocks test puzzles rest
  end.

Definition run_puzzles (test : Z -> bool) (puzzles : list Z) : list printed :=
  run_puzzle_blocks test puzzles (map Z.of_nat (seq 1 12)).

(** What the script does once its options are parsed. *)
Inductive action : Type :=
  | RunDemos
  | RunPuzzles (puzzles : list Z)
  | PrintHelp.

(** The dispatch at the end of [puzzles.py] on the parsed options
    [--intro], [--all] and [--puzzle N]: [elif args.puzzle] is false for a
    missing option and for [N = 0]. *)
Definition main_dispatch (intro all : bool) (puzzle : option Z) : action :=
  if intro then RunDemos
  else if all then RunPuzzles (map Z.of_nat (seq 1 (13 - 1)))
  else match puzzle with
       | Some n => if (n =? 0)%Z then PrintHelp else RunPuzzles [n]
       | None => PrintHelp
       end.

(** ** Normal forms of tiles

    Every tile a kernel builds is a table over its base coordinate
    vectors. *)

Definition outer2 {A B C} (f : A -> B -> C) (xs : list A) (ys : list B)
  : list (list C) :=
  map (fun a => map (fun b => f a b) ys) xs.

Definition outer3 {A B C D} (f : A -> B -> C -> D)
    (xs : list A) (ys : list B) (zs : list C) : list (list (list D)) :=
  map (fun a => outer2 (f a) ys zs) xs.

(** ** Shapes and row-major addressing *)

Definition shape2 {A} (r c : nat) (t : list (list A)) : Prop :=
  length t = r /\ Forall (fun row => length row = c) t.

Definition shape3 {A} (n r c : nat) (t : list (list (list A))) : Prop :=
  length t = n /\ Forall (shape2 r c) t.

(** The writes of one instance of the long sum: the row sums of its
    in-range rows. *)
Definition sum_writes (x : list (list R)) (N0 B0 : nat) (p : pid) : list (write R) :=
  omap (fun a =>
          let i := program_id 0 p * B0 + a in
          if i <? N0 then Some (i, Rsum (nth i x [])) else None)
       (seq 0 B0).

(** ** Tables of the tiled matrix product *)

(** The operand tiles of [dot_kernel] as tables: the tensor entry inside
    the bounds, zero outside. *)
Definition dot_entry_A {A} `{Scalar A} (x : list (list (list A)))
    (N1 N2 MID B1 B2 : nat) (p : pid) (k ib im ik : nat) : A :=
  if (program_id 2 p * B2 + ib <? N2) && (program_id 1 p * B1 + im <? N1)
     && (k + ik <? MID)
  then nth ((program_id 2 p * B2 + ib) * N1 * MID
            + (program_id 1 p * B1 + im) * MID + (k + ik)) (flat3 x) s_zero
  else s_zero.

Definition dot_entry_B {A} `{Scalar A} (y : list (list (list A)))
    (N0 N2 MID B0 B2 : nat) (p : pid) (k ib ik jn : nat) : A :=
  if (program_id 2 p * B2 + ib <? N2) && (k + ik <? MID)
     && (program_id 0 p * B0 + jn <? N0)
  then nth ((program_id 2 p * B2 + ib) * MID * N0 + (k + ik) * N0
            + (program_id 0 p * B0 + jn)) (flat3 y) s_zero
  else s_zero.

Definition dot_table_A {A} `{Scalar A} (x : list (list (list A)))
    (N1 N2 MID B1 B2 B_MID : nat) (p : pid) (k : nat) : list (list (list A)) :=
  outer3 (dot_entry_A x N1 N2 MID B1 B2 p k) (seq 0 B2) (seq 0 B1) (seq 0 B_MID).

Definition dot_table_B {A} `{Scalar A} (y : list (list (list A)))
    (N0 N2 MID B0 B2 B_MID : nat) (p : pid) (k : nat) : list (list (list A)) :=
  outer3 (dot_entry_B y N0 N2 MID B0 B2 p k) (seq 0 B2) (seq 0 B_MID) (seq 0 B0).

(** What chunk [c] of the contraction adds at tile position
    [(ib, im, jn)]: the product of the two operand tiles there. *)
Definition dot_chunk {A} `{Scalar A} (x y : list (list (list A)))
    (N0 N1 N2 MID B0 B1 B2 B_MID : nat) (p : pid) (c ib im jn : nat) : A :=
  s_sum (map (fun ik =>
                s_mul (dot_entry_A x N1 N2 MID B1 B2 p (c * B_MID) ib im ik)
                      (dot_entry_B y N0 N2 MID B0 B2 p (c * B_MID) ib ik jn))
             (seq 0 B_MID)).

(** The accumulator after [n] chunks, added in the order of the loop, and
    the writes of the instance. *)
Fixpoint dot_acc {A} `{Scalar A} (x y : list (list (list A)))
    (N0 N1 N2 MID B0 B1 B2 B_MID : nat) (p : pid) (n ib im jn : nat) {struct n} : A :=
  match n with
  | 0 => s_zero
  | S n' =>
      s_add (dot_acc x y N0 N1 N2 MID B0 B1 B2 B_MID p n' ib im jn)
            (dot_chunk x y N0 N1 N2 MID B0 B1 B2 B_MID p n' ib im jn)
  end.

Definition dot_writes {A} `{Scalar A} (x y : list (list (list A)))
    (N0 N1 N2 MID B0 B1 B2 B_MID : nat) (p : pid) : list (write A) :=
  store3
    (outer3 (fun ib im jn =>
               (program_id 2 p * B2 + ib) * N1 * N0
               + (program_id 1 p * B1 + im) * N0 + (program_id 0 p * B0 + jn))
            (seq 0 B2) (seq 0 B1) (seq 0 B0))
    (outer3 (dot_acc x y N0 N1 N2 MID B0 B1 B2 B_MID p (cdiv MID B_MID))
            (seq 0 B2) (seq 0 B1) (seq 0 B0))
    (outer3 (fun ib im jn =>
               (program_id 2 p * B2 + ib <? N2) && (program_id 1 p * B1 + im <? N1)
               && (program_id 0 p * B0 + jn <? N0))
            (seq 0 B2) (seq 0 B1) (seq 0 B0)).

(** The entry of the product at [(b, m, n)] as the loop of [dot_kernel]
    adds it: chunk after chunk of [B_MID] products, a contraction position
    past [MID] entering as zero times zero. *)
Definition dot_stream_chunk {A} `{Scalar A} (x y : list (list (list A)))
    (MID B_MID : nat) (c b m n : nat) : A :=
  s_sum (map (fun ik =>
                let l := c * B_MID + ik in
                s_mul (if l <? MID then nth l (nth m (nth b x []) []) s_zero else s_zero)
                      (if l <? MID then nth n (nth l (nth b y []) []) s_zero else s_zero))
             (seq 0 B_MID)).

Fixpoint dot_stream {A} `{Scalar A} (x y : list (list (list A)))
    (MID B_MID : nat) (chunks b m n : nat) {struct chunks} : A :=
  match chunks with
  | 0 => s_zero
  | S c =>
      s_add (dot_stream x y MID B_MID c b m n)
            (dot_stream_chunk x y MID B_MID c b m n)
  end.

(** ** Tables of the convolution *)

(** The input tile of [conv2d_kernel] at window [(h, w)]: the image entry
    inside the batch and image bounds, zero outside. *)
Definition conv2d_entry {A} `{Scalar A} (x : list (list (list A)))
    (N0 H W B0 : nat) (p : pid) (h w ib oh ow : nat) : A :=
  if (program_id 0 p * B0 + ib <? N0) && (h + oh <? H) && (w + ow <? W)
  then nth ((program_id 0 p * B0 + ib) * H * W + (h + oh) * W + (w + ow))
           (flat3 x) s_zero
  else s_zero.

(** The value the kernel stores for the window at [(h, w)]: its products
    added along each window row, then the row sums added. *)
Definition conv2d_val {A} `{Scalar A} (x : list (list (list A))) (k : list (list A))
    (N0 H W KH KW B0 : nat) (p : pid) (h w ib : nat) : A :=
  s_sum (map (fun oh =>
                s_sum (map (fun ow =>
                              s_mul (conv2d_entry x N0 H W B0 p h w ib oh ow)
                                    (nth (KW * oh + ow) (flat2 k) s_zero))
                           (seq 0 KW)))
             (seq 0 KH)).

(** The write, if any, of tile row [ib] at window [(h, w)]. *)
Definition conv2d_write {A} `{Scalar A} (x : list (list (list A))) (k : list (list A))
    (N0 H W KH KW B0 : nat) (p : pid) (h w ib : nat) : option (write A) :=
  if program_id 0 p * B0 + ib <? N0
  then Some ((program_id 0 p * B0 + ib) * H * W + h * W + w,
             conv2d_val x k N0 H W KH KW B0 p h w ib)
  else None.

Definition conv2d_writes {A} `{Scalar A} (x : list (list (list A)))
    (k : list (list A)) (N0 H W KH KW B0 : nat) (p : pid) : list (write A) :=
  omap (fun t : nat * (nat * nat) =>
          conv2d_write x k N0 H W KH KW B0 p t.1 t.2.1 t.2.2)
       (list_prod (seq 0 H) (list_prod (seq 0 W) (seq 0 B0))).

(** The window sum at output position [(b, h, w)] as the kernel adds it:
    the products of each window row, then the row sums; a window position
    past the bottom or right edge enters as zero. *)
Definition conv2d_rows {A} `{Scalar A} (x : list (list (list A))) (k : list (list A))
    (H W KH KW : nat) (b h w : nat) : A :=
  s_sum (map (fun oh =>
                s_sum (map (fun ow =>
                              s_mul
                                (if (h + oh <? H) && (w + ow <? W)
                                 then nth (w + ow) (nth (h + oh) (nth b x []) []) s_zero
                                 else s_zero)
                                (nth ow (nth oh k []) s_zero))
                           (seq 0 KW)))
             (seq 0 KH)).

(** ** Tables of the quantized product *)

(** Field [i] of a packed word, with the shift and the mask of
    [quant_dot_kernel]; then the unpacked weight, the scale and the unpacked
    offset that the kernel holds at tile position [(ib, l)] of the chunk
    that starts at [k]. *)
Definition quant_lane (word : Z) (i : nat) : Z :=
  Z.land (Z.shiftr word (Z.of_nat (i * (32 / FPINT))))
         (Z.shiftl 1 (Z.of_nat (32 / FPINT)) - 1).

Definition quant_weight_entry (weight : list Z) (N0 MID B0 : nat) (p : pid)
    (k ib l : nat) : Z :=
  let m := program_id 0 p * B0 + ib in
  let word :=
    if (m <? N0) && (k / FPINT + l / FPINT <? MID / FPINT)
    then nth (m * (MID / FPINT) + (k / FPINT + l / FPINT)) weight 0%Z
    else 0%Z in
  quant_lane word (l mod FPINT).

Definition quant_scale_entry (scale : list R) (N0 MID B0 : nat) (p : pid)
    (k ib l : nat) : R :=
  let m := program_id 0 p * B0 + ib in
  if (m <? N0) && ((k + l) / GROUP <? MID / GROUP)
  then nth (m * (MID / GROUP) + (k + l) / GROUP) scale 0%R
  else 0%R.

Definition quant_offset_entry (offset : list Z) (N0 MID B0 B_MID : nat) (p : pid)
    (k ib l : nat) : Z :=
  let m := program_id 0 p * B0 + ib in
  let word :=
    if (m <? N0) && ((k + l) / GROUP / FPINT <? B_MID / GROUP / FPINT)
    then nth (m * (MID / GROUP / FPINT) + (k + l) / GROUP / FPINT) offset 0%Z
    else 0%Z in
  quant_lane word (l / GROUP).

Definition quant_dequant_entry (scale : list R) (offset weight : list Z)
    (N0 MID B0 B_MID : nat) (p : pid) (k ib l : nat) : R :=
  (quant_scale_entry scale N0 MID B0 p k ib l
   * IZR (quant_weight_entry weight N0 MID B0 p k ib l
          - quant_offset_entry offset N0 MID B0 B_MID p k ib l))%R.

Definition quant_act_entry (activation : list R) (N1 MID B1 : nat) (p : pid)
    (k l jn : nat) : R :=
  if (k + l <? MID) && (program_id 1 p * B1 + jn <? N1)
  then nth ((k + l) * N1 + (program_id 1 p * B1 + jn)) activation 0%R
  else 0%R.

(* ===================================================================== *)
(** * Properties *)

(** ** The result monad *)

Lemma mapR_ok {A B} (f : A -> result B) (g : A -> B) (l : list A) :
  (forall a, a ∈ l -> f a = Ok (g a)) -> mapR f l = Ok (map g l).
Proof.
  induction l as [|a l IH]; intros H; simpl; [done|].
  rewrite H by (apply elem_of_cons; by left). cbn.
  rewrite IH; [done|]. intros b Hb. apply H. apply elem_of_cons; by right.
Qed.

Lemma mapR_err {A B} (f : A -> result B) (e : error) (l : list A) :
  l <> [] -> (forall a, a ∈ l -> f a = Err e) -> mapR f l = Err e.
Proof.
  destruct l as [|a l]; [done|]. intros _ H. simpl.
  rewrite H by (apply elem_of_cons; by left). done.
Qed.

Lemma foldR_app {A St} (f : St -> A -> result St) (s : St) (l1 l2 : list A) :
  foldR f s (l1 ++ l2) = (s' ← foldR f s l1; foldR f s' l2).
Proof.
  revert s. induction l1 as [|a l1 IH]; intros s; simpl; [done|].
  destruct (f s a) as [s'|e]; cbn; [apply IH|done].
Qed.

(** A loop whose every step succeeds and keeps an invariant [I] indexed by
    the number of steps done. *)
Lemma foldR_inv {A St} (f : St -> A -> result St) (I : nat -> St -> Prop)
    (l : list A) (s : St) :
  I 0 s ->
  (forall n a s, l !! n = Some a -> I n s -> exists s', f s a = Ok s' /\ I (S n) s') ->
  exists s', foldR f s l = Ok s' /\ I (length l) s'.
Proof.
  revert I s. induction l as [|a l IH]; intros I s H0 Hstep; simpl.
  - eauto.
  - destruct (Hstep 0 a s) as (s' & -> & H1); [done|done|]. cbn.
    apply (IH (fun n => I (S n))); [done|].
    intros n b t Hn. apply (Hstep (S n)). done.
Qed.

(** ** Broadcasting *)

Lemma bcast_id {A} (n : nat) (l : list A) : length l = n -> bcast n l = l.
Proof. destruct l as [|a [|b l]]; simpl; intros <-; done. Qed.

Lemma replicate_map {A B} (c : B) (l : list A) :
  replicate (length l) c = map (fun _ => c) l.
Proof. induction l; simpl; congruence. Qed.

Lemma bcast_rows {A B C} (h : A -> C) (xs : list A) (ys : list B) :
  broadcast_to2 (length xs) (length ys) (expand_dims_1 (map h xs))
  = outer2 (fun a _ => h a) xs ys.
Proof.
  unfold broadcast_to2, expand_dims_1, outer2.
  rewrite bcast_id by (by rewrite !length_map).
  rewrite <- !list_fmap_compose. apply list_fmap_ext; intros i a _; simpl.
  apply replicate_map.
Qed.

Lemma bcast_cols {A B C} (h : B -> C) (xs : list A) (ys : list B) :
  broadcast_to2 (length xs) (length ys) (expand_dims_0 (map h ys))
  = outer2 (fun _ b => h b) xs ys.
Proof.
  unfold broadcast_to2, expand_dims_0, outer2. simpl.
  rewrite bcast_id by (by rewrite length_map).
  apply replicate_map.
Qed.

Lemma zip2_outer {A B C D E} (f : C -> D -> E) (g : A -> B -> C) (h : A -> B -> D)
    (xs : list A) (ys : list B) :
  zip2 f (outer2 g xs ys) (outer2 h xs ys)
  = outer2 (fun a b => f (g a b) (h a b)) xs ys.
Proof.
  unfold zip2, outer2.
  rewrite zip_with_fmap_l, zip_with_fmap_r, zip_with_diag.
  apply list_fmap_ext; intros i a _.
  by rewrite zip_with_fmap_l, zip_with_fmap_r, zip_with_diag.
Qed.

Lemma map2_outer {A B C D} (f : C -> D) (g : A -> B -> C)
    (xs : list A) (ys : list B) :
  map2 f (outer2 g xs ys) = outer2 (fun a b => f (g a b)) xs ys.
Proof.
  unfold map2, outer2. rewrite <- list_fmap_compose.
  apply list_fmap_ext; intros i a _; simpl. by rewrite <- list_fmap_compose.
Qed.

Lemma zip_with_map_same {A C D E} (f : C -> D -> E) (g : A -> C) (h : A -> D)
    (xs : list A) :
  zip_with f (map g xs) (map h xs) = map (fun a => f (g a) (h a)) xs.
Proof. by rewrite zip_with_fmap_l, zip_with_fmap_r, zip_with_diag. Qed.

Lemma outer2_ext {A B C} (f g : A -> B -> C) (xs : list A) (ys : list B) :
  (forall a b, a ∈ xs -> b ∈ ys -> f a b = g a b) ->
  outer2 f xs ys = outer2 g xs ys.
Proof.
  intros H. unfold outer2. apply list_fmap_ext; intros i a Ha.
  apply list_fmap_ext; intros j b Hb.
  apply H; eapply list_elem_of_lookup_2; eauto.
Qed.


(** ** Loads and stores on tables *)

Lemma load1_map {A B} (other : B) (buf : list B) (fi : A -> nat) (fm : A -> bool)
    (xs : list A) :
  (forall a, a ∈ xs -> fm a = true -> fi a < length buf) ->
  load1 other buf (map fi xs) (map fm xs)
  = Ok (map (fun a => if fm a then nth (fi a) buf other else other) xs).
Proof.
  intros H. unfold load1. rewrite zip_with_map_same.
  induction xs as [|a xs IH]; simpl; [done|].
  rewrite IH by (intros b Hb; apply H; apply elem_of_cons; by right).
  unfold load_at at 1. simpl. destruct (fm a) eqn:E; [|done].
  destruct (lookup_lt_is_Some_2 buf (fi a)) as [v Hv].
  { apply H; [apply elem_of_cons; by left|done]. }
  rewrite Hv. cbn. by rewrite (nth_lookup_Some _ _ _ _ Hv).
Qed.

Lemma load2_outer {A B C} (other : C) (buf : list C) (fi : A -> B -> nat)
    (fm : A -> B -> bool) (xs : list A) (ys : list B) :
  (forall a b, a ∈ xs -> b ∈ ys -> fm a b = true -> fi a b < length buf) ->
  load2 other buf (outer2 fi xs ys) (outer2 fm xs ys)
  = Ok (outer2 (fun a b => if fm a b then nth (fi a b) buf other else other) xs ys).
Proof.
  intros H. unfold load2, outer2. rewrite zip_with_map_same.
  induction xs as [|a xs IH]; simpl; [done|].
  rewrite IH by (intros a' b Ha; apply H; apply elem_of_cons; by right).
  rewrite load1_map; [done|].
  intros b Hb. apply H; [apply elem_of_cons; by left|done].
Qed.

Lemma load3_outer {A B C D} (other : D) (buf : list D) (fi : A -> B -> C -> nat)
    (fm : A -> B -> C -> bool) (xs : list A) (ys : list B) (zs : list C) :
  (forall a b c, a ∈ xs -> b ∈ ys -> c ∈ zs -> fm a b c = true ->
                 fi a b c < length buf) ->
  load3 other buf (outer3 fi xs ys zs) (outer3 fm xs ys zs)
  = Ok (outer3 (fun a b c => if fm a b c then nth (fi a b c) buf other else other)
               xs ys zs).
Proof.
  intros H. unfold load3, outer3. rewrite zip_with_map_same.
  induction xs as [|a xs IH]; simpl; [done|].
  rewrite IH by (intros a' b c Ha; apply H; apply elem_of_cons; by right).
  rewrite load2_outer; [done|].
  intros b c Hb Hc. apply H; [apply elem_of_cons; by left|done|done].
Qed.

Lemma store1_map {A B} (fi : A -> nat) (fv : A -> B) (fm : A -> bool) (xs : list A) :
  store1 (map fi xs) (map fv xs) (map fm xs)
  = omap (fun a => if fm a then Some (fi a, fv a) else None) xs.
Proof.
  unfold store1. rewrite !zip_with_map_same.
  induction xs as [|a xs IH]; [done|].
  cbn in *. rewrite IH. by destruct (fm a).
Qed.

Lemma elem_of_store1_map {A B} (fi : A -> nat) (fv : A -> B) (fm : A -> bool)
    (xs : list A) (w : write B) :
  w ∈ store1 (map fi xs) (map fv xs) (map fm xs)
  <-> exists a, a ∈ xs /\ fm a = true /\ w = (fi a, fv a).
Proof.
  rewrite store1_map, list_elem_of_omap. split.
  - intros (a & Ha & E). exists a. destruct (fm a); naive_solver.
  - intros (a & Ha & E & ->). exists a. by rewrite E.
Qed.

Lemma flat2_outer {A B C} (f : A -> B -> C) (xs : list A) (ys : list B) :
  flat2 (outer2 f xs ys) = map (fun ab => f ab.1 ab.2) (list_prod xs ys).
Proof.
  unfold flat2, outer2. induction xs as [|a xs IH]; simpl; [done|].
  rewrite IH, map_app, map_map. done.
Qed.

Lemma flat3_outer {A B C D} (f : A -> B -> C -> D)
    (xs : list A) (ys : list B) (zs : list C) :
  flat3 (outer3 f xs ys zs)
  = map (fun t => f t.1 t.2.1 t.2.2) (list_prod xs (list_prod ys zs)).
Proof.
  unfold flat3, outer3. induction xs as [|a xs IH]; simpl; [done|].
  rewrite IH, map_app, map_map, flat2_outer. done.
Qed.

Lemma elem_of_list_prod {A B} (xs : list A) (ys : list B) (a : A) (b : B) :
  (a, b) ∈ list_prod xs ys <-> a ∈ xs /\ b ∈ ys.
Proof. rewrite !list_elem_of_In. apply in_prod_iff. Qed.

Lemma elem_of_store2_outer {A B C} (fi : A -> B -> nat) (fv : A -> B -> C)
    (fm : A -> B -> bool) (xs : list A) (ys : list B) (w : write C) :
  w ∈ store2 (outer2 fi xs ys) (outer2 fv xs ys) (outer2 fm xs ys)
  <-> exists a b, a ∈ xs /\ b ∈ ys /\ fm a b = true /\ w = (fi a b, fv a b).
Proof.
  unfold store2. rewrite !flat2_outer, elem_of_store1_map. split.
  - intros ([a b] & H & E & ->). apply elem_of_list_prod in H as [??]. eauto 10.
  - intros (a & b & Ha & Hb & E & ->). exists (a, b).
    rewrite elem_of_list_prod. done.
Qed.

Lemma elem_of_store3_outer {A B C D} (fi : A -> B -> C -> nat)
    (fv : A -> B -> C -> D) (fm : A -> B -> C -> bool)
    (xs : list A) (ys : list B) (zs : list C) (w : write D) :
  w ∈ store3 (outer3 fi xs ys zs) (outer3 fv xs ys zs) (outer3 fm xs ys zs)
  <-> exists a b c, a ∈ xs /\ b ∈ ys /\ c ∈ zs /\ fm a b c = true
                    /\ w = (fi a b c, fv a b c).
Proof.
  unfold store3. rewrite !flat3_outer, elem_of_store1_map. split.
  - intros ([a [b c]] & H & E & ->).
    apply elem_of_list_prod in H as [Ha H]. apply elem_of_list_prod in H as [??].
    eauto 10.
  - intros (a & b & c & Ha & Hb & Hc & E & ->). exists (a, (b, c)).
    rewrite !elem_of_list_prod. done.
Qed.

(** ** Writes and the launch *)

Section Writes.
Context {A : Type}.
Implicit Types (ws : list (write A)) (buf : list A).

Lemma apply_write_in (q : nat) (u : A) buf :
q < length buf -> apply_write buf (q, u) = Ok (<[q:=u]> buf).
Proof. intros H. unfold apply_write. simpl. by destruct (decide _). Qed.

Lemma apply_writes_ok ws buf :
(forall w, w ∈ ws -> w.1 < length buf) ->
exists buf',
apply_writes ws buf = Ok buf'
/\ length buf' = length buf
/\ (forall p, (forall w, w ∈ ws -> w.1 <> p) -> buf' !! p = buf !! p)
/\ (forall p v, (exists w, w ∈ ws /\ w.1 = p) ->
(forall w, w ∈ ws -> w.1 = p -> w.2 = v) ->
buf' !! p = Some v).
Proof.
revert buf. induction ws as [|[q u] ws IH]; intros buf Hb.
- exists buf. split; [done|]. split; [done|]. split; [done|].
intros p v (w & Hw & _). by apply elem_of_nil in Hw.
- assert (Hq : q < length buf) by (apply (Hb (q, u)); apply elem_of_cons; by left).
destruct (IH (<[q:=u]> buf)) as (buf' & E & Hlen & Hframe & Hval).
{ intros w Hw. rewrite length_insert. apply Hb. apply elem_of_cons; by right. }
exists buf'. unfold apply_writes in *. simpl.
rewrite apply_write_in by done. cbn. split; [done|].
rewrite length_insert in Hlen. split; [done|]. split.
+ intros p Hp. rewrite Hframe.
* apply list_lookup_insert_ne. apply (Hp (q, u)). apply elem_of_cons; by left.
* intros w Hw. apply Hp. apply elem_of_cons; by right.
+ intros p v Hex Hall.
destruct (decide (Exists (fun w : write A => w.1 = p) ws)) as [Hin|Hnin];
rewrite Exists_exists in *.
* apply Hval; [done|]. intros w Hw. apply Hall. apply elem_of_cons; by right.
* rewrite Hframe by (intros w Hw E'; apply Hnin; eauto).
destruct Hex as (w & Hw & Ew). apply elem_of_cons in Hw as [->|Hw].
-- simpl in Ew. subst p. rewrite list_lookup_insert_eq by done.
 f_equal. apply (Hall (q, u)); [apply elem_of_cons; by left|done].
-- exfalso. apply Hnin. eauto.
Qed.
End Writes.

Lemma elem_of_grid_cells (g0 g1 g2 : nat) (c : pid) :
  c ∈ grid_cells g0 g1 g2 <-> c.1.1 < g0 /\ c.1.2 < g1 /\ c.2 < g2.
Proof.
  unfold grid_cells. destruct c as [[p0 p1] p2]. simpl.
  rewrite list_elem_of_bind. split.
  - intros (a & H & Ha). apply list_elem_of_bind in H as (b & H & Hb).
    apply list_elem_of_bind in H as (c & H & Hc).
    apply list_elem_of_singleton in H. inversion H; subst.
    rewrite !elem_of_seq in *. lia.
  - intros (H0 & H1 & H2). exists p0. split; [|apply elem_of_seq; lia].
    apply list_elem_of_bind. exists p1. split; [|apply elem_of_seq; lia].
    apply list_elem_of_bind. exists p2. split; [|apply elem_of_seq; lia].
    by apply list_elem_of_singleton.
Qed.

Lemma elem_of_concat {A} (x : A) (ls : list (list A)) :
  x ∈ concat ls <-> exists l, l ∈ ls /\ x ∈ l.
Proof.
  rewrite list_elem_of_In, in_concat. split.
  - intros (l & H1 & H2). exists l. by rewrite !list_elem_of_In.
  - intros (l & H1 & H2). exists l. by rewrite <- !list_elem_of_In.
Qed.

Lemma launch_table {A} (g0 g1 g2 : nat) (kernel : pid -> result (list (write A)))
    (W : pid -> list (write A)) (g : nat -> A) (z : list A) :
  (forall c, c ∈ grid_cells g0 g1 g2 -> kernel c = Ok (W c)) ->
  (forall c w, c ∈ grid_cells g0 g1 g2 -> w ∈ W c ->
               w.1 < length z /\ w.2 = g w.1) ->
  (forall q, q < length z ->
             exists c w, c ∈ grid_cells g0 g1 g2 /\ w ∈ W c /\ w.1 = q) ->
  launch g0 g1 g2 kernel z = Ok (map g (seq 0 (length z))).
Proof.
  intros Hk Hw Hcov. unfold launch, launch_writes.
  rewrite (mapR_ok _ W) by done. cbn.
  set (ws := concat (map W (grid_cells g0 g1 g2))).
  assert (Hin : forall w, w ∈ ws ->
            exists c, c ∈ grid_cells g0 g1 g2 /\ w ∈ W c).
  { intros w H. apply elem_of_concat in H as (l & H & Hl).
    apply list_elem_of_fmap in H as (c & -> & Hc). eauto. }
  assert (Hni : forall c w, c ∈ grid_cells g0 g1 g2 -> w ∈ W c -> w ∈ ws).
  { intros c w Hc H. apply elem_of_concat. exists (W c). split; [|done].
    by apply list_elem_of_fmap_2. }
  destruct (apply_writes_ok ws z) as (buf' & -> & Hlen & _ & Hval).
  { intros w H. destruct (Hin w H) as (c & Hc & H'). by apply (Hw c w). }
  f_equal. apply list_eq. intros i.
  rewrite list_lookup_fmap.
  destruct (decide (i < length z)) as [Hi|Hi].
  - rewrite lookup_seq_lt by done. simpl. apply Hval.
    + destruct (Hcov i Hi) as (c & w & Hc & H & E). exists w. eauto.
    + intros w H E. destruct (Hin w H) as (c & Hc & H').
      destruct (Hw c w Hc H') as [_ ->]. by rewrite E.
  - rewrite lookup_seq_ge by lia. simpl. apply lookup_ge_None. lia.
Qed.


(** ** Row-major addressing *)

Lemma length_flat2 {A} (r c : nat) (t : list (list A)) :
  shape2 r c t -> length (flat2 t) = r * c.
Proof.
  intros [<- H]. unfold flat2. induction H as [|row t Hrow _ IH]; simpl; [done|].
  rewrite length_app, IH, Hrow. lia.
Qed.

Lemma nth_flat2 {A} (r c : nat) (t : list (list A)) (d : A) (i j : nat) :
  shape2 r c t -> j < c ->
  nth (i * c + j) (flat2 t) d = nth j (nth i t []) d.
Proof.
  intros [_ H] Hj. unfold flat2. revert i.
  induction H as [|row t Hrow _ IH]; intros i; simpl.
  - by destruct (i * c + j), i, j.
  - destruct i as [|i]; simpl.
    + rewrite app_nth1 by lia. done.
    + rewrite app_nth2 by lia. rewrite <- IH. f_equal. lia.
Qed.

Lemma length_flat3 {A} (n r c : nat) (t : list (list (list A))) :
  shape3 n r c t -> length (flat3 t) = n * r * c.
Proof.
  intros [<- H]. unfold flat3. induction H as [|m t Hm _ IH]; simpl; [done|].
  rewrite length_app, IH, (length_flat2 r c) by done. lia.
Qed.

Lemma nth_flat3 {A} (n r c : nat) (t : list (list (list A))) (d : A) (b i j : nat) :
  shape3 n r c t -> i < r -> j < c ->
  nth (b * r * c + i * c + j) (flat3 t) d = nth j (nth i (nth b t []) []) d.
Proof.
  intros [_ H] Hi Hj. unfold flat3. revert b.
  induction H as [|m t Hm _ IH]; intros b; simpl.
  - by destruct (b * r * c + i * c + j), b, i, j.
  - destruct b as [|b]; simpl.
    + rewrite app_nth1 by (rewrite (length_flat2 r c) by done; nia).
      by apply (nth_flat2 r).
    + rewrite app_nth2 by (rewrite (length_flat2 r c) by done; nia).
      rewrite <- IH. f_equal. rewrite (length_flat2 r c) by done. nia.
Qed.

(** ** Sums *)

Lemma Rsum_app (l1 l2 : list R) : Rsum (l1 ++ l2) = (Rsum l1 + Rsum l2)%R.
Proof. induction l1 as [|a l1 IH]; simpl; [lra|]. rewrite IH. lra. Qed.

Lemma Rsum_zero {A} (f : A -> R) (l : list A) :
  (forall a, a ∈ l -> f a = 0%R) -> Rsum (map f l) = 0%R.
Proof.
  induction l as [|a l IH]; intros H; simpl; [done|].
  rewrite H by (apply elem_of_cons; by left).
  rewrite IH by (intros b Hb; apply H; apply elem_of_cons; by right). lra.
Qed.

Lemma Rsum_ext {A} (f g : A -> R) (l : list A) :
  (forall a, a ∈ l -> f a = g a) -> Rsum (map f l) = Rsum (map g l).
Proof.
  intros H. f_equal. apply list_fmap_ext. intros i a Ha. apply H.
  by eapply list_elem_of_lookup_2.
Qed.

Lemma Rsum_plus {A} (f g : A -> R) (l : list A) :
  Rsum (map (fun a => (f a + g a)%R) l) = (Rsum (map f l) + Rsum (map g l))%R.
Proof. induction l as [|a l IH]; simpl; [lra|]. rewrite IH. lra. Qed.

Lemma Rsum_nth (l : list R) :
  Rsum l = Rsum (map (fun j => nth j l 0%R) (seq 0 (length l))).
Proof.
  induction l as [|a l IH]; simpl; [done|].
  rewrite <- seq_shift, map_map. simpl. by rewrite <- IH.
Qed.

Lemma map_seq_add {A} (g : nat -> A) (a n : nat) :
  map g (seq a n) = map (fun j => g (a + j)) (seq 0 n).
Proof.
  rewrite <- (Nat.add_0_r a) at 1.
  by rewrite <- fmap_add_seq, <- list_fmap_compose.
Qed.

(** Streaming a range in chunks of [B], masked at its end, sums the range. *)
Lemma Rsum_chunks (g : nat -> R) (B n : nat) :
  Rsum (map (fun c => Rsum (map (fun j => g (c * B + j)) (seq 0 B))) (seq 0 n))
  = Rsum (map g (seq 0 (n * B))).
Proof.
  induction n as [|n IH]; [done|].
  rewrite seq_S, map_app, Rsum_app, IH. simpl.
  replace (B + n * B) with (n * B + B) by lia.
  rewrite seq_app, map_app, Rsum_app. simpl. f_equal.
  rewrite Rplus_0_r. f_equal. symmetry. apply map_seq_add.
Qed.

Lemma Rsum_masked (f : nat -> R) (T m : nat) :
  T <= m ->
  Rsum (map (fun j => if j <? T then f j else 0%R) (seq 0 m))
  = Rsum (map f (seq 0 T)).
Proof.
  intros H. replace m with (T + (m - T)) by lia.
  rewrite seq_app, map_app, Rsum_app. simpl.
  rewrite (Rsum_zero _ (seq T _)).
  - rewrite Rplus_0_r. apply Rsum_ext. intros j Hj. apply elem_of_seq in Hj.
    destruct (Nat.ltb_spec j T); [done|lia].
  - intros j Hj. apply elem_of_seq in Hj.
    destruct (Nat.ltb_spec j T); [lia|done].
Qed.

Lemma cdiv_mul_ge (n b : nat) : 0 < b -> n <= cdiv n b * b.
Proof.
  intros Hb. unfold cdiv.
  pose proof (Nat.div_mod (n + b - 1) b ltac:(lia)).
  pose proof (Nat.mod_upper_bound (n + b - 1) b ltac:(lia)). nia.
Qed.

Lemma cdiv_pos (n b : nat) : 0 < b -> 0 < n -> 0 < cdiv n b.
Proof. intros Hb Hn. pose proof (cdiv_mul_ge n b Hb). nia. Qed.

Lemma div_lt_cdiv (i n b : nat) : 0 < b -> i < n -> i / b < cdiv n b.
Proof.
  intros Hb Hi. pose proof (cdiv_mul_ge n b Hb).
  apply Nat.Div0.div_lt_upper_bound. lia.
Qed.

Lemma Rsum_stream (f : nat -> R) (T B : nat) :
  0 < B ->
  Rsum (map (fun c => Rsum (map (fun j => if c * B + j <? T then f (c * B + j) else 0%R)
                               (seq 0 B)))
            (seq 0 (cdiv T B)))
  = Rsum (map f (seq 0 T)).
Proof.
  intros HB.
  rewrite (Rsum_chunks (fun j => if j <? T then f j else 0%R)).
  apply Rsum_masked. by apply cdiv_mul_ge.
Qed.


Lemma bcast_rows_n {A B C} (n m : nat) (h : A -> C) (xs : list A) (ys : list B) :
  length xs = n -> length ys = m ->
  broadcast_to2 n m (expand_dims_1 (map h xs)) = outer2 (fun a _ => h a) xs ys.
Proof. intros <- <-. apply bcast_rows. Qed.

Lemma bcast_cols_n {A B C} (n m : nat) (h : B -> C) (xs : list A) (ys : list B) :
  length xs = n -> length ys = m ->
  broadcast_to2 n m (expand_dims_0 (map h ys)) = outer2 (fun _ b => h b) xs ys.
Proof. intros <- <-. apply bcast_cols. Qed.

Lemma replicate_seq {A} (c : A) (a n : nat) :
  replicate n c = map (fun _ => c) (seq a n).
Proof. revert a. induction n as [|n IH]; intros a; simpl; [done|]. by rewrite <- IH. Qed.

Lemma bind_Ok {A B} (a : A) (k : A -> result B) : (Ok a ≫= k) = k a.
Proof. done. Qed.

Lemma map_Rsum_outer {A B} (g : A -> B -> R) (xs : list A) (ys : list B) :
  map Rsum (outer2 g xs ys) = map (fun a => Rsum (map (g a) ys)) xs.
Proof. unfold outer2. by rewrite map_map. Qed.

Lemma lookup_tl_range (lo hi step n k : nat) :
  tl_range lo hi step !! n = Some k ->
  k = lo + n * step /\ n < cdiv (hi - lo) step.
Proof.
  unfold tl_range. rewrite list_lookup_fmap. intros H.
  destruct (seq 0 _ !! n) as [c|] eqn:E; [|done].
  apply lookup_seq in E as [-> ?]. simpl in H. by inversion H.
Qed.

Lemma length_tl_range (lo hi step : nat) :
  length (tl_range lo hi step) = cdiv (hi - lo) step.
Proof. unfold tl_range. by rewrite length_map, length_seq. Qed.

Lemma omap_ext' {A B} (f g : A -> option B) (l : list A) :
  (forall a, a ∈ l -> f a = g a) -> omap f l = omap g l.
Proof.
  induction l as [|a l IH]; intros H; [done|]. cbn.
  rewrite H by (apply elem_of_cons; by left).
  rewrite IH by (intros b Hb; apply H; apply elem_of_cons; by right). done.
Qed.

Lemma shape2_nth {A} (r c : nat) (t : list (list A)) (i : nat) :
  shape2 r c t -> i < r -> length (nth i t []) = c.
Proof.
  intros [<- H] Hi. rewrite Forall_forall in H. apply H.
  apply list_elem_of_In. by apply nth_In.
Qed.

(** ** Puzzle 7: the long sum *)

Section SumKernel.
Variables (x : list (list R)) (N0 N1 T B0 B1 : nat) (p : pid).
Hypothesis Hx : shape2 N0 T x.
Hypothesis HB1 : 0 < B1.

Let row (a : nat) : nat := program_id 0 p * B0 + a.

Lemma sum_kernel_ok :
sum_kernel (flat2 x) N0 N1 T B0 B1 p = Ok (sum_writes x N0 B0 p).
Proof using Hx HB1.
unfold sum_kernel, arange. rewrite !Nat.sub_0_r, !map_map.
set (g := fun a j : nat =>
if (row a <? N0) && (j <? T) then nth (row a * T + j) (flat2 x) 0%R
else 0%R).
edestruct (foldR_inv
(fun sums idx_j_start =>
 vals ← load2 0%R (flat2 x)
 (zip2 Nat.add
(map2 (fun i => i * T)
 (broadcast_to2 B0 B1
(expand_dims_1 (map (fun a => program_id 0 p * B0 + a) (seq 0 B0)))))
(broadcast_to2 B0 B1
 (expand_dims_0 (map (fun a => idx_j_start + a) (seq 0 B1)))))
 (zip2 andb
(broadcast_to2 B0 B1
 (expand_dims_1
(map (fun a => program_id 0 p * B0 + a <? N0) (seq 0 B0))))
(broadcast_to2 B0 B1
 (expand_dims_0
(map (fun j => j <? T)
 (map (fun a => idx_j_start + a) (seq 0 B1))))));
 Ok (zip_with Rplus sums (map Rsum vals)))
(fun n sums =>
 sums = map (fun a =>
Rsum (map (fun c => Rsum (map (fun j => g a (c * B1 + j)) (seq 0 B1)))
(seq 0 n)))
(seq 0 B0))
(tl_range 0 T B1) (replicate B0 0%R)) as (sums & E & Hs).
- by rewrite (replicate_seq _ 0).
- intros n k sums Hk ->. apply lookup_tl_range in Hk as [-> Hn].
cbv beta. rewrite Nat.add_0_l, !map_map.
rewrite !(bcast_rows_n _ _ _ (seq 0 B0) (seq 0 B1)) by apply length_seq.
rewrite !(bcast_cols_n _ _ _ (seq 0 B0) (seq 0 B1)) by apply length_seq.
rewrite map2_outer, !zip2_outer.
rewrite load2_outer.
+ rewrite bind_Ok. eexists. split; [done|].
rewrite map_Rsum_outer, zip_with_map_same.
apply list_fmap_ext. intros _ a _.
rewrite seq_S, map_app, Rsum_app. simpl. rewrite Rplus_0_r. done.
+ intros a b _ _ Hm. apply andb_true_iff in Hm as [Ha Hb].
apply Nat.ltb_lt in Ha, Hb. rewrite (length_flat2 N0 T) by done. nia.
- rewrite E, bind_Ok. clear E. subst sums. rewrite length_tl_range, Nat.sub_0_r.
rewrite store1_map. unfold sum_writes. f_equal. apply omap_ext'. intros a _. cbv zeta.
fold (row a). destruct (Nat.ltb_spec (row a) N0) as [Hr|]; [|done].
do 2 f_equal. unfold g.
rewrite (Rsum_ext _
(fun c => Rsum (map (fun j => if c * B1 + j <? T
 then nth (c * B1 + j) (nth (row a) x []) 0%R
 else 0%R) (seq 0 B1)))).
+ rewrite (Rsum_stream (fun j => nth j (nth (row a) x []) 0%R)) by done.
rewrite (Rsum_nth (nth (row a) x [])).
by rewrite (shape2_nth N0 T).
+ intros c _. apply Rsum_ext. intros j _.
destruct (Nat.ltb_spec (row a) N0); [|lia]. simpl.
destruct (Nat.ltb_spec (c * B1 + j) T); [|done].
by apply (nth_flat2 N0).
Qed.
End SumKernel.

Lemma map_nth_seq {A B} (f : A -> B) (d : A) (l : list A) :
  map (fun i => f (nth i l d)) (seq 0 (length l)) = map f l.
Proof.
  induction l as [|a l IH]; simpl; [done|].
  by rewrite <- seq_shift, map_map, IH.
Qed.

Lemma Rsum_replicate (n : nat) (c : R) : Rsum (replicate n c) = (INR n * c)%R.
Proof.
  induction n as [|n IH]; [simpl; lra|].
  rewrite S_INR. simpl replicate. simpl Rsum. rewrite IH. lra.
Qed.




(** ** Puzzle 1: constant add *)

Lemma load1_all {A} (other : A) (buf : list A) (xs : list nat) :
  (forall a, a ∈ xs -> a < length buf) ->
  load1 other buf xs (all_true xs) = Ok (map (fun a => nth a buf other) xs).
Proof.
  intros H. unfold all_true.
  rewrite <- (map_id xs) at 1. rewrite (load1_map other buf (fun a : nat => a)); [done|].
  intros a Ha _. by apply H.
Qed.

Lemma add_kernel_ok (x : list R) (N0 B0 : nat) (p : pid) :
  length x = B0 ->
  add_kernel x N0 B0 p
  = Ok (map (fun a => (a, (nth a x 0 + 10)%R)) (seq 0 B0)).
Proof.
  intros Hx. unfold add_kernel, arange. rewrite Nat.sub_0_r.
  rewrite load1_all by (intros a Ha; apply elem_of_seq in Ha; lia).
  rewrite bind_Ok, map_map. f_equal. unfold all_true.
  rewrite <- (map_id (seq 0 B0)) at 1. rewrite store1_map.
  induction (seq 0 B0) as [|a l IH]; [done|]. cbn. by rewrite <- IH.
Qed.

(** The harness run of puzzle 1 computes the reference [x + 10]. *)
Lemma run_add_spec (x z : list R) :
  length x = 32 -> length z = 32 -> run_add x z = Ok (add_spec x).
Proof.
  intros Hx Hz. unfold run_add.
  rewrite (launch_table _ _ _ _
             (fun _ => map (fun a => (a, (nth a x 0 + 10)%R)) (seq 0 32))
             (fun i => (nth i x 0 + 10)%R)).
  - rewrite Hz, <- Hx. unfold add_spec.
    by rewrite (map_nth_seq (fun a => (a + 10)%R) 0%R).
  - intros c _. by apply add_kernel_ok.
  - intros c w _ Hw. apply list_elem_of_fmap in Hw as (a & -> & Ha).
    apply elem_of_seq in Ha. simpl. split; [lia|done].
  - intros q Hq. exists (0, 0, 0), (q, (nth q x 0 + 10)%R).
    split; [by apply elem_of_grid_cells; simpl; unfold cdiv; simpl; lia|].
    split; [|done]. apply list_elem_of_fmap. exists q.
    split; [done|]. apply elem_of_seq. lia.
Qed.

(** C5, as the code has it: on the vector of 32 ones with [B0 = 32] the
    kernel of puzzle 1 adds 10 to every element, so the output is the
    32-vector whose every element is 11.0. *)
Theorem add_kernel_ones (z : list R) :
  length z = 32 -> run_add (ones 32) z = Ok (replicate 32 11%R).
Proof.
  intros Hz. rewrite run_add_spec by done.
  unfold add_spec, ones. rewrite fmap_replicate. do 2 f_equal; lra.
Qed.

Lemma add_kernel_ones_witness :
  run_add (ones 32) (replicate 32 0%R) = Ok (replicate 32 11%R).
Proof. apply add_kernel_ones. reflexivity. Defined.

(** C5 as stated fails: the output on 32 ones is not the vector of 10.0. *)
Lemma add_kernel_ones_not_ten :
  run_add (ones 32) (replicate 32 0%R) <> Ok (replicate 32 10%R).
Proof.
  rewrite run_add_spec by reflexivity. intros H.
  apply (f_equal (fun r => match r with Ok (v :: _) => v | _ => 0%R end)) in H.
  simpl in H. lra.
Qed.


(** ** The frame of a masked store *)

Section StoreFrame.
Context {A : Type}.
Implicit Types (ws : list (write A)) (buf : list A).

Lemma apply_write_out (q : nat) (u : A) buf :
~ q < length buf -> apply_write buf (q, u) = Err OutOfBounds.
Proof. intros H. unfold apply_write. simpl. by destruct (decide _). Qed.

Lemma apply_writes_frame ws buf buf' (p : nat) :
apply_writes ws buf = Ok buf' ->
(forall w, w ∈ ws -> w.1 <> p) ->
buf' !! p = buf !! p.
Proof.
revert buf. induction ws as [|[q u] ws IH]; intros buf E Hp.
- by inversion E.
- unfold apply_writes in *. simpl in E.
destruct (decide (q < length buf)) as [Hq|Hq].
2:{ by rewrite apply_write_out in E. }
rewrite apply_write_in, bind_Ok in E by done. rewrite (IH _ E).
+ apply list_lookup_insert_ne. apply (Hp (q, u)). apply elem_of_cons; by left.
+ intros w Hw. apply Hp. apply elem_of_cons; by right.
Qed.

Lemma elem_of_store1 (idx : list nat) (val : list A) (mask : list bool)
(w : write A) :
w ∈ store1 idx val mask ->
exists j, idx !! j = Some w.1 /\ val !! j = Some w.2 /\ mask !! j = Some true.
Proof.
unfold store1. intros H. apply list_elem_of_omap in H as ([[i v] m] & H & E).
simpl in E. destruct m; [|done]. inversion E; subst w. simpl.
apply elem_of_lookup_zip_with in H as (j & iv & m & E1 & H & Hm).
inversion E1; subst iv m.
apply lookup_zip_with_Some in H as (i' & v' & E2 & Hi & Hv).
inversion E2; subst i' v'. eauto.
Qed.
End StoreFrame.

(** C9: a masked store, on tiles of one, two or three axes, that succeeds
    leaves every buffer position that no masked-true index selects with
    its prior value. *)
Theorem masked_store_frame {A} (buf buf' : list A) (p : nat) :
  (forall idx val mask,
     apply_writes (store1 idx val mask) buf = Ok buf' ->
     (forall j, idx !! j = Some p -> mask !! j <> Some true) ->
     buf' !! p = buf !! p)
  /\ (forall idx val mask,
     apply_writes (store2 idx val mask) buf = Ok buf' ->
     (forall j, flat2 idx !! j = Some p -> flat2 mask !! j <> Some true) ->
     buf' !! p = buf !! p)
  /\ (forall idx val mask,
     apply_writes (store3 idx val mask) buf = Ok buf' ->
     (forall j, flat3 idx !! j = Some p -> flat3 mask !! j <> Some true) ->
     buf' !! p = buf !! p).
Proof.
  assert (H1 : forall idx val mask,
     apply_writes (store1 idx val mask) buf = Ok buf' ->
     (forall j, idx !! j = Some p -> mask !! j <> Some true) ->
     buf' !! p = buf !! p).
  { intros idx val mask E Hp. apply (apply_writes_frame _ _ _ _ E).
    intros w Hw Ew. apply elem_of_store1 in Hw as (j & Hi & _ & Hm).
    rewrite Ew in Hi. by apply (Hp j). }
  split; [exact H1|]. split; intros idx val mask; apply H1.
Qed.

(** Demo 3 stores 10 under the mask [range < 5]: cell 7 of the 4 x 3
    buffer of ones keeps its 1. *)
Lemma masked_store_frame_witness :
  ([10; 10; 10; 10; 10; 1; 1; 1; 1; 1; 1; 1]%R : list R) !! 7 = ones 12 !! 7.
Proof.
  apply (proj1 (masked_store_frame (ones 12)
                  [10; 10; 10; 10; 10; 1; 1; 1; 1; 1; 1; 1]%R 7)
           (arange 0 8) (replicate 8 10%R) (map (fun i => i <? 5) (arange 0 8))).
  - reflexivity.
  - intros j Hj. assert (j = 7) as -> by (by do 8 (destruct j as [|j]; [done|])).
    done.
Defined.

(** Puzzle 2 stores under [idx < N0]: cells from [N0] on keep their values. *)
Lemma add_mask2_kernel_frame (x z out : list R) (N0 B0 g0 p : nat) :
  launch g0 1 1 (add_mask2_kernel x N0 B0) z = Ok out ->
  N0 <= p -> out !! p = z !! p.
Proof.
  unfold launch, launch_writes. intros E Hp.
  destruct (mapR _ _) as [ws|] eqn:Ews; [|done]. rewrite !bind_Ok in E.
  apply (apply_writes_frame _ _ _ _ E). intros w Hw Ew.
  apply elem_of_concat in Hw as (l & Hl & Hw).
  assert (exists c, add_mask2_kernel x N0 B0 c = Ok l) as [c Hc].
  { clear E. revert ws Ews Hl. induction (grid_cells g0 1 1) as [|c cs IH];
      intros ws Ews Hl; simpl in Ews.
    - inversion Ews; subst. by apply elem_of_nil in Hl.
    - destruct (add_mask2_kernel x N0 B0 c) as [l0|] eqn:Ec; [|done].
      rewrite bind_Ok in Ews. destruct (mapR _ cs) as [ls|]; [|done].
      rewrite bind_Ok in Ews. inversion Ews; subst.
      apply elem_of_cons in Hl as [->|Hl]; eauto. }
  unfold add_mask2_kernel in Hc. destruct (load1 _ _ _ _) as [xv|]; [|done].
  rewrite bind_Ok in Hc. inversion Hc; subst l.
  apply elem_of_store1 in Hw as (j & Hi & _ & Hm).
  rewrite list_lookup_fmap, Hi in Hm. simpl in Hm. inversion Hm as [Hlt].
  apply Nat.ltb_lt in Hlt. rewrite Ew in Hlt. lia.
Qed.


(** ** Tables of rank three *)

Section Outer3.
Context {A B C : Type}.
Variables (xs : list A) (ys : list B) (zs : list C).
Variables (n0 n1 n2 : nat).
Hypothesis Hxs : length xs = n0.
Hypothesis Hys : length ys = n1.
Hypothesis Hzs : length zs = n2.

Lemma bcast3_12 {D} (h : A -> D) :
broadcast_to3 n0 n1 n2 (expand_dims_12 (map h xs))
= outer3 (fun a _ _ => h a) xs ys zs.
Proof using Hxs Hys Hzs.
unfold broadcast_to3, expand_dims_12, outer3, outer2.
rewrite bcast_id by (by rewrite !length_map).
rewrite !map_map. apply list_fmap_ext; intros _ a _.
unfold broadcast_to2. simpl. subst n1 n2.
by rewrite !replicate_map.
Qed.

Lemma bcast3_02 {D} (h : B -> D) :
broadcast_to3 n0 n1 n2 (expand_dims_02 (map h ys))
= outer3 (fun _ b _ => h b) xs ys zs.
Proof using Hxs Hys Hzs.
unfold broadcast_to3, expand_dims_02, outer3. simpl.
change (map (fun a : D => [a]) (map h ys)) with (expand_dims_1 (map h ys)).
rewrite (bcast_rows_n _ _ _ ys zs) by done. subst n0. apply replicate_map.
Qed.

Lemma bcast3_01 {D} (h : C -> D) :
broadcast_to3 n0 n1 n2 (expand_dims_01 (map h zs))
= outer3 (fun _ _ c => h c) xs ys zs.
Proof using Hxs Hys Hzs.
unfold broadcast_to3, expand_dims_01, outer3. simpl.
change [map h zs] with (expand_dims_0 (map h zs)).
rewrite (bcast_cols_n _ _ _ ys zs) by done. subst n0. apply replicate_map.
Qed.

Lemma bcast3_0 {D} (g : B -> C -> D) :
broadcast_to3 n0 n1 n2 (expand_dims_0 (outer2 g ys zs))
= outer3 (fun _ b c => g b c) xs ys zs.
Proof using Hxs Hys Hzs.
unfold broadcast_to3, expand_dims_0, outer3. simpl.
replace (broadcast_to2 n1 n2 (outer2 g ys zs)) with (outer2 g ys zs).
{ subst n0. apply replicate_map. }
unfold broadcast_to2, outer2. rewrite map_map.
rewrite bcast_id by (by rewrite length_map).
apply list_fmap_ext; intros _ b _. simpl.
by rewrite bcast_id by (by rewrite length_map).
Qed.

Lemma bcast3_2 {D} (g : A -> B -> D) :
broadcast_to3 n0 n1 n2 (expand_dims_2 (outer2 g xs ys))
= outer3 (fun a b _ => g a b) xs ys zs.
Proof using Hxs Hys Hzs.
unfold broadcast_to3, expand_dims_2, outer3.
rewrite bcast_id by (by unfold outer2; rewrite !length_map).
unfold outer2 at 1. rewrite !map_map.
apply list_fmap_ext; intros _ a _. simpl.
change (map (fun a0 : D => [a0]) (map (fun b => g a b) ys))
with (expand_dims_1 (map (fun b => g a b) ys)).
by rewrite (bcast_rows_n _ _ _ ys zs).
Qed.
End Outer3.

Lemma zip3_outer {A B C D E F} (f : D -> E -> F) (g : A -> B -> C -> D)
    (h : A -> B -> C -> E) (xs : list A) (ys : list B) (zs : list C) :
  zip3 f (outer3 g xs ys zs) (outer3 h xs ys zs)
  = outer3 (fun a b c => f (g a b c) (h a b c)) xs ys zs.
Proof.
  unfold zip3, outer3. rewrite zip_with_map_same.
  apply list_fmap_ext; intros _ a _. apply zip2_outer.
Qed.

Lemma map3_outer {A B C D E} (f : D -> E) (g : A -> B -> C -> D)
    (xs : list A) (ys : list B) (zs : list C) :
  map3 f (outer3 g xs ys zs) = outer3 (fun a b c => f (g a b c)) xs ys zs.
Proof.
  unfold map3, outer3. rewrite map_map.
  apply list_fmap_ext; intros _ a _. apply map2_outer.
Qed.

Lemma outer3_ext {A B C D} (f g : A -> B -> C -> D)
    (xs : list A) (ys : list B) (zs : list C) :
  (forall a b c, a ∈ xs -> b ∈ ys -> c ∈ zs -> f a b c = g a b c) ->
  outer3 f xs ys zs = outer3 g xs ys zs.
Proof.
  intros H. unfold outer3. apply list_fmap_ext; intros i a Ha.
  apply outer2_ext. intros b c Hb Hc. apply H; [|done|done].
  by eapply list_elem_of_lookup_2.
Qed.

Lemma nth_map_seq {A} (f : nat -> A) (d : A) (n i : nat) :
  i < n -> nth i (map f (seq 0 n)) d = f i.
Proof.
  intros H. rewrite nth_lookup, list_lookup_fmap, lookup_seq_lt by done. done.
Qed.

Lemma nth_outer2_seq {A} (f : nat -> nat -> A) (d : A) (n m i j : nat) :
  i < n -> j < m ->
  nth j (nth i (outer2 f (seq 0 n) (seq 0 m)) []) d = f i j.
Proof. intros Hi Hj. unfold outer2. by rewrite nth_map_seq, nth_map_seq. Qed.

Lemma nth_outer3_seq {A} (f : nat -> nat -> nat -> A) (d : A) (n m l i j k : nat) :
  i < n -> j < m -> k < l ->
  nth k (nth j (nth i (outer3 f (seq 0 n) (seq 0 m) (seq 0 l)) []) []) d = f i j k.
Proof.
  intros Hi Hj Hk. unfold outer3. rewrite nth_map_seq by done.
  by apply nth_outer2_seq.
Qed.

(** ** Matrix products of tables *)

Lemma s_sum_ext {S} `{Scalar S} {A} (f g : A -> S) (l : list A) :
  (forall a, a ∈ l -> f a = g a) -> s_sum (map f l) = s_sum (map g l).
Proof.
  intros Hfg. f_equal. apply list_fmap_ext. intros i a Ha. apply Hfg.
  by eapply list_elem_of_lookup_2.
Qed.

(** Over the reals the element arithmetic is that of [R]. *)
Ltac Rscalar :=
  change (@s_sum R R_scalar) with Rsum in *;
  change (@s_add R R_scalar) with Rplus in *;
  change (@s_mul R R_scalar) with Rmult in *;
  change (@s_zero R R_scalar) with 0%R in *.

Lemma dot2_outer {S} `{Scalar S} {A B} (fa : A -> B -> S) (fb : B -> nat -> S)
    (ms : list A) (ks : list B) (n : nat) :
  ks <> [] ->
  dot2 (outer2 fa ms ks) (outer2 fb ks (seq 0 n))
  = outer2 (fun m j => s_sum (map (fun k => s_mul (fa m k) (fb k j)) ks)) ms (seq 0 n).
Proof.
  intros Hks. unfold dot2.
  replace (length (hd [] (outer2 fb ks (seq 0 n)))) with n.
  2:{ destruct ks; [done|]. simpl. by rewrite length_map, length_seq. }
  unfold outer2. rewrite map_map.
  apply list_fmap_ext; intros _ m _. cbv beta.
  apply list_fmap_ext; intros ? j Hj. cbv beta.
  apply lookup_seq in Hj as [-> Hj].
  rewrite zip_with_map_same. apply s_sum_ext. intros k _.
  by rewrite nth_map_seq.
Qed.

Lemma Rsum_zip_with (f : R -> list R -> R) (l1 : list R) (l2 : list (list R)) (n : nat) :
  length l1 = n -> length l2 = n ->
  Rsum (zip_with f l1 l2)
  = Rsum (map (fun i => f (nth i l1 0%R) (nth i l2 [])) (seq 0 n)).
Proof.
  revert l2 n. induction l1 as [|a l1 IH]; intros [|b l2] n H1 H2; simpl in *;
    subst n; try done.
  simpl. rewrite <- seq_shift, map_map. simpl. f_equal. apply IH; lia.
Qed.


Lemma flat_idx2_lt (a b n m : nat) : a < n -> b < m -> a * m + b < n * m.
Proof. nia. Qed.

Lemma flat_idx3_lt (a b c n m l : nat) :
  a < n -> b < m -> c < l -> a * m * l + b * l + c < n * m * l.
Proof.
  intros Ha Hb Hc. pose proof (flat_idx2_lt a b n m Ha Hb).
  pose proof (flat_idx2_lt (a * m + b) c (n * m) l ltac:(done) Hc). lia.
Qed.

Lemma shape2_table {A} (d : A) (r c : nat) (t : list (list A)) :
  shape2 r c t ->
  t = outer2 (fun i j => nth j (nth i t []) d) (seq 0 r) (seq 0 c).
Proof.
  intros [<- H]. unfold outer2.
  rewrite (map_nth_seq (fun row => map (fun j => nth j row d) (seq 0 c)) []).
  rewrite <- (map_id t) at 1. apply map_ext_Forall.
  eapply Forall_impl; [exact H|]. intros row <-. simpl.
  by rewrite (map_nth_seq (fun a => a) d), map_id.
Qed.

Lemma shape3_table {A} (d : A) (n r c : nat) (t : list (list (list A))) :
  shape3 n r c t ->
  t = outer3 (fun b i j => nth j (nth i (nth b t []) []) d)
             (seq 0 n) (seq 0 r) (seq 0 c).
Proof.
  intros [<- H]. unfold outer3.
  rewrite (map_nth_seq
             (fun m => outer2 (fun i j => nth j (nth i m []) d) (seq 0 r) (seq 0 c)) []).
  rewrite <- (map_id t) at 1. apply map_ext_Forall.
  eapply Forall_impl; [exact H|]. intros m Hm. simpl.
  by apply shape2_table.
Qed.

Lemma shape2_outer {A B C} (f : A -> B -> C) (xs : list A) (ys : list B) :
  shape2 (length xs) (length ys) (outer2 f xs ys).
Proof.
  unfold outer2. split; [by rewrite length_map|].
  apply Forall_forall. intros row Hrow.
  apply list_elem_of_fmap in Hrow as (a & -> & _). by rewrite length_map.
Qed.

Lemma shape3_outer {A B C D} (f : A -> B -> C -> D)
    (xs : list A) (ys : list B) (zs : list C) :
  shape3 (length xs) (length ys) (length zs) (outer3 f xs ys zs).
Proof.
  unfold outer3. split; [by rewrite length_map|].
  apply Forall_forall. intros m Hm.
  apply list_elem_of_fmap in Hm as (a & -> & _). apply shape2_outer.
Qed.

Lemma split_idx3 (q n m l : nat) :
  q < n * m * l ->
  exists a b c, a < n /\ b < m /\ c < l /\ q = a * m * l + b * l + c.
Proof.
  intros Hq. assert (0 < l) by nia. assert (0 < m) by nia.
  exists (q / l / m), (q / l mod m), (q mod l).
  pose proof (Nat.div_mod q l ltac:(lia)).
  pose proof (Nat.mod_upper_bound q l ltac:(lia)).
  pose proof (Nat.div_mod (q / l) m ltac:(lia)).
  pose proof (Nat.mod_upper_bound (q / l) m ltac:(lia)).
  assert (q / l < n * m) by (apply Nat.Div0.div_lt_upper_bound; lia).
  assert (q / l / m < n) by (apply Nat.Div0.div_lt_upper_bound; lia).
  split; [done|]. split; [done|]. split; [done|]. nia.
Qed.

Lemma split_block (i n b : nat) :
  0 < b -> i < n ->
  i / b < cdiv n b /\ i mod b < b /\ i / b * b + i mod b = i.
Proof.
  intros Hb Hi. split; [by apply div_lt_cdiv|].
  pose proof (Nat.div_mod i b ltac:(lia)).
  pose proof (Nat.mod_upper_bound i b ltac:(lia)). lia.
Qed.

Lemma close_refl (a : R) : close a a.
Proof.
  unfold close, atol, rtol. replace (a - a)%R with 0%R by lra.
  rewrite Rabs_R0. pose proof (Rabs_pos a). lra.
Qed.

Lemma Forall2_close_refl (l : list R) : Forall2 close l l.
Proof. induction l; constructor; [apply close_refl|done]. Qed.

(** The reference product as a table. *)
Lemma dot_spec_table (N0 N1 N2 MID : nat) (x y : list (list (list R))) :
  shape3 N2 N1 MID x -> shape3 N2 MID N0 y -> 0 < MID ->
  dot_spec x y
  = outer3 (fun b m n =>
              Rsum (map (fun l => (nth l (nth m (nth b x []) []) 0
                                   * nth n (nth l (nth b y []) []) 0)%R)
                        (seq 0 MID)))
           (seq 0 N2) (seq 0 N1) (seq 0 N0).
Proof.
  intros Hx Hy HM. unfold dot_spec, dot3.
  rewrite (shape3_table 0%R _ _ _ x Hx) at 1.
  rewrite (shape3_table 0%R _ _ _ y Hy) at 1.
  unfold outer3. rewrite zip_with_map_same.
  apply list_fmap_ext; intros _ b _.
  rewrite dot2_outer by (destruct MID; [lia|done]). reflexivity.
Qed.

(** ** Puzzle 11: the tiled matrix product *)

Section DotProof.
Context {A : Type} `{Scalar A}.
Variables (x y : list (list (list A))).
Variables (N0 N1 N2 MID B0 B1 B2 B_MID : nat).
Hypothesis Hx : shape3 N2 N1 MID x.
Hypothesis Hy : shape3 N2 MID N0 y.
Hypothesis HBM : 0 < B_MID.
Variable (p : pid).

Local Abbreviation gb ib := (program_id 2 p * B2 + ib).
Local Abbreviation gm im := (program_id 1 p * B1 + im).
Local Abbreviation gn jn := (program_id 0 p * B0 + jn).
Local Abbreviation dot_entry_A := (dot_entry_A x N1 N2 MID B1 B2 p).
Local Abbreviation dot_entry_B := (dot_entry_B y N0 N2 MID B0 B2 p).
Local Abbreviation dot_table_A := (dot_table_A x N1 N2 MID B1 B2 B_MID p).
Local Abbreviation dot_table_B := (dot_table_B y N0 N2 MID B0 B2 B_MID p).
Local Abbreviation dot_acc := (dot_acc x y N0 N1 N2 MID B0 B1 B2 B_MID p).
Local Abbreviation dot_writes := (dot_writes x y N0 N1 N2 MID B0 B1 B2 B_MID p).

Lemma dot_tile_A_ok (k : nat) :
dot_tile_A (flat3 x) N1 N2 MID B1 B2 B_MID p k = Ok (dot_table_A k).
Proof using Hx.
unfold dot_tile_A, arange. rewrite !Nat.sub_0_r, !map_map.
rewrite !(bcast3_12 (seq 0 B2) (seq 0 B1) (seq 0 B_MID)) by apply length_seq.
rewrite !(bcast3_02 (seq 0 B2) (seq 0 B1) (seq 0 B_MID)) by apply length_seq.
rewrite !(bcast3_01 (seq 0 B2) (seq 0 B1) (seq 0 B_MID)) by apply length_seq.
rewrite !map3_outer, !zip3_outer. rewrite load3_outer; [done|].
intros ib im ik _ _ _ Hm.
apply andb_true_iff in Hm as [Hm H3]. apply andb_true_iff in Hm as [H1 H2].
apply Nat.ltb_lt in H1, H2, H3.
rewrite (length_flat3 N2 N1 MID) by done. by apply flat_idx3_lt.
Qed.

Lemma dot_tile_B_ok (k : nat) :
dot_tile_B (flat3 y) N0 N2 MID B0 B2 B_MID p k = Ok (dot_table_B k).
Proof using Hy.
unfold dot_tile_B, arange. rewrite !Nat.sub_0_r, !map_map.
rewrite !(bcast3_12 (seq 0 B2) (seq 0 B_MID) (seq 0 B0)) by apply length_seq.
rewrite !(bcast3_02 (seq 0 B2) (seq 0 B_MID) (seq 0 B0)) by apply length_seq.
rewrite !(bcast3_01 (seq 0 B2) (seq 0 B_MID) (seq 0 B0)) by apply length_seq.
rewrite !map3_outer, !zip3_outer. rewrite load3_outer; [done|].
intros ib ik jn _ _ _ Hm.
apply andb_true_iff in Hm as [Hm H3]. apply andb_true_iff in Hm as [H1 H2].
apply Nat.ltb_lt in H1, H2, H3.
rewrite (length_flat3 N2 MID N0) by done. by apply flat_idx3_lt.
Qed.
Lemma dot3_tables (k : nat) :
dot3 (dot_table_A k) (dot_table_B k)
= outer3 (fun ib im jn =>
s_sum (map (fun ik => s_mul (dot_entry_A k ib im ik) (dot_entry_B k ib ik jn))
(seq 0 B_MID)))
 (seq 0 B2) (seq 0 B1) (seq 0 B0).
Proof using HBM.
unfold dot3, dot_table_A, dot_table_B, outer3. rewrite zip_with_map_same.
apply list_fmap_ext; intros _ ib _. apply dot2_outer.
destruct B_MID; [lia|done].
Qed.

Lemma dot_kernel_ok :
dot_kernel (flat3 x) (flat3 y) N0 N1 N2 MID B0 B1 B2 B_MID p = Ok dot_writes.
Proof using Hx Hy HBM.
unfold dot_kernel.
edestruct (foldR_inv
(fun tile k =>
 A ← dot_tile_A (flat3 x) N1 N2 MID B1 B2 B_MID p k;
 B ← dot_tile_B (flat3 y) N0 N2 MID B0 B2 B_MID p k;
 Ok (zip3 s_add tile (dot3 A B)))
(fun n tile => tile = outer3 (dot_acc n) (seq 0 B2) (seq 0 B1) (seq 0 B0))
(tl_range 0 MID B_MID)
(replicate B2 (replicate B1 (replicate B0 s_zero)))) as (tile & E & Ht).
- unfold outer3, outer2. by rewrite !(replicate_seq _ 0).
- intros n k tile Hk ->. apply lookup_tl_range in Hk as [-> Hn].
rewrite Nat.add_0_l, dot_tile_A_ok, bind_Ok, dot_tile_B_ok, bind_Ok.
eexists. split; [done|]. rewrite dot3_tables, zip3_outer.
apply outer3_ext. intros ib im jn _ _ _. reflexivity.
- rewrite E, bind_Ok. subst tile. rewrite length_tl_range, Nat.sub_0_r.
unfold arange. rewrite !Nat.sub_0_r, !map_map.
rewrite !(bcast3_12 (seq 0 B2) (seq 0 B1) (seq 0 B0)) by apply length_seq.
rewrite !(bcast3_02 (seq 0 B2) (seq 0 B1) (seq 0 B0)) by apply length_seq.
rewrite !(bcast3_01 (seq 0 B2) (seq 0 B1) (seq 0 B0)) by apply length_seq.
by rewrite !map3_outer, !zip3_outer.
Qed.
Lemma dot_acc_stream (n ib im jn : nat) :
gb ib < N2 -> gm im < N1 -> gn jn < N0 ->
dot_acc n ib im jn = dot_stream x y MID B_MID n (gb ib) (gm im) (gn jn).
Proof using Hx Hy HBM.
intros Hb Hm Hn. induction n as [|n IH]; [done|].
cbn [dot_acc dot_stream]. rewrite IH. f_equal.
unfold dot_chunk, dot_stream_chunk. apply s_sum_ext. intros ik _. cbv zeta.
unfold dot_entry_A, dot_entry_B.
destruct (Nat.ltb_spec (gb ib) N2); [|lia].
destruct (Nat.ltb_spec (gm im) N1); [|lia].
destruct (Nat.ltb_spec (gn jn) N0); [|lia].
destruct (Nat.ltb_spec (n * B_MID + ik) MID); cbn [andb]; [|done].
by rewrite (nth_flat3 N2 N1 MID), (nth_flat3 N2 MID N0).
Qed.

Lemma dot_writes_sound (w : write A) :
w ∈ dot_writes ->
w.1 < N2 * N1 * N0
/\ w.2 = nth w.1
           (flat3 (outer3 (dot_stream x y MID B_MID (cdiv MID B_MID))
                          (seq 0 N2) (seq 0 N1) (seq 0 N0)))
           s_zero.
Proof using Hx Hy HBM.
unfold dot_writes. intros Hw.
apply elem_of_store3_outer in Hw as (ib & im & jn & _ & _ & _ & Hm & ->).
apply andb_true_iff in Hm as [Hm H3]. apply andb_true_iff in Hm as [H1 H2].
apply Nat.ltb_lt in H1, H2, H3. simpl.
split; [by apply flat_idx3_lt|].
rewrite dot_acc_stream by done.
rewrite (nth_flat3 N2 N1 N0).
- by rewrite nth_outer3_seq.
- pose proof (shape3_outer (dot_stream x y MID B_MID (cdiv MID B_MID))
                (seq 0 N2) (seq 0 N1) (seq 0 N0)) as Hs.
  by rewrite !length_seq in Hs.
- done.
- done.
Qed.

Lemma dot_writes_cover (ib im jn : nat) :
ib < B2 -> im < B1 -> jn < B0 -> gb ib < N2 -> gm im < N1 -> gn jn < N0 ->
exists w, w ∈ dot_writes /\ w.1 = gb ib * N1 * N0 + gm im * N0 + gn jn.
Proof using Hx Hy HBM.
intros. eexists. split.
- unfold dot_writes. apply elem_of_store3_outer.
exists ib, im, jn. rewrite !elem_of_seq.
split; [lia|]. split; [lia|]. split; [lia|]. split; [|done].
rewrite !andb_true_iff, !Nat.ltb_lt. done.
- done.
Qed.
End DotProof.

(** The launch of the tiled product, over any element arithmetic: every
    cell holds its contraction, added chunk after chunk. *)
Lemma run_dot_stream {A} `{Scalar A} (N0 N1 N2 MID B0 B1 B2 B_MID : nat)
    (x y : list (list (list A))) (z : list A) :
  shape3 N2 N1 MID x -> shape3 N2 MID N0 y ->
  0 < B0 -> 0 < B1 -> 0 < B2 -> 0 < B_MID ->
  length z = N2 * N1 * N0 ->
  run_dot N0 N1 N2 MID B0 B1 B2 B_MID x y z
  = Ok (flat3 (outer3 (dot_stream x y MID B_MID (cdiv MID B_MID))
                      (seq 0 N2) (seq 0 N1) (seq 0 N0))).
Proof.
  intros Hx Hy HB0 HB1 HB2 HBM Hz. unfold run_dot.
  set (T := outer3 (dot_stream x y MID B_MID (cdiv MID B_MID))
                   (seq 0 N2) (seq 0 N1) (seq 0 N0)).
  assert (HT : length (flat3 T) = N2 * N1 * N0).
  { apply length_flat3. pose proof (shape3_outer
      (dot_stream x y MID B_MID (cdiv MID B_MID)) (seq 0 N2) (seq 0 N1) (seq 0 N0)) as Hs.
    by rewrite !length_seq in Hs. }
  rewrite (launch_table _ _ _ _ (dot_writes x y N0 N1 N2 MID B0 B1 B2 B_MID)
             (fun q => nth q (flat3 T) s_zero)).
  - f_equal. replace (length z) with (length (flat3 T)) by lia.
    by rewrite (map_nth_seq (fun a => a) s_zero), map_id.
  - intros c _. by apply dot_kernel_ok.
  - intros c w _ Hw. rewrite Hz.
    by apply (dot_writes_sound x y _ _ _ _ B0 B1 B2 B_MID) in Hw.
  - intros q Hq. rewrite Hz in Hq.
    destruct (split_idx3 q N2 N1 N0 Hq) as (b & m & n & Hb & Hm & Hn & ->).
    destruct (split_block n N0 B0 HB0 Hn) as (Hn1 & Hn2 & Hn3).
    destruct (split_block m N1 B1 HB1 Hm) as (Hm1 & Hm2 & Hm3).
    destruct (split_block b N2 B2 HB2 Hb) as (Hb1 & Hb2 & Hb3).
    exists (n / B0, m / B1, b / B2).
    destruct (dot_writes_cover x y N0 N1 N2 MID B0 B1 B2 B_MID Hx Hy HBM
                (n / B0, m / B1, b / B2)
                (b mod B2) (m mod B1) (n mod B0)) as (w & Hw & Ew);
      cbn [program_id fst snd]; try lia.
    exists w. split; [by apply elem_of_grid_cells|]. split; [done|].
    rewrite Ew. cbn [program_id fst snd]. rewrite Hn3, Hm3, Hb3. done.
Qed.

(** Over the reals the chunks add up to the whole contraction. *)
Lemma dot_stream_Rsum (x y : list (list (list R))) (MID B_MID n b m j : nat) :
  dot_stream x y MID B_MID n b m j
  = Rsum (map (fun c =>
                 Rsum (map (fun ik =>
                              if c * B_MID + ik <? MID
                              then (nth (c * B_MID + ik) (nth m (nth b x []) []) 0
                                    * nth j (nth (c * B_MID + ik) (nth b y []) []) 0)%R
                              else 0%R)
                           (seq 0 B_MID)))
            (seq 0 n)).
Proof.
  induction n as [|n IH]; [done|].
  rewrite seq_S, map_app, Rsum_app. cbn [dot_stream]. Rscalar. rewrite IH.
  f_equal. simpl. rewrite Rplus_0_r. unfold dot_stream_chunk. Rscalar.
  apply Rsum_ext. intros ik _. cbv zeta.
  destruct (n * B_MID + ik <? MID); lra.
Qed.

Lemma dot_stream_spec (N0 N1 N2 MID B_MID : nat) (x y : list (list (list R))) :
  shape3 N2 N1 MID x -> shape3 N2 MID N0 y -> 0 < B_MID -> 0 < MID ->
  outer3 (dot_stream x y MID B_MID (cdiv MID B_MID)) (seq 0 N2) (seq 0 N1) (seq 0 N0)
  = dot_spec x y.
Proof.
  intros Hx Hy HBM HMID. rewrite (dot_spec_table N0 N1 N2 MID) by done.
  apply outer3_ext. intros b m n _ _ _. rewrite dot_stream_Rsum.
  by rewrite (Rsum_stream
                (fun l => (nth l (nth m (nth b x []) []) 0
                           * nth n (nth l (nth b y []) []) 0)%R)).
Qed.

(** The launch of the tiled product leaves exactly the reference product. *)
Lemma run_dot_spec (N0 N1 N2 MID B0 B1 B2 B_MID : nat)
    (x y : list (list (list R))) (z : list R) :
  shape3 N2 N1 MID x -> shape3 N2 MID N0 y ->
  0 < B0 -> 0 < B1 -> 0 < B2 -> 0 < B_MID -> 0 < MID ->
  length z = N2 * N1 * N0 ->
  run_dot N0 N1 N2 MID B0 B1 B2 B_MID x y z = Ok (flat3 (dot_spec x y)).
Proof.
  intros Hx Hy HB0 HB1 HB2 HBM HMID Hz.
  rewrite run_dot_stream by done. by rewrite (dot_stream_spec N0 N1 N2).
Qed.

(** The operand tiles are zero outside the bounds. *)
Lemma dot_tiles_zero_fill {A} `{Scalar A} (N0 N1 N2 MID B0 B1 B2 B_MID : nat)
    (x y : list (list (list A))) (p : pid) (k : nat) :
  shape3 N2 N1 MID x -> shape3 N2 MID N0 y ->
  exists TA TB,
    dot_tile_A (flat3 x) N1 N2 MID B1 B2 B_MID p k = Ok TA
    /\ dot_tile_B (flat3 y) N0 N2 MID B0 B2 B_MID p k = Ok TB
    /\ forall ib im ik jn, ib < B2 -> im < B1 -> ik < B_MID -> jn < B0 ->
       (~ (program_id 2 p * B2 + ib < N2 /\ program_id 1 p * B1 + im < N1
           /\ k + ik < MID) ->
        nth ik (nth im (nth ib TA []) []) s_zero = s_zero)
       /\ (~ (program_id 2 p * B2 + ib < N2 /\ k + ik < MID
              /\ program_id 0 p * B0 + jn < N0) ->
           nth jn (nth ik (nth ib TB []) []) s_zero = s_zero).
Proof.
  intros Hx Hy. eexists _, _.
  split; [by apply dot_tile_A_ok|]. split; [by apply dot_tile_B_ok|].
  intros ib im ik jn Hib Him Hik Hjn. unfold dot_table_A, dot_table_B.
  rewrite !nth_outer3_seq by done. unfold dot_entry_A, dot_entry_B. split.
  - intros Hout.
    destruct (Nat.ltb_spec (program_id 2 p * B2 + ib) N2); [|done].
    destruct (Nat.ltb_spec (program_id 1 p * B1 + im) N1); [|done].
    destruct (Nat.ltb_spec (k + ik) MID); [|done]. tauto.
  - intros Hout.
    destruct (Nat.ltb_spec (program_id 2 p * B2 + ib) N2); [|done].
    destruct (Nat.ltb_spec (k + ik) MID); [|done].
    destruct (Nat.ltb_spec (program_id 0 p * B0 + jn) N0); [|done]. tauto.
Qed.

(** C1, as the code has it: for all operands of shapes [N2 x N1 x MID] and
    [N2 x MID x N0] and all positive block sizes, dividing the extents or
    not, the tiled kernel runs without fault, in any element arithmetic
    (float32 included), and its output cell [(b, m, n)] holds the
    contraction added chunk after chunk of [B_MID] products, whatever
    [B0], [B1], [B2]; every operand tile position outside the row,
    column, batch or contraction range is loaded as zero.  In exact
    arithmetic, for a contraction axis that is not empty, this output is
    the reference product, hence within the harness tolerance of it.
    (Nested lists do not carry [N0] when [MID = 0]; the first part then
    gives the zero tensor.) *)
Theorem dot_kernel_correct (N0 N1 N2 MID B0 B1 B2 B_MID : nat) :
  0 < B0 -> 0 < B1 -> 0 < B2 -> 0 < B_MID ->
  (forall (A : Type) (SA : Scalar A) (x y : list (list (list A))) (z : list A),
     shape3 N2 N1 MID x -> shape3 N2 MID N0 y -> length z = N2 * N1 * N0 ->
     run_dot N0 N1 N2 MID B0 B1 B2 B_MID x y z
     = Ok (flat3 (outer3 (dot_stream x y MID B_MID (cdiv MID B_MID))
                         (seq 0 N2) (seq 0 N1) (seq 0 N0)))
     /\ (forall (p : pid) (k : nat),
         exists TA TB,
           dot_tile_A (flat3 x) N1 N2 MID B1 B2 B_MID p k = Ok TA
           /\ dot_tile_B (flat3 y) N0 N2 MID B0 B2 B_MID p k = Ok TB
           /\ forall ib im ik jn, ib < B2 -> im < B1 -> ik < B_MID -> jn < B0 ->
              (~ (program_id 2 p * B2 + ib < N2 /\ program_id 1 p * B1 + im < N1
                  /\ k + ik < MID) ->
               nth ik (nth im (nth ib TA []) []) s_zero = s_zero)
              /\ (~ (program_id 2 p * B2 + ib < N2 /\ k + ik < MID
                     /\ program_id 0 p * B0 + jn < N0) ->
                  nth jn (nth ik (nth ib TB []) []) s_zero = s_zero)))
  /\ (forall (x y : list (list (list R))) (z : list R),
        shape3 N2 N1 MID x -> shape3 N2 MID N0 y -> length z = N2 * N1 * N0 ->
        0 < MID ->
        exists out,
          run_dot N0 N1 N2 MID B0 B1 B2 B_MID x y z = Ok out
          /\ out = flat3 (dot_spec x y)
          /\ Forall2 close out (flat3 (dot_spec x y))).
Proof.
  intros HB0 HB1 HB2 HBM. split.
  - intros A SA x y z Hx Hy Hz. split; [by apply run_dot_stream|].
    intros p k. by apply dot_tiles_zero_fill.
  - intros x y z Hx Hy Hz HMID. exists (flat3 (dot_spec x y)).
    split; [by apply run_dot_spec|]. split; [done|]. apply Forall2_close_refl.
Qed.

Lemma dot_kernel_correct_witness :
  exists out,
    run_dot 20 24 3 40 16 16 2 16
      (replicate 3 (replicate 24 (replicate 40 1%R)))
      (replicate 3 (replicate 40 (replicate 20 2%R))) (replicate 1440 0%R)
    = Ok out
    /\ out = flat3 (dot_spec (replicate 3 (replicate 24 (replicate 40 1%R)))
                             (replicate 3 (replicate 40 (replicate 20 2%R))))
    /\ Forall2 close out
         (flat3 (dot_spec (replicate 3 (replicate 24 (replicate 40 1%R)))
                          (replicate 3 (replicate 40 (replicate 20 2%R))))).
Proof.
  apply (dot_kernel_correct 20 24 3 40 16 16 2 16); [lia|lia|lia|lia| | |reflexivity|lia].
  - split; [reflexivity|]. repeat constructor.
  - split; [reflexivity|]. repeat constructor.
Defined.

Lemma lookup_of_nth {A} (l : list A) (i : nat) (d a : A) :
  i < length l -> nth i l d = a -> l !! i = Some a.
Proof.
  intros Hi E. destruct (lookup_lt_is_Some_2 l i Hi) as [b Hb].
  rewrite (nth_lookup_Some _ _ d _ Hb) in E. by subst.
Qed.

(** C1 as stated fails in float32, at the sizes of the harness: with
    [x[b,0,0] = 2^127], [x[b,0,16] = -2^127] and [y = 2] everywhere the
    product of the first chunk overflows to [+inf] and that of the second
    to [-inf], so the accumulator of [dot_kernel] ends as
    [inf + (-inf) = NaN], which is within tolerance of no value.  The
    other products of row 0 are zero, so the order inside one [tl.dot]
    plays no part. *)
Lemma dot_kernel_overflow :
  let zero := S754_zero false in
  let row := [b32_of_Z (2 ^ 127)] ++ replicate 15 zero
             ++ [b32_of_Z (- 2 ^ 127)] ++ replicate 15 zero in
  let x := replicate 4 (row :: replicate 31 (replicate 32 zero)) in
  let y := replicate 4 (replicate 32 (replicate 32 (b32_of_Z 2))) in
  exists out,
    run_dot 32 32 4 32 16 16 1 16 x y (replicate 4096 zero) = Ok out
    /\ out !! 0 = Some S754_nan
    /\ (forall b, b32_close S754_nan b = false)
    /\ ~ Forall2 (fun a b => b32_close a b = true) out (flat3 (dot_spec x y)).
Proof.
  intros zero row x y.
  assert (Hx : shape3 4 32 32 x) by (split; [reflexivity|]; repeat constructor).
  assert (Hy : shape3 4 32 32 y) by (split; [reflexivity|]; repeat constructor).
  eexists. split.
  { apply (run_dot_stream 32 32 4 32 16 16 1 16 x y); [exact Hx|exact Hy|lia|lia|lia|lia|reflexivity]. }
  set (T := outer3 _ _ _ _).
  assert (H0 : flat3 T !! 0 = Some S754_nan).
  { assert (HT : shape3 4 32 32 T).
    { pose proof (shape3_outer (dot_stream x y 32 16 (cdiv 32 16))
                    (seq 0 4) (seq 0 32) (seq 0 32)) as Hs.
      rewrite !length_seq in Hs. exact Hs. }
    pose proof (nth_flat3 4 32 32 T s_zero 0 0 0 HT ltac:(lia) ltac:(lia)) as E.
    change (0 * 32 * 32 + 0 * 32 + 0) with 0 in E.
    subst T. rewrite nth_outer3_seq in E by lia.
    apply lookup_of_nth with (d := s_zero).
    - rewrite (length_flat3 4 32 32) by exact HT. lia.
    - rewrite E. vm_compute. reflexivity. }
  split; [exact H0|]. split; [by intros []|].
  intros HF. destruct (flat3 T) as [|a l]; [discriminate H0|].
  injection H0 as ->. apply Forall2_cons_inv_l in HF as (b & k' & Hc & _ & _).
  by destruct b.
Qed.


(** ** Loops that only emit writes *)

Lemma foldR_append {A B} (step : list B -> A -> result (list B)) (W : A -> list B)
    (l : list A) (ws0 : list B) :
  (forall ws a, a ∈ l -> step ws a = Ok (ws ++ W a)) ->
  foldR step ws0 l = Ok (ws0 ++ concat (map W l)).
Proof.
  revert ws0. induction l as [|a l IH]; intros ws0 H; simpl.
  - by rewrite app_nil_r.
  - rewrite H by (apply elem_of_cons; by left). rewrite bind_Ok.
    rewrite IH by (intros ws b Hb; apply H; apply elem_of_cons; by right).
    by rewrite <- app_assoc.
Qed.

Lemma tl_range_unit (n : nat) : tl_range 0 n 1 = seq 0 n.
Proof.
  unfold tl_range, cdiv. rewrite Nat.sub_0_r, Nat.add_sub, Nat.div_1_r.
  rewrite <- (map_id (seq 0 n)) at 2. apply map_ext. intros c. lia.
Qed.

Lemma arange_span {A} (f : nat -> A) (lo n : nat) :
  map f (arange lo (lo + n)) = map (fun j => f (lo + j)) (seq 0 n).
Proof. unfold arange. rewrite Nat.add_sub'. apply map_seq_add. Qed.

Lemma concat_omap_prod {A B C} (F : A -> B -> option C) (xs : list A) (ys : list B) :
  concat (map (fun a => omap (F a) ys) xs)
  = omap (fun t => F t.1 t.2) (list_prod xs ys).
Proof.
  induction xs as [|a xs IH]; simpl; [done|].
  rewrite IH, omap_app. f_equal. clear IH.
  induction ys as [|b ys IHy]; [done|]. cbn in *. rewrite IHy. reflexivity.
Qed.

Lemma NoDup_list_prod {A B} (xs : list A) (ys : list B) :
  NoDup xs -> NoDup ys -> NoDup (list_prod xs ys).
Proof.
  intros Hx Hy. induction Hx as [|a xs Ha Hx IH]; simpl; [constructor|].
  apply NoDup_app. split; [|split; [|done]].
  - apply NoDup_fmap_2; [|done]. by intros b1 b2 [=].
  - intros [a' b] H1 H2. apply list_elem_of_fmap in H1 as (b' & [= -> ->] & _).
    apply elem_of_list_prod in H2 as [H2 _]. done.
Qed.

(** ** Counting the writes to a cell *)

Lemma filter_omap_none {T V} (F : T -> option (nat * V)) (E : list T) (q : nat) :
  (forall t v, t ∈ E -> F t <> Some (q, v)) ->
  filter (fun w : nat * V => w.1 = q) (omap F E) = [].
Proof.
  induction E as [|t E IH]; intros H; [done|]. cbn.
  destruct (F t) as [[q' v]|] eqn:Et.
  - rewrite filter_cons_False.
    + apply IH. intros t' v' Ht'. apply H. apply elem_of_cons; by right.
    + simpl. intros ->. apply (H t v); [apply elem_of_cons; by left|done].
  - apply IH. intros t' v' Ht'. apply H. apply elem_of_cons; by right.
Qed.

Lemma omap_count_once {T V} (F : T -> option (nat * V)) (E : list T) (q : nat) (t0 : T) :
  NoDup E -> t0 ∈ E ->
  (exists v, F t0 = Some (q, v)) ->
  (forall t v, t ∈ E -> F t = Some (q, v) -> t = t0) ->
  length (filter (fun w : nat * V => w.1 = q) (omap F E)) = 1.
Proof.
  intros Hnd. induction Hnd as [|t E Ht Hnd IH]; intros H0 [v0 Hv0] Huniq.
  - by apply elem_of_nil in H0.
  - cbn. apply elem_of_cons in H0 as [->|H0].
    + rewrite Hv0. rewrite filter_cons_True by done. simpl. f_equal.
      rewrite filter_omap_none; [done|].
      intros t' v' Ht' E'. apply Ht.
      rewrite <- (Huniq t' v'); [done| |done]. apply elem_of_cons; by right.
    + destruct (F t) as [[q' v]|] eqn:Et.
      * rewrite filter_cons_False.
        -- apply IH; [done|eauto|].
           intros t' v' Ht'. apply Huniq. apply elem_of_cons; by right.
        -- simpl. intros ->. apply Ht.
           rewrite (Huniq t v); [done| |done]. apply elem_of_cons; by left.
      * apply IH; [done|eauto|].
        intros t' v' Ht'. apply Huniq. apply elem_of_cons; by right.
Qed.

Lemma Rsum_exchange {A B} (f : A -> B -> R) (xs : list A) (ys : list B) :
  Rsum (map (fun a => Rsum (map (fun b => f a b) ys)) xs)
  = Rsum (map (fun b => Rsum (map (fun a => f a b) xs)) ys).
Proof.
  induction xs as [|a xs IH]; simpl.
  - symmetry. by apply Rsum_zero.
  - rewrite IH. symmetry. apply (Rsum_plus (fun b => f a b)).
Qed.

Lemma take_drop_map_seq {A} (f : nat -> A) (i n m : nat) :
  i + n <= m ->
  take n (drop i (map f (seq 0 m))) = map (fun j => f (i + j)) (seq 0 n).
Proof.
  intros H. rewrite <- fmap_drop, <- fmap_take, drop_seq, take_seq.
  replace (n `min` (m - i)) with n by lia. simpl. apply map_seq_add.
Qed.

Lemma grid_cells_axis0 (g : nat) :
  grid_cells g 1 1 = map (fun p0 => (p0, 0, 0)) (seq 0 g).
Proof.
  unfold grid_cells. simpl. induction (seq 0 g) as [|a l IH]; [done|].
  cbn in *. by rewrite IH.
Qed.


(** ** Puzzle 10: the convolution *)

Lemma arange_span0 (lo n : nat) :
  arange lo (lo + n) = map (fun j => lo + j) (seq 0 n).
Proof. rewrite <- (map_id (arange _ _)). apply (arange_span (fun a => a)). Qed.

Lemma bcast_rows_id {A B} (n m : nat) (xs : list A) (ys : list B) :
  length xs = n -> length ys = m ->
  broadcast_to2 n m (expand_dims_1 xs) = outer2 (fun a _ => a) xs ys.
Proof. rewrite <- (map_id xs) at 2. apply bcast_rows_n. Qed.

Lemma bcast_cols_id {A B} (n m : nat) (xs : list A) (ys : list B) :
  length xs = n -> length ys = m ->
  broadcast_to2 n m (expand_dims_0 ys) = outer2 (fun _ b => b) xs ys.
Proof. rewrite <- (map_id ys) at 2. apply bcast_cols_n. Qed.

Lemma map_all_true_outer {A B C} (f : A -> B -> C) (xs : list A) (ys : list B) :
  map all_true (outer2 f xs ys) = outer2 (fun _ _ => true) xs ys.
Proof.
  unfold outer2, all_true. rewrite map_map.
  apply list_fmap_ext; intros _ a _. simpl. by rewrite map_map.
Qed.

Lemma map2_sum_outer3 {S} `{Scalar S} {A B C} (g : A -> B -> C -> S)
    (xs : list A) (ys : list B) (zs : list C) :
  map s_sum (map2 s_sum (outer3 g xs ys zs))
  = map (fun a => s_sum (map (fun b => s_sum (map (g a b) zs)) ys)) xs.
Proof.
  unfold map2, outer3, outer2. rewrite !map_map.
  apply list_fmap_ext; intros _ a _. simpl. by rewrite map_map.
Qed.

Section ConvProof.
Context {A : Type} {SA : Scalar A}.
Variables (x : list (list (list A))) (k : list (list A)).
Variables (N0 H W KH KW B0 : nat).
Hypothesis Hx : shape3 N0 H W x.
Hypothesis Hk : shape2 KH KW k.
Variable (p : pid).

Lemma conv2d_inp_ok (h w : nat) :
conv2d_inp (flat3 x) N0 H W KH KW B0 p h w
= Ok (outer3 (conv2d_entry x N0 H W B0 p h w) (seq 0 B0) (seq 0 KH) (seq 0 KW)).
Proof using Hx.
unfold conv2d_inp. rewrite !arange_span0. unfold arange.
rewrite !Nat.sub_0_r, !map_map.
rewrite !(bcast3_12 (seq 0 B0) (seq 0 KH) (seq 0 KW)) by apply length_seq.
rewrite !(bcast3_02 (seq 0 B0) (seq 0 KH) (seq 0 KW)) by apply length_seq.
rewrite !(bcast3_01 (seq 0 B0) (seq 0 KH) (seq 0 KW)) by apply length_seq.
rewrite !map3_outer, !zip3_outer. rewrite load3_outer; [done|].
intros ib oh ow _ _ _ Hm.
apply andb_true_iff in Hm as [Hm H3]. apply andb_true_iff in Hm as [H1 H2].
apply Nat.ltb_lt in H1, H2, H3.
rewrite (length_flat3 N0 H W) by done. by apply flat_idx3_lt.
Qed.

Lemma conv2d_kernel_ok :
conv2d_kernel (flat3 x) (flat2 k) N0 H W KH KW B0 p
= Ok (conv2d_writes x k N0 H W KH KW B0 p).
Proof using Hx Hk.
unfold conv2d_kernel, arange. rewrite !Nat.sub_0_r, !map_map.
rewrite !(bcast_rows_id _ _ (seq 0 KH) (seq 0 KW)) by apply length_seq.
rewrite !(bcast_cols_id _ _ (seq 0 KH) (seq 0 KW)) by apply length_seq.
rewrite map2_outer, zip2_outer, map_all_true_outer.
rewrite load2_outer.
2:{ intros oh ow Hoh How _. apply elem_of_seq in Hoh, How.
rewrite (length_flat2 KH KW) by done.
pose proof (flat_idx2_lt oh ow KH KW). lia. }
rewrite bind_Ok, !tl_range_unit.
rewrite (foldR_append _
(fun h => omap (fun t : nat * nat => conv2d_write x k N0 H W KH KW B0 p h t.1 t.2)
 (list_prod (seq 0 W) (seq 0 B0)))).
- simpl. f_equal. unfold conv2d_writes.
by rewrite (concat_omap_prod
(fun h (t : nat * nat) => conv2d_write x k N0 H W KH KW B0 p h t.1 t.2)).
- intros ws h _.
rewrite (foldR_append _
(fun w => omap (conv2d_write x k N0 H W KH KW B0 p h w) (seq 0 B0))).
+ by rewrite (concat_omap_prod (conv2d_write x k N0 H W KH KW B0 p h)).
+ intros ws' w _. rewrite conv2d_inp_ok, bind_Ok. do 2 f_equal.
rewrite (bcast3_0 (seq 0 B0) (seq 0 KH) (seq 0 KW)) by apply length_seq.
rewrite zip3_outer, map2_sum_outer3, !map_map, store1_map.
apply omap_ext'. intros ib _. unfold conv2d_write, conv2d_val. done.
Qed.
End ConvProof.


Lemma nth_map_lt {A B} (f : A -> B) (l : list A) (d : A) (d' : B) (i : nat) :
  i < length l -> nth i (map f l) d' = f (nth i l d).
Proof.
  intros H. rewrite !nth_lookup, list_lookup_fmap.
  destruct (lookup_lt_is_Some_2 l i H) as [a ->]. done.
Qed.

Lemma nth_replicate_lt {A} (a d : A) (n i : nat) :
  i < n -> nth i (replicate n a) d = a.
Proof. intros H. by rewrite nth_lookup, lookup_replicate_2. Qed.

Lemma table_eq2 {A} (d : A) (f : nat -> nat -> A) (r c : nat) (t : list (list A)) :
  shape2 r c t ->
  (forall i j, i < r -> j < c -> nth j (nth i t []) d = f i j) ->
  t = outer2 f (seq 0 r) (seq 0 c).
Proof.
  intros Ht H. rewrite (shape2_table d r c t Ht) at 1.
  apply outer2_ext. intros i j Hi Hj. apply elem_of_seq in Hi, Hj. apply H; lia.
Qed.

(** One image, padded with [pw] zero columns and [ph] zero rows. *)
Lemma pad_image_table (H W pw ph : nat) (img : list (list R)) :
  shape2 H W img -> 0 < H ->
  map (fun row => row ++ replicate pw 0%R) img
    ++ replicate ph (replicate (length (hd [] img) + pw) 0%R)
  = outer2 (fun r c => if (r <? H) && (c <? W) then nth c (nth r img []) 0%R else 0%R)
           (seq 0 (H + ph)) (seq 0 (W + pw)).
Proof.
  intros Himg HH. pose proof Himg as [Hlen Hrows].
  assert (Hhd : length (hd [] img) = W).
  { destruct img as [|row img]; simpl in *; [lia|]. by inversion Hrows. }
  rewrite Hhd. apply (table_eq2 0%R).
  - split.
    + rewrite length_app, length_map, length_replicate. lia.
    + apply Forall_app. split.
      * apply Forall_fmap. eapply Forall_impl; [exact Hrows|].
        intros row Hr. simpl in *. rewrite length_app, length_replicate. lia.
      * apply Forall_replicate. by rewrite length_replicate.
  - intros i j Hi Hj. destruct (Nat.ltb_spec i H) as [Hi'|Hi']; simpl.
    + rewrite app_nth1 by (rewrite length_map; lia).
      rewrite (nth_map_lt _ _ []) by lia.
      assert (length (nth i img []) = W) by (by apply (shape2_nth H)).
      destruct (Nat.ltb_spec j W) as [Hj'|Hj'].
      * by rewrite app_nth1 by lia.
      * rewrite app_nth2 by lia. apply nth_replicate_lt. lia.
    + rewrite app_nth2 by (rewrite length_map; lia). rewrite length_map.
      rewrite (nth_replicate_lt _ _ ph) by lia. by apply nth_replicate_lt.
Qed.

Lemma sum_axis1_table (g : nat -> nat -> R) (kh kw : nat) :
  0 < kh ->
  Rsum (map (fun c => Rsum (map (fun row => nth c row 0%R)
                               (outer2 g (seq 0 kh) (seq 0 kw))))
            (seq 0 (length (hd [] (outer2 g (seq 0 kh) (seq 0 kw))))))
  = Rsum (map (fun oh => Rsum (map (fun ow => g oh ow) (seq 0 kw))) (seq 0 kh)).
Proof.
  intros Hkh.
  replace (length (hd [] (outer2 g (seq 0 kh) (seq 0 kw)))) with kw.
  2:{ destruct kh; [lia|]. simpl. by rewrite length_map, length_seq. }
  rewrite (Rsum_exchange (fun oh ow => g oh ow)).
  apply Rsum_ext. intros c Hc. apply elem_of_seq in Hc.
  unfold outer2. rewrite map_map. apply Rsum_ext. intros oh _.
  apply nth_map_seq. lia.
Qed.

(** An entry of the zero-padded reference. *)
Lemma conv2d_spec_entry (x : list (list (list R))) (k : list (list R))
    (N0 H W KH KW b i j : nat) :
  shape3 N0 H W x -> shape2 KH KW k -> 0 < H -> 0 < KH ->
  b < N0 -> i < H -> j < W ->
  nth j (nth i (nth b (conv2d_spec_at H W KH KW x k) []) []) 0%R
  = Rsum (map (fun oh =>
         Rsum (map (fun ow =>
                 (nth ow (nth oh k []) 0
                  * (if (i + oh <? H) && (j + ow <? W)
                     then nth (j + ow) (nth (i + oh) (nth b x []) []) 0
                     else 0))%R)
               (seq 0 KW)))
         (seq 0 KH)).
Proof.
  intros Hx Hk HH HKH Hb Hi Hj. unfold conv2d_spec_at.
  destruct Hx as [Hlen Himgs]. rewrite Hlen.
  change (nth j (nth i (nth b (outer3 ?f (seq 0 N0) (seq 0 H) (seq 0 W)) []) []) 0%R = ?r)
    with (nth j (nth i (nth b (outer3 f (seq 0 N0) (seq 0 H) (seq 0 W)) []) []) 0%R = r).
  rewrite !nth_map_seq by done.
  unfold sum_axis1, window, pad_right_bottom. Rscalar. rewrite !map_map.
  rewrite (nth_map_lt _ _ []) by lia.
  assert (Himg : shape2 H W (nth b x [])).
  { rewrite Forall_forall in Himgs. apply Himgs. apply list_elem_of_In.
    apply nth_In. lia. }
  rewrite (pad_image_table H W KW KH) by done.
  assert (Hwin :
    zip2 Rmult k
      (map (fun row => take KW (drop j row))
         (take KH (drop i
            (outer2 (fun r c => if (r <? H) && (c <? W)
                                then nth c (nth r (nth b x []) []) 0%R else 0%R)
                    (seq 0 (H + KH)) (seq 0 (W + KW))))))
    = outer2 (fun oh ow =>
                (nth ow (nth oh k []) 0
                 * (if (i + oh <? H) && (j + ow <? W)
                    then nth (j + ow) (nth (i + oh) (nth b x []) []) 0
                    else 0))%R)
             (seq 0 KH) (seq 0 KW)).
  { rewrite <- (zip2_outer Rmult (fun oh ow => nth ow (nth oh k []) 0%R)
                  (fun oh ow => if (i + oh <? H) && (j + ow <? W)
                                then nth (j + ow) (nth (i + oh) (nth b x []) []) 0%R
                                else 0%R)).
    f_equal; [by apply shape2_table|].
    unfold outer2. rewrite take_drop_map_seq by lia. rewrite map_map.
    apply list_fmap_ext. intros _ oh _. simpl. apply take_drop_map_seq. lia. }
  rewrite Hwin. by rewrite sum_axis1_table.
Qed.

Lemma idx2_inj (a b a' b' m : nat) :
  b < m -> b' < m -> a * m + b = a' * m + b' -> a = a' /\ b = b'.
Proof.
  intros Hb Hb' E. apply (Nat.div_mod_unique m); [done|done|lia].
Qed.

Lemma idx3_inj (a b c a' b' c' m l : nat) :
  b < m -> b' < m -> c < l -> c' < l ->
  a * m * l + b * l + c = a' * m * l + b' * l + c' ->
  a = a' /\ b = b' /\ c = c'.
Proof.
  intros Hb Hb' Hc Hc' E.
  destruct (idx2_inj (a * m + b) c (a' * m + b') c' l Hc Hc' ltac:(lia)) as [E1 E2].
  destruct (idx2_inj a b a' b' m Hb Hb' E1). done.
Qed.

Lemma conv2d_spec_shape (x : list (list (list R))) (k : list (list R))
    (N0 H W KH KW : nat) :
  length x = N0 -> shape3 N0 H W (conv2d_spec_at H W KH KW x k).
Proof.
  intros <-. unfold conv2d_spec_at.
  pose proof (shape3_outer
    (fun b i j : nat =>
       nth b (map Rsum (sum_axis1 (map (fun img => zip2 Rmult k img)
                 (window i KH j KW (pad_right_bottom KW KH x))))) 0%R)
    (seq 0 (length x)) (seq 0 H) (seq 0 W)) as Hs.
  by rewrite !length_seq in Hs.
Qed.

Section ConvWrites.
Context {A : Type} {SA : Scalar A}.
Variables (x : list (list (list A))) (k : list (list A)).
Variables (N0 H W KH KW B0 : nat).
Hypothesis Hx : shape3 N0 H W x.
Hypothesis Hk : shape2 KH KW k.

(** The stored value in terms of the tensors: the window sum, row by
    row. *)
Lemma conv2d_val_rows (p : pid) (h w ib : nat) :
program_id 0 p * B0 + ib < N0 ->
conv2d_val x k N0 H W KH KW B0 p h w ib
= conv2d_rows x k H W KH KW (program_id 0 p * B0 + ib) h w.
Proof using Hx Hk.
intros Hb. unfold conv2d_val, conv2d_rows.
apply s_sum_ext. intros oh Hoh. apply s_sum_ext. intros ow How.
apply elem_of_seq in Hoh, How. unfold conv2d_entry.
destruct (Nat.ltb_spec (program_id 0 p * B0 + ib) N0); [|lia]. cbn [andb].
replace (KW * oh + ow) with (oh * KW + ow) by lia.
rewrite (nth_flat2 KH KW) by (done || lia).
destruct (Nat.ltb_spec (h + oh) H); cbn [andb]; [|done].
destruct (Nat.ltb_spec (w + ow) W); cbn [andb]; [|done].
by rewrite (nth_flat3 N0 H W).
Qed.

Lemma elem_of_conv2d_writes (p : pid) (wr : write A) :
wr ∈ conv2d_writes x k N0 H W KH KW B0 p <->
exists h w ib, h < H /\ w < W /\ ib < B0 /\ program_id 0 p * B0 + ib < N0
/\ wr = ((program_id 0 p * B0 + ib) * H * W + h * W + w,
 conv2d_val x k N0 H W KH KW B0 p h w ib).
Proof using Type.
unfold conv2d_writes. rewrite list_elem_of_omap. split.
- intros ([h [w ib]] & Ht & E). simpl in E.
apply elem_of_list_prod in Ht as [Hh Ht].
apply elem_of_list_prod in Ht as [Hw Hib].
apply elem_of_seq in Hh, Hw, Hib. unfold conv2d_write in E.
destruct (Nat.ltb_spec (program_id 0 p * B0 + ib) N0); [|done].
inversion E. exists h, w, ib. repeat split; (done || lia).
- intros (h & w & ib & Hh & Hw & Hib & Hb & ->). exists (h, (w, ib)). split.
+ rewrite !elem_of_list_prod, !elem_of_seq. lia.
+ simpl. unfold conv2d_write.
by destruct (Nat.ltb_spec (program_id 0 p * B0 + ib) N0); [|lia].
Qed.
End ConvWrites.

(** The launch of the convolution, over any element arithmetic: every
    cell holds its window sum, added row by row. *)
Lemma run_conv2d_rows {A} {SA : Scalar A} (N0 H W KH KW B0 : nat)
    (x : list (list (list A))) (k : list (list A)) (z : list A) :
  shape3 N0 H W x -> shape2 KH KW k -> 0 < B0 ->
  length z = N0 * H * W ->
  run_conv2d N0 H W KH KW B0 x k z
  = Ok (flat3 (outer3 (conv2d_rows x k H W KH KW) (seq 0 N0) (seq 0 H) (seq 0 W))).
Proof.
  intros Hx Hk HB0 Hz. unfold run_conv2d.
  set (T := outer3 (conv2d_rows x k H W KH KW) (seq 0 N0) (seq 0 H) (seq 0 W)).
  assert (HsT : shape3 N0 H W T).
  { pose proof (shape3_outer (conv2d_rows x k H W KH KW)
                  (seq 0 N0) (seq 0 H) (seq 0 W)) as Hs.
    by rewrite !length_seq in Hs. }
  rewrite (launch_table _ _ _ _ (conv2d_writes x k N0 H W KH KW B0)
             (fun q => nth q (flat3 T) s_zero)).
  - f_equal. replace (length z) with (length (flat3 T)).
    + by rewrite (map_nth_seq (fun a => a) s_zero), map_id.
    + rewrite Hz. by apply length_flat3.
  - intros c _. by apply conv2d_kernel_ok.
  - intros c w _ Hw.
    apply (elem_of_conv2d_writes x k N0 H W KH KW B0) in Hw
      as (h & w' & ib & Hh & Hw & Hib & Hb & ->).
    simpl. rewrite Hz. split; [by apply flat_idx3_lt|].
    rewrite (conv2d_val_rows x k N0 H W KH KW B0) by done.
    rewrite (nth_flat3 N0 H W) by done.
    subst T. by rewrite nth_outer3_seq.
  - intros q Hq. rewrite Hz in Hq.
    destruct (split_idx3 q N0 H W Hq) as (b & h & w & Hb & Hh & Hw & ->).
    destruct (split_block b N0 B0 HB0 Hb) as (Hb1 & Hb2 & Hb3).
    exists (b / B0, 0, 0). eexists. split; [|split].
    + apply elem_of_grid_cells. cbn [fst snd]. change (cdiv 1 1) with 1. lia.
    + apply (elem_of_conv2d_writes x k N0 H W KH KW B0).
      exists h, w, (b mod B0). cbn [program_id fst snd]. rewrite Hb3. done.
    + cbn [program_id fst snd]. by rewrite ?Hb3.
Qed.

(** Over the reals the order of the two axis sums does not matter: the
    window sums are the zero-padded reference. *)
Lemma conv2d_rows_spec (N0 H W KH KW : nat) (x : list (list (list R)))
    (k : list (list R)) :
  shape3 N0 H W x -> shape2 KH KW k -> 0 < H -> 0 < KH ->
  outer3 (conv2d_rows x k H W KH KW) (seq 0 N0) (seq 0 H) (seq 0 W)
  = conv2d_spec_at H W KH KW x k.
Proof.
  intros Hx Hk HH HKH.
  rewrite (shape3_table 0%R N0 H W (conv2d_spec_at H W KH KW x k))
    by (apply conv2d_spec_shape, Hx).
  apply outer3_ext. intros b i j Hb Hi Hj. apply elem_of_seq in Hb, Hi, Hj.
  rewrite (conv2d_spec_entry x k N0 H W KH KW) by (done || lia).
  unfold conv2d_rows. Rscalar.
  apply Rsum_ext. intros oh _. apply Rsum_ext. intros ow _. apply Rmult_comm.
Qed.

(** The launch of the convolution leaves exactly the zero-padded
    reference. *)
Lemma run_conv2d_spec (N0 H W KH KW B0 : nat) (x : list (list (list R)))
    (k : list (list R)) (z : list R) :
  shape3 N0 H W x -> shape2 KH KW k -> 0 < B0 -> 0 < H -> 0 < KH ->
  length z = N0 * H * W ->
  run_conv2d N0 H W KH KW B0 x k z = Ok (flat3 (conv2d_spec_at H W KH KW x k)).
Proof.
  intros Hx Hk HB0 HH HKH Hz.
  rewrite run_conv2d_rows by done. by rewrite (conv2d_rows_spec N0).
Qed.

(** The input tile is zero wherever the window passes the bottom or the
    right edge. *)
Lemma conv2d_inp_zero_fill {A} {SA : Scalar A} (N0 H W KH KW B0 : nat)
    (x : list (list (list A))) (p : pid) (h w : nat) :
  shape3 N0 H W x ->
  exists inp,
    conv2d_inp (flat3 x) N0 H W KH KW B0 p h w = Ok inp
    /\ forall ib oh ow, ib < B0 -> oh < KH -> ow < KW ->
       H <= h + oh \/ W <= w + ow ->
       nth ow (nth oh (nth ib inp []) []) s_zero = s_zero.
Proof.
  intros Hx. eexists. split; [by apply conv2d_inp_ok|].
  intros ib oh ow Hib Hoh How Hout. rewrite nth_outer3_seq by done.
  unfold conv2d_entry.
  destruct (Nat.ltb_spec (h + oh) H); [|by rewrite andb_false_r].
  destruct (Nat.ltb_spec (w + ow) W); [lia|by rewrite andb_false_r].
Qed.

(** Every output cell is written exactly once in the whole launch. *)
Lemma conv2d_writes_once {A} {SA : Scalar A} (N0 H W KH KW B0 : nat)
    (x : list (list (list A))) (k : list (list A)) :
  shape3 N0 H W x -> shape2 KH KW k -> 0 < B0 ->
  exists ws,
    launch_writes (cdiv N0 B0) (cdiv 1 1) (cdiv 1 1)
      (conv2d_kernel (flat3 x) (flat2 k) N0 H W KH KW B0) = Ok ws
    /\ forall q, q < N0 * H * W ->
       length (filter (fun w : write A => w.1 = q) ws) = 1.
Proof.
  intros Hx Hk HB0. unfold launch_writes.
  rewrite (mapR_ok _ (conv2d_writes x k N0 H W KH KW B0))
    by (intros c _; by apply conv2d_kernel_ok).
  rewrite bind_Ok. eexists. split; [done|]. intros q Hq.
  replace (cdiv 1 1) with 1 by done. rewrite grid_cells_axis0, map_map.
  unfold conv2d_writes.
  rewrite (concat_omap_prod
    (fun p0 (t : nat * (nat * nat)) =>
       conv2d_write x k N0 H W KH KW B0 (p0, 0, 0) t.1 t.2.1 t.2.2)).
  destruct (split_idx3 q N0 H W Hq) as (b & h & w & Hb & Hh & Hw & ->).
  destruct (split_block b N0 B0 HB0 Hb) as (Hb1 & Hb2 & Hb3).
  apply (omap_count_once _ _ _ (b / B0, (h, (w, b mod B0)))).
  - repeat apply NoDup_list_prod; apply NoDup_seq.
  - rewrite !elem_of_list_prod, !elem_of_seq. lia.
  - eexists. unfold conv2d_write. cbn [program_id fst snd]. rewrite Hb3.
    destruct (Nat.ltb_spec b N0); [done|lia].
  - intros [p0 [h' [w' ib]]] v Ht E.
    rewrite !elem_of_list_prod, !elem_of_seq in Ht.
    unfold conv2d_write in E. cbn [program_id fst snd] in E.
    destruct (Nat.ltb_spec (p0 * B0 + ib) N0); [|done]. inversion E as [[E1 E2]].
    apply idx3_inj in E1 as (E1 & -> & ->); [|lia..].
    rewrite <- Hb3 in E1. apply idx2_inj in E1 as [-> ->]; [done|lia..].
Qed.

(** C10, as the code has it: for every batch of [N0] images of [H x W], every
    [KH x KW] kernel and every positive block size the convolution kernel
    runs without fault, in any element arithmetic (float32 included), and
    every output cell [z[b,h,w]] holds the zero-padded window sum with the
    products added along each window row first ([.sum(2).sum(1)]); the
    input tile is zero wherever the window passes the bottom or right
    edge; every output cell is written exactly once in the whole launch.
    In exact arithmetic this output is the zero-padded reference, which
    adds the same products down the window columns first (the source's
    [conv2d_spec] is its instance at 8, 8, 4, 4). *)
Theorem conv2d_kernel_correct (N0 H W KH KW B0 : nat) :
  0 < B0 ->
  (forall (A : Type) (SA : Scalar A) (x : list (list (list A))) (k : list (list A))
          (z : list A),
     shape3 N0 H W x -> shape2 KH KW k -> length z = N0 * H * W ->
     run_conv2d N0 H W KH KW B0 x k z
     = Ok (flat3 (outer3 (conv2d_rows x k H W KH KW) (seq 0 N0) (seq 0 H) (seq 0 W)))
     /\ (forall (p : pid) (h w : nat),
         exists inp,
           conv2d_inp (flat3 x) N0 H W KH KW B0 p h w = Ok inp
           /\ forall ib oh ow, ib < B0 -> oh < KH -> ow < KW ->
              H <= h + oh \/ W <= w + ow ->
              nth ow (nth oh (nth ib inp []) []) s_zero = s_zero)
     /\ (exists ws,
         launch_writes (cdiv N0 B0) (cdiv 1 1) (cdiv 1 1)
           (conv2d_kernel (flat3 x) (flat2 k) N0 H W KH KW B0) = Ok ws
         /\ forall q, q < N0 * H * W ->
            length (filter (fun w : write A => w.1 = q) ws) = 1))
  /\ (forall (x : list (list (list R))) (k : list (list R)) (z : list R),
        shape3 N0 H W x -> shape2 KH KW k -> length z = N0 * H * W ->
        0 < H -> 0 < KH ->
        run_conv2d N0 H W KH KW B0 x k z
        = Ok (flat3 (conv2d_spec_at H W KH KW x k))).
Proof.
  intros HB0. split.
  - intros A SA x k z Hx Hk Hz. split; [by apply run_conv2d_rows|]. split.
    + intros p h w. by apply conv2d_inp_zero_fill.
    + by apply conv2d_writes_once.
  - intros x k z Hx Hk Hz HH HKH. by apply run_conv2d_spec.
Qed.

Lemma conv2d_kernel_correct_witness :
  run_conv2d 4 8 8 4 4 1 (replicate 4 (replicate 8 (replicate 8 1%R)))
    (replicate 4 (replicate 4 2%R)) (replicate 256 0%R)
  = Ok (flat3 (conv2d_spec (replicate 4 (replicate 8 (replicate 8 1%R)))
                           (replicate 4 (replicate 4 2%R)))).
Proof.
  apply (conv2d_kernel_correct 4 8 8 4 4 1); [lia| | |reflexivity|lia|lia].
  - split; [reflexivity|]. repeat constructor.
  - split; [reflexivity|]. repeat constructor.
Defined.

(** C10 as stated fails in float32, at the sizes of the harness: a
    window whose corner holds [[2^24, 1], [-2^24, 1]] under a kernel of
    ones adds up to 1.0 row by row, as the kernel adds it
    ([2^24 + 1] rounds to [2^24]), and to 2.0 column by column, as the
    reference adds it; the other products of the window are zero, so the
    order inside one axis sum plays no part. *)
Lemma conv2d_kernel_sum_order :
  let one := b32_of_Z 1 in
  let zero := S754_zero false in
  let k := [[one; one; zero; zero]; [one; one; zero; zero];
            replicate 4 zero; replicate 4 zero] in
  let img := [[b32_of_Z (2 ^ 24); one] ++ replicate 6 zero;
              [b32_of_Z (- 2 ^ 24); one] ++ replicate 6 zero]
             ++ replicate 6 (replicate 8 zero) in
  let x := img :: replicate 3 (replicate 8 (replicate 8 zero)) in
  exists out,
    run_conv2d 4 8 8 4 4 1 x k (replicate 256 zero) = Ok out
    /\ out !! 0 = Some (b32_of_Z 1)
    /\ flat3 (conv2d_spec x k) !! 0 = Some (b32_of_Z 2)
    /\ b32_close (b32_of_Z 1) (b32_of_Z 2) = false
    /\ out <> flat3 (conv2d_spec x k).
Proof.
  intros one zero k img x.
  assert (Hx : shape3 4 8 8 x) by (split; [reflexivity|]; repeat constructor).
  assert (Hk : shape2 4 4 k) by (split; [reflexivity|]; repeat constructor).
  eexists. split.
  { apply (run_conv2d_rows 4 8 8 4 4 1 x k); [exact Hx|exact Hk|lia|reflexivity]. }
  set (T := outer3 _ _ _ _).
  assert (H0 : flat3 T !! 0 = Some (b32_of_Z 1)).
  { assert (HT : shape3 4 8 8 T).
    { pose proof (shape3_outer (conv2d_rows x k 8 8 4 4)
                    (seq 0 4) (seq 0 8) (seq 0 8)) as Hs.
      rewrite !length_seq in Hs. exact Hs. }
    pose proof (nth_flat3 4 8 8 T s_zero 0 0 0 HT ltac:(lia) ltac:(lia)) as E.
    change (0 * 8 * 8 + 0 * 8 + 0) with 0 in E.
    subst T. rewrite nth_outer3_seq in E by lia.
    apply lookup_of_nth with (d := s_zero).
    - rewrite (length_flat3 4 8 8) by exact HT. lia.
    - rewrite E. vm_compute. reflexivity. }
  assert (H1 : flat3 (conv2d_spec x k) !! 0 = Some (b32_of_Z 2)).
  { assert (HS : shape3 4 8 8 (conv2d_spec x k)).
    { pose proof (shape3_outer
        (fun b i j : nat =>
           nth b (map s_sum (sum_axis1 (map (fun img => zip2 s_mul k img)
                     (window i 4 j 4 (pad_right_bottom 4 4 x))))) s_zero)
        (seq 0 4) (seq 0 8) (seq 0 8)) as Hs.
      rewrite !length_seq in Hs. exact Hs. }
    pose proof (nth_flat3 4 8 8 (conv2d_spec x k) s_zero 0 0 0 HS
                  ltac:(lia) ltac:(lia)) as E.
    change (0 * 8 * 8 + 0 * 8 + 0) with 0 in E.
    apply lookup_of_nth with (d := s_zero).
    - rewrite (length_flat3 4 8 8) by exact HS. lia.
    - rewrite E.
      change (conv2d_spec x k) with
        (outer3 (fun b i j : nat =>
           nth b (map s_sum (sum_axis1 (map (fun img => zip2 s_mul k img)
                     (window i 4 j 4 (pad_right_bottom 4 4 x))))) s_zero)
        (seq 0 4) (seq 0 8) (seq 0 8)).
      rewrite nth_outer3_seq by lia. vm_compute. reflexivity. }
  split; [exact H0|]. split; [exact H1|]. split; [vm_compute; reflexivity|].
  intros E. rewrite E, H1 in H0. vm_compute in H0. discriminate H0.
Qed.


(** ** Reshapes of tables *)

Lemma chunks_concat {A} (c : nat) (rows : list (list A)) :
  Forall (fun row => length row = c) rows ->
  chunks (length rows) c (concat rows) = rows.
Proof.
  induction 1 as [|row rows Hrow _ IH]; simpl; [done|].
  rewrite take_app_length' by done. rewrite drop_app_length' by done.
  by rewrite IH.
Qed.

Lemma chunks_concat_n {A} (r c : nat) (rows : list (list A)) :
  length rows = r ->
  Forall (fun row => length row = c) rows ->
  chunks r c (concat rows) = rows.
Proof. intros <-. apply chunks_concat. Qed.

Lemma flat2_outer_seq {A} (g : nat -> nat -> A) (n m : nat) :
  0 < m ->
  flat2 (outer2 g (seq 0 n) (seq 0 m))
  = map (fun l => g (l / m) (l mod m)) (seq 0 (n * m)).
Proof.
  intros Hm. unfold flat2, outer2. induction n as [|n IH]; [done|].
  rewrite seq_S, map_app, concat_app, IH. simpl.
  replace (m + n * m) with (n * m + m) by lia.
  rewrite seq_app, map_app, app_nil_r. f_equal. simpl.
  rewrite (map_seq_add _ (n * m)). apply list_fmap_ext. intros i j Hj.
  apply lookup_seq in Hj as [-> Hj]. simpl.
  replace (n * m + i) with (i + n * m) by lia.
  rewrite Nat.div_add, Nat.Div0.mod_add by lia.
  by rewrite Nat.div_small, Nat.mod_small by lia.
Qed.

Lemma reshape2_flat3_outer {A} (f : nat -> nat -> nat -> A) (r n m c : nat) :
  0 < m -> n * m = c ->
  reshape2 r c (flat3 (outer3 f (seq 0 r) (seq 0 n) (seq 0 m)))
  = Ok (outer2 (fun a l => f a (l / m) (l mod m)) (seq 0 r) (seq 0 c)).
Proof.
  intros Hm <-. unfold reshape2.
  pose proof (shape3_outer f (seq 0 r) (seq 0 n) (seq 0 m)) as Hs.
  rewrite !length_seq in Hs.
  rewrite (length_flat3 r n m) by done.
  destruct (decide (r * n * m = r * (n * m))); [|lia]. f_equal.
  unfold flat3, outer3. rewrite map_map.
  rewrite chunks_concat_n.
  - unfold outer2 at 2. apply list_fmap_ext. intros _ a _. simpl.
    by apply flat2_outer_seq.
  - by rewrite length_map, length_seq.
  - apply Forall_fmap, Forall_forall. intros a _. simpl.
    by rewrite (length_flat2 n m)
      by (pose proof (shape2_outer (f a) (seq 0 n) (seq 0 m)) as H2;
          by rewrite !length_seq in H2).
Qed.

Lemma reshape2_mismatch {A} (r c : nat) (l : list A) :
  length l <> r * c -> reshape2 r c l = Err ShapeMismatch.
Proof. intros H. unfold reshape2. by destruct (decide _). Qed.

Lemma reshape1_ok {A} (n : nat) (l : list A) :
  length l = n -> reshape1 n l = Ok l.
Proof. intros H. unfold reshape1. by destruct (decide _). Qed.

Lemma reshape1_mismatch {A} (n : nat) (l : list A) :
  length l <> n -> reshape1 n l = Err ShapeMismatch.
Proof. intros H. unfold reshape1. by destruct (decide _). Qed.

(** ** Unpacking 4-bit fields *)

Lemma extract_lane (w : Z) (i : nat) :
  i < 8 ->
  nth i (extract w) 0%Z = Z.land (Z.shiftr w (Z.of_nat (i * 4))) 15.
Proof.
  intros Hi. unfold extract, arange. rewrite map_map.
  by rewrite nth_map_seq by done.
Qed.

Lemma lane_range (w s : Z) : (0 <= Z.land (Z.shiftr w s) 15 < 16)%Z.
Proof.
  change 15%Z with (Z.ones 4). rewrite Z.land_ones by lia.
  apply Z.mod_pos_bound. lia.
Qed.

Lemma lane_div_mod (w : Z) (i : nat) :
  Z.land (Z.shiftr w (Z.of_nat (i * 4))) 15 = ((w / 2 ^ Z.of_nat (i * 4)) mod 16)%Z.
Proof.
  change 15%Z with (Z.ones 4). rewrite Z.land_ones by lia.
  rewrite Z.shiftr_div_pow2 by lia. done.
Qed.


(** ** Puzzle 12: the quantized product *)

Lemma FPINT_eq : FPINT = 8.
Proof. reflexivity. Qed.

Lemma GROUP_eq : GROUP = 8.
Proof. reflexivity. Qed.

Lemma quant_static_asserts_ok (MID B_MID : nat) :
  B_MID mod FPINT = 0 -> MID mod B_MID = 0 ->
  MID mod FPINT = 0 -> MID mod GROUP = 0 ->
  quant_static_asserts MID B_MID = Ok ().
Proof.
  intros HBF HMB HMF HMG.
  assert (H4 : (MID / FPINT) mod (B_MID / FPINT) = 0).
  { destruct (proj1 (Nat.Div0.mod_divides MID B_MID) HMB) as [c Hc].
    destruct (proj1 (Nat.Div0.mod_divides B_MID FPINT) HBF) as [b Hb].
    rewrite Hc, Hb. rewrite (Nat.mul_comm FPINT b), Nat.div_mul by done.
    replace (b * FPINT * c) with (b * c * FPINT) by lia.
    rewrite Nat.div_mul by done. rewrite (Nat.mul_comm b c).
    by rewrite Nat.Div0.mod_mul. }
  unfold quant_static_asserts, static_assert.
  by rewrite HMF, HBF, HMB, H4, HMG.
Qed.

Section QuantProof.
Variables (scale : list R) (offset weight : list Z) (activation : list R).
Variables (N0 N1 MID B0 B1 B_MID : nat).
Hypothesis Hscale : length scale = N0 * (MID / GROUP).
Hypothesis Hoffset : length offset = N0 * (MID / GROUP / FPINT).
Hypothesis Hweight : length weight = N0 * (MID / FPINT).
Hypothesis Hact : length activation = MID * N1.
Hypothesis HBF : B_MID mod FPINT = 0.
Hypothesis HMB : MID mod B_MID = 0.
Hypothesis HBM : 0 < B_MID.
Hypothesis HMID : 0 < MID.
Variable (p : pid).

Lemma quant_unpack_weight_ok (k : nat) :
quant_unpack_weight weight N0 MID B0 B_MID p k
= Ok (outer2 (quant_weight_entry weight N0 MID B0 p k) (seq 0 B0) (seq 0 B_MID)).
Proof using All.
unfold quant_unpack_weight, arange. rewrite !Nat.sub_0_r, !map_map.
rewrite !(bcast_rows_n _ _ _ (seq 0 B0) (seq 0 (B_MID / FPINT))) by apply length_seq.
rewrite !(bcast_cols_n _ _ _ (seq 0 B0) (seq 0 (B_MID / FPINT))) by apply length_seq.
rewrite map2_outer, !zip2_outer. rewrite load2_outer.
2:{ intros ib j _ _ Hm. apply andb_true_iff in Hm as [H1 H2].
apply Nat.ltb_lt in H1, H2. rewrite Hweight. by apply flat_idx2_lt. }
rewrite bind_Ok.
rewrite (bcast3_2 (seq 0 B0) (seq 0 (B_MID / FPINT)) (seq 0 FPINT))
by apply length_seq.
rewrite (bcast3_01 (seq 0 B0) (seq 0 (B_MID / FPINT)) (seq 0 FPINT))
by apply length_seq.
rewrite zip3_outer, map3_outer.
rewrite reshape2_flat3_outer.
- reflexivity.
- rewrite FPINT_eq. lia.
- pose proof (Nat.div_mod B_MID FPINT ltac:(rewrite FPINT_eq; lia)). lia.
Qed.

Lemma quant_load_scale_ok (k : nat) :
quant_load_scale scale N0 MID B0 B_MID p k
= Ok (outer2 (quant_scale_entry scale N0 MID B0 p k) (seq 0 B0) (seq 0 B_MID)).
Proof using All.
unfold quant_load_scale, arange. rewrite !Nat.sub_0_r, !map_map.
rewrite !(bcast_rows_n _ _ _ (seq 0 B0) (seq 0 B_MID)) by apply length_seq.
rewrite !(bcast_cols_n _ _ _ (seq 0 B0) (seq 0 B_MID)) by apply length_seq.
rewrite map2_outer, !zip2_outer. rewrite load2_outer; [done|].
intros ib l _ _ Hm. apply andb_true_iff in Hm as [H1 H2].
apply Nat.ltb_lt in H1, H2. rewrite Hscale. by apply flat_idx2_lt.
Qed.

Lemma quant_load_act_ok (k : nat) :
quant_load_act activation N1 MID B1 B_MID p k
= Ok (outer2 (quant_act_entry activation N1 MID B1 p k) (seq 0 B_MID) (seq 0 B1)).
Proof using All.
unfold quant_load_act, arange. rewrite !Nat.sub_0_r, !map_map.
rewrite !(bcast_rows_n _ _ _ (seq 0 B_MID) (seq 0 B1)) by apply length_seq.
rewrite !(bcast_cols_n _ _ _ (seq 0 B_MID) (seq 0 B1)) by apply length_seq.
rewrite map2_outer, !zip2_outer. rewrite load2_outer; [done|].
intros l jn _ _ Hm. apply andb_true_iff in Hm as [H1 H2].
apply Nat.ltb_lt in H1, H2. rewrite Hact. by apply flat_idx2_lt.
Qed.

(** The offsets load without fault for every block size; what follows
depends on the reshape of the shift table. *)
Lemma quant_offset_load_ok (k : nat) :
load2 0%Z offset
(outer2 (fun ib l => (program_id 0 p * B0 + ib) * (MID / GROUP / FPINT)
 + (k + l) / GROUP / FPINT) (seq 0 B0) (seq 0 B_MID))
(outer2 (fun ib l => (program_id 0 p * B0 + ib <? N0)
 && ((k + l) / GROUP / FPINT <? B_MID / GROUP / FPINT))
(seq 0 B0) (seq 0 B_MID))
= Ok (outer2 (fun ib l =>
if (program_id 0 p * B0 + ib <? N0)
 && ((k + l) / GROUP / FPINT <? B_MID / GROUP / FPINT)
then nth ((program_id 0 p * B0 + ib) * (MID / GROUP / FPINT)
+ (k + l) / GROUP / FPINT) offset 0%Z
else 0%Z) (seq 0 B0) (seq 0 B_MID)).
Proof using All.
rewrite load2_outer; [done|].
intros ib l _ _ Hm. apply andb_true_iff in Hm as [H1 H2].
apply Nat.ltb_lt in H1, H2. rewrite Hoffset. apply flat_idx2_lt; [done|].
assert (B_MID <= MID).
{ destruct (proj1 (Nat.Div0.mod_divides MID B_MID) HMB) as [c Hc].
destruct c; [lia|]. nia. }
assert (B_MID / GROUP / FPINT <= MID / GROUP / FPINT)
by (do 2 apply Nat.Div0.div_le_mono; done).
lia.
Qed.

Lemma quant_unpack_offset_ok (k : nat) :
B_MID = FPINT * GROUP ->
quant_unpack_offset offset N0 MID B0 B_MID p k
= Ok (outer2 (quant_offset_entry offset N0 MID B0 B_MID p k) (seq 0 B0) (seq 0 B_MID)).
Proof using All.
intros HB. unfold quant_unpack_offset, arange. rewrite !Nat.sub_0_r, !map_map.
rewrite !(bcast_rows_n _ _ _ (seq 0 B0) (seq 0 B_MID)) by apply length_seq.
rewrite (bcast_cols_n _ _ _ (seq 0 B0) (seq 0 B_MID)) by apply length_seq.
rewrite (bcast_cols_n _ _ (fun a => (k + a) / GROUP / FPINT <? B_MID / GROUP / FPINT)
 (seq 0 B0) (seq 0 B_MID)) by apply length_seq.
rewrite map2_outer, !zip2_outer, quant_offset_load_ok, bind_Ok.
rewrite (bcast_rows_n _ _ _ (seq 0 FPINT) (seq 0 GROUP)) by apply length_seq.
rewrite flat2_outer_seq by (rewrite GROUP_eq; lia).
rewrite reshape1_ok by (by rewrite length_map, length_seq).
rewrite bind_Ok. rewrite <- HB.
rewrite (bcast_cols_n _ _ _ (seq 0 B0) (seq 0 B_MID)) by apply length_seq.
rewrite zip2_outer, map2_outer. done.
Qed.

Lemma quant_unpack_offset_mismatch (k : nat) :
B_MID <> FPINT * GROUP ->
quant_unpack_offset offset N0 MID B0 B_MID p k = Err ShapeMismatch.
Proof using All.
intros HB. unfold quant_unpack_offset, arange. rewrite !Nat.sub_0_r, !map_map.
rewrite !(bcast_rows_n _ _ _ (seq 0 B0) (seq 0 B_MID)) by apply length_seq.
rewrite (bcast_cols_n _ _ _ (seq 0 B0) (seq 0 B_MID)) by apply length_seq.
rewrite (bcast_cols_n _ _ (fun a => (k + a) / GROUP / FPINT <? B_MID / GROUP / FPINT)
 (seq 0 B0) (seq 0 B_MID)) by apply length_seq.
rewrite map2_outer, !zip2_outer, quant_offset_load_ok, bind_Ok.
rewrite (bcast_rows_n _ _ _ (seq 0 FPINT) (seq 0 GROUP)) by apply length_seq.
rewrite flat2_outer_seq by (rewrite GROUP_eq; lia).
rewrite reshape1_mismatch; [done|].
rewrite length_map, length_seq. lia.
Qed.
Lemma quant_dequant_ok (k : nat) :
B_MID = FPINT * GROUP ->
quant_dequant scale offset weight N0 MID B0 B_MID p k
= Ok (outer2 (quant_dequant_entry scale offset weight N0 MID B0 B_MID p k)
 (seq 0 B0) (seq 0 B_MID)).
Proof using All.
intros HB. unfold quant_dequant.
rewrite quant_unpack_weight_ok, bind_Ok, quant_load_scale_ok, bind_Ok.
rewrite quant_unpack_offset_ok, bind_Ok by done.
by rewrite zip2_outer, map2_outer, zip2_outer.
Qed.

Lemma quant_dequant_mismatch (k : nat) :
B_MID <> FPINT * GROUP ->
quant_dequant scale offset weight N0 MID B0 B_MID p k = Err ShapeMismatch.
Proof using All.
intros HB. unfold quant_dequant.
rewrite quant_unpack_weight_ok, bind_Ok, quant_load_scale_ok, bind_Ok.
by rewrite quant_unpack_offset_mismatch.
Qed.

Hypothesis HMF : MID mod FPINT = 0.
Hypothesis HMG : MID mod GROUP = 0.

(** The chunk loop fails at its first chunk when the shift table cannot
be reshaped. *)
Lemma quant_dot_kernel_mismatch :
B_MID <> FPINT * GROUP ->
quant_dot_kernel scale offset weight activation N0 N1 MID B0 B1 B_MID p
= Err ShapeMismatch.
Proof using All.
intros HB. unfold quant_dot_kernel. rewrite quant_static_asserts_ok, bind_Ok by done.
unfold tl_range. rewrite Nat.sub_0_r.
pose proof (cdiv_pos MID B_MID HBM HMID) as Hc.
destruct (cdiv MID B_MID) as [|c]; [lia|]. simpl.
by rewrite quant_dequant_mismatch.
Qed.

Lemma quant_dot_kernel_ok :
B_MID = FPINT * GROUP ->
exists tile,
quant_dot_kernel scale offset weight activation N0 N1 MID B0 B1 B_MID p
= Ok (store2
(outer2 (fun ib jn => (program_id 0 p * B0 + ib) * N1
+ (program_id 1 p * B1 + jn))
(seq 0 B0) (seq 0 B1))
tile
(outer2 (fun ib jn => (program_id 0 p * B0 + ib <? N0)
&& (program_id 1 p * B1 + jn <? N1))
(seq 0 B0) (seq 0 B1))).
Proof using All.
intros HB. unfold quant_dot_kernel. rewrite quant_static_asserts_ok, bind_Ok by done.
edestruct (foldR_inv
(fun tile k =>
 dequant_weight ← quant_dequant scale offset weight N0 MID B0 B_MID p k;
 act ← quant_load_act activation N1 MID B1 B_MID p k;
 Ok (zip2 Rplus tile (dot2 dequant_weight act)))
(fun _ _ => True)
(tl_range 0 MID B_MID) (replicate B0 (replicate B1 0%R))) as (tile & E & _).
- done.
- intros n k tile _ _.
rewrite quant_dequant_ok, bind_Ok, quant_load_act_ok, bind_Ok by done. eauto.
- rewrite E, bind_Ok. exists tile. unfold arange.
rewrite !Nat.sub_0_r, !map_map.
rewrite !(bcast_rows_n _ _ _ (seq 0 B0) (seq 0 B1)) by apply length_seq.
rewrite !(bcast_cols_n _ _ _ (seq 0 B0) (seq 0 B1)) by apply length_seq.
by rewrite map2_outer, !zip2_outer.
Qed.
End QuantProof.

Lemma quant_static_asserts_reject (MID B_MID : nat) :
  ~ (B_MID mod FPINT = 0 /\ MID mod FPINT = 0 /\ MID mod GROUP = 0
     /\ MID mod B_MID = 0) ->
  exists msg, quant_static_asserts MID B_MID = Err (StaticAssert msg).
Proof.
  intros Hpre. unfold quant_static_asserts, static_assert.
  destruct (Nat.eqb_spec (MID mod FPINT) 0); [|by eexists].
  destruct (Nat.eqb_spec (B_MID mod FPINT) 0); [|by eexists].
  destruct (Nat.eqb_spec (MID mod B_MID) 0); [|by eexists].
  destruct (Nat.eqb_spec ((MID / FPINT) mod (B_MID / FPINT)) 0); [|by eexists].
  destruct (Nat.eqb_spec (MID mod GROUP) 0); [|by eexists].
  tauto.
Qed.

Lemma grid_cells_nonempty (g0 g1 g2 : nat) :
  0 < g0 -> 0 < g1 -> 0 < g2 -> grid_cells g0 g1 g2 <> [].
Proof.
  intros H0 H1 H2 E.
  assert (H : (0, 0, 0) ∈ grid_cells g0 g1 g2) by (by apply elem_of_grid_cells).
  rewrite E in H. by apply elem_of_nil in H.
Qed.

Lemma launch_err {A} (g0 g1 g2 : nat) (kernel : pid -> result (list (write A)))
    (z : list A) (e : error) :
  0 < g0 -> 0 < g1 -> 0 < g2 ->
  (forall c, kernel c = Err e) -> launch g0 g1 g2 kernel z = Err e.
Proof.
  intros H0 H1 H2 H. unfold launch, launch_writes.
  rewrite (mapR_err _ e); [done|by apply grid_cells_nonempty|done].
Qed.

Lemma lookup_flat2_outer {A B C} (f : A -> B -> C) (xs : list A) (ys : list B)
    (j : nat) (c : C) :
  flat2 (outer2 f xs ys) !! j = Some c ->
  exists ab, list_prod xs ys !! j = Some ab /\ c = f ab.1 ab.2.
Proof.
  rewrite flat2_outer, list_lookup_fmap. intros H.
  destruct (list_prod xs ys !! j) as [ab|]; [|done]. inversion H. eauto.
Qed.

(** With the shift table in shape, the whole launch completes. *)
Lemma run_quant_dot_ok (N0 N1 MID B0 B1 B_MID : nat)
    (scale : list (list R)) (offset : list Z) (weight : list (list Z))
    (activation : list (list R)) (z : list R) :
  shape2 N0 (MID / GROUP) scale -> length offset = N0 * (MID / GROUP / FPINT) ->
  shape2 N0 (MID / FPINT) weight -> shape2 MID N1 activation ->
  B_MID mod FPINT = 0 -> MID mod B_MID = 0 -> 0 < B_MID -> 0 < MID ->
  MID mod FPINT = 0 -> MID mod GROUP = 0 -> B_MID = FPINT * GROUP ->
  length z = N0 * N1 ->
  exists out, run_quant_dot N0 N1 MID B0 B1 B_MID scale offset weight activation z
              = Ok out.
Proof.
  intros Hs Ho Hw Ha HBF HMB HBM HMID HMF HMG HB Hz.
  unfold run_quant_dot, launch, launch_writes.
  set (kernel := quant_dot_kernel (flat2 scale) offset (flat2 weight)
                   (flat2 activation) N0 N1 MID B0 B1 B_MID).
  assert (Hk : forall c, exists tile, kernel c
     = Ok (store2
            (outer2 (fun ib jn => (program_id 0 c * B0 + ib) * N1
                                  + (program_id 1 c * B1 + jn))
                    (seq 0 B0) (seq 0 B1))
            tile
            (outer2 (fun ib jn => (program_id 0 c * B0 + ib <? N0)
                                  && (program_id 1 c * B1 + jn <? N1))
                    (seq 0 B0) (seq 0 B1)))).
  { intros c. apply quant_dot_kernel_ok; try done.
    - by apply length_flat2.
    - by apply length_flat2.
    - by apply length_flat2. }
  rewrite (mapR_ok _ (fun c => match kernel c with Ok ws => ws | Err _ => [] end)).
  2:{ intros c _. destruct (Hk c) as [tile ->]. done. }
  rewrite !bind_Ok.
  edestruct (apply_writes_ok (A:=R)) as (out & E & _); [|by eauto].
  intros w Hin. apply elem_of_concat in Hin as (l & Hl & Hin).
  apply list_elem_of_fmap in Hl as (c & -> & _).
  destruct (Hk c) as [tile Ek]. rewrite Ek in Hin.
  apply elem_of_store1 in Hin as (j & Hi & _ & Hm).
  apply lookup_flat2_outer in Hi as (ab & Hab & ->).
  apply lookup_flat2_outer in Hm as (ab' & Hab' & Hm).
  rewrite Hab in Hab'. inversion Hab'; subst ab'.
  symmetry in Hm. apply andb_true_iff in Hm as [H1 H2].
  apply Nat.ltb_lt in H1, H2. rewrite Hz. by apply flat_idx2_lt.
Qed.

(** The configurations of the quantized kernel: a combination that
    violates a divisibility precondition is rejected by a static assertion
    in every instance, before any load or store, and the launch fails with
    it; a combination that satisfies them passes the assertions, and then
    runs to completion exactly when [B_MID = FPINT * GROUP]. *)
Lemma quant_dot_config (N0 N1 MID B0 B1 B_MID : nat)
    (scale : list (list R)) (offset : list Z) (weight : list (list Z))
    (activation : list (list R)) (z : list R) :
  0 < N0 -> 0 < N1 -> 0 < MID -> 0 < B0 -> 0 < B1 -> 0 < B_MID ->
  shape2 N0 (MID / GROUP) scale -> length offset = N0 * (MID / GROUP / FPINT) ->
  shape2 N0 (MID / FPINT) weight -> shape2 MID N1 activation ->
  length z = N0 * N1 ->
  let kernel := quant_dot_kernel (flat2 scale) offset (flat2 weight)
                  (flat2 activation) N0 N1 MID B0 B1 B_MID in
  let run := run_quant_dot N0 N1 MID B0 B1 B_MID scale offset weight activation z in
  let pre := B_MID mod FPINT = 0 /\ MID mod FPINT = 0 /\ MID mod GROUP = 0
             /\ MID mod B_MID = 0 in
  (~ pre -> exists msg,
      (forall p, kernel p = Err (StaticAssert msg)) /\ run = Err (StaticAssert msg))
  /\ (pre ->
      quant_static_asserts MID B_MID = Ok ()
      /\ (B_MID = FPINT * GROUP ->
          (forall p, exists ws, kernel p = Ok ws) /\ exists out, run = Ok out)
      /\ (B_MID <> FPINT * GROUP ->
          (forall p, kernel p = Err ShapeMismatch) /\ run = Err ShapeMismatch)).
Proof.
  intros HN0 HN1 HMID HB0 HB1 HBM Hs Ho Hw Ha Hz kernel run pre.
  assert (Hg0 : 0 < cdiv N0 B0) by (by apply cdiv_pos).
  assert (Hg1 : 0 < cdiv N1 B1) by (by apply cdiv_pos).
  assert (Hg2 : 0 < cdiv 1 1) by (apply cdiv_pos; lia).
  split.
  - intros Hpre. destruct (quant_static_asserts_reject MID B_MID Hpre) as [msg E].
    exists msg.
    assert (Hk : forall p, kernel p = Err (StaticAssert msg)).
    { intros p. unfold kernel, quant_dot_kernel. by rewrite E. }
    split; [done|]. by apply launch_err.
  - intros (HBF & HMF & HMG & HMB).
    pose proof (length_flat2 _ _ _ Hs) as Hs'.
    pose proof (length_flat2 _ _ _ Hw) as Hw'.
    pose proof (length_flat2 _ _ _ Ha) as Ha'.
    split; [by apply quant_static_asserts_ok|]. split.
    + intros HB. split; [|by apply run_quant_dot_ok].
      intros p.
      destruct (quant_dot_kernel_ok (flat2 scale) offset (flat2 weight)
                  (flat2 activation) N0 N1 MID B0 B1 B_MID Hs' Ho Hw' Ha'
                  HBF HMB HBM HMID p HMF HMG HB) as [tile E].
      eauto.
    + intros HB.
      assert (Hk : forall p, kernel p = Err ShapeMismatch).
      { intros p. by apply quant_dot_kernel_mismatch. }
      split; [done|]. by apply launch_err.
Qed.

(** C7, where the code departs from it: a combination that satisfies
    every divisibility precondition passes the kernel's static assertions,
    and with any contraction block other than [FPINT * GROUP = 64] every
    instance then fails in its first chunk, where the [FPINT x GROUP]
    table of offset shifts is reshaped to [B_MID]; the launch fails with
    it instead of running.  The weight and the scale of the same chunk
    are unpacked for any [B_MID]. *)
Theorem quant_dot_kernel_reshape_slip (N0 N1 MID B0 B1 B_MID : nat)
    (scale : list (list R)) (offset : list Z) (weight : list (list Z))
    (activation : list (list R)) (z : list R) :
  0 < N0 -> 0 < N1 -> 0 < MID -> 0 < B0 -> 0 < B1 -> 0 < B_MID ->
  shape2 N0 (MID / GROUP) scale -> length offset = N0 * (MID / GROUP / FPINT) ->
  shape2 N0 (MID / FPINT) weight -> shape2 MID N1 activation ->
  length z = N0 * N1 ->
  B_MID mod FPINT = 0 -> MID mod FPINT = 0 -> MID mod GROUP = 0 ->
  MID mod B_MID = 0 ->
  B_MID <> FPINT * GROUP ->
  quant_static_asserts MID B_MID = Ok ()
  /\ (forall p k, exists w,
        quant_unpack_weight (flat2 weight) N0 MID B0 B_MID p k = Ok w)
  /\ (forall p,
        quant_dot_kernel (flat2 scale) offset (flat2 weight) (flat2 activation)
          N0 N1 MID B0 B1 B_MID p
        = Err ShapeMismatch)
  /\ run_quant_dot N0 N1 MID B0 B1 B_MID scale offset weight activation z
     = Err ShapeMismatch.
Proof.
  intros HN0 HN1 HMID HB0 HB1 HBM Hs Ho Hw Ha Hz HBF HMF HMG HMB HB.
  pose proof (length_flat2 _ _ _ Hs) as Hs'.
  pose proof (length_flat2 _ _ _ Hw) as Hw'.
  pose proof (length_flat2 _ _ _ Ha) as Ha'.
  split; [by apply quant_static_asserts_ok|]. split.
  { intros p k. eexists.
    by apply (quant_unpack_weight_ok (flat2 scale) offset (flat2 weight)
                (flat2 activation) N0 N1 MID B0 B1 B_MID). }
  assert (Hk : forall p,
    quant_dot_kernel (flat2 scale) offset (flat2 weight) (flat2 activation)
      N0 N1 MID B0 B1 B_MID p = Err ShapeMismatch).
  { intros p. by apply quant_dot_kernel_mismatch. }
  split; [done|]. unfold run_quant_dot. apply launch_err; [| |apply cdiv_pos; lia|done].
  - by apply cdiv_pos.
  - by apply cdiv_pos.
Qed.

Lemma quant_dot_kernel_reshape_slip_witness :
  quant_static_asserts 64 32 = Ok ()
  /\ (forall p,
        quant_dot_kernel (flat2 (replicate 32 (replicate 8 1%R))) (replicate 32 0%Z)
          (flat2 (replicate 32 (replicate 8 0%Z)))
          (flat2 (replicate 64 (replicate 32 1%R))) 32 32 64 16 16 32 p
        = Err ShapeMismatch)
  /\ run_quant_dot 32 32 64 16 16 32 (replicate 32 (replicate 8 1%R))
       (replicate 32 0%Z) (replicate 32 (replicate 8 0%Z))
       (replicate 64 (replicate 32 1%R)) (replicate 1024 0%R)
     = Err ShapeMismatch.
Proof.
  assert (Hs : shape2 32 (64 / GROUP) (replicate 32 (replicate 8 1%R)))
    by (split; [reflexivity|]; repeat constructor).
  assert (Hw : shape2 32 (64 / FPINT) (replicate 32 (replicate 8 0%Z)))
    by (split; [reflexivity|]; repeat constructor).
  assert (Ha : shape2 64 32 (replicate 64 (replicate 32 1%R)))
    by (split; [reflexivity|]; repeat constructor).
  destruct (quant_dot_kernel_reshape_slip 32 32 64 16 16 32
              (replicate 32 (replicate 8 1%R)) (replicate 32 0%Z)
              (replicate 32 (replicate 8 0%Z)) (replicate 64 (replicate 32 1%R))
              (replicate 1024 0%R)
              ltac:(lia) ltac:(lia) ltac:(lia) ltac:(lia) ltac:(lia) ltac:(lia)
              Hs eq_refl Hw Ha eq_refl eq_refl eq_refl eq_refl eq_refl
              ltac:(discriminate)) as (H1 & _ & H2 & H3).
  split; [exact H1|]. split; [exact H2|exact H3].
Defined.


(** ** The dequantized weights against the reference *)

Lemma quant_lane_extract (w : Z) (i : nat) :
  i < FPINT ->
  quant_lane w i = Z.land (Z.shiftr w (Z.of_nat i * 4)) 15
  /\ quant_lane w i = nth i (extract w) 0%Z
  /\ (0 <= quant_lane w i < 16)%Z.
Proof.
  intros Hi. rewrite FPINT_eq in Hi. rewrite extract_lane by done.
  unfold quant_lane. change (32 / FPINT) with 4.
  change (Z.shiftl 1 (Z.of_nat 4) - 1)%Z with 15%Z.
  rewrite Nat2Z.inj_mul. split; [done|]. split; [done|]. apply lane_range.
Qed.

Lemma view_rows_flat3_outer {A} (f : nat -> nat -> nat -> A) (r n m c : nat) :
  0 < m -> 0 < n -> n * m = c ->
  view_rows c (flat3 (outer3 f (seq 0 r) (seq 0 n) (seq 0 m)))
  = outer2 (fun a l => f a (l / m) (l mod m)) (seq 0 r) (seq 0 c).
Proof.
  intros Hm Hn Hc.
  pose proof (reshape2_flat3_outer f r n m c Hm Hc) as H.
  unfold reshape2 in H. destruct (decide _) as [E|]; [|done].
  inversion H as [H']. unfold view_rows. rewrite E.
  replace (r * c / c) with r; [done|].
  symmetry. apply Nat.div_mul. lia.
Qed.

(** The reference dequantization as a table over rows and the 64
    unpacked columns. *)
Lemma quant_dequant_spec_table (N0 : nat) (scale : list (list R)) (offset : list Z)
    (weight : list (list Z)) :
  shape2 N0 8 scale -> length offset = N0 -> shape2 N0 8 weight ->
  quant_dequant_spec scale offset weight
  = outer2 (fun m l =>
              (nth (l / 8) (nth m scale []) 0
               * IZR (nth (l mod 8) (extract (nth (l / 8) (nth m weight []) 0%Z)) 0%Z
                      - nth (l / 8) (extract (nth m offset 0%Z)) 0%Z))%R)
           (seq 0 N0) (seq 0 64).
Proof.
  intros Hs Ho Hw. unfold quant_dequant_spec.
  assert (E1 : view_rows 64 (flat3 (map2 (fun s => replicate GROUP s) scale))
               = outer2 (fun m l => nth (l / 8) (nth m scale []) 0%R)
                        (seq 0 N0) (seq 0 64)).
  { rewrite (shape2_table 0%R N0 8 scale Hs) at 1. rewrite map2_outer.
    rewrite <- (view_rows_flat3_outer
                  (fun m g (_ : nat) => nth g (nth m scale []) 0%R) N0 8 8 64)
      by lia.
    reflexivity. }
  assert (E2 : view_rows 64 (flat3 (map2 extract weight))
               = outer2 (fun m l =>
                           nth (l mod 8) (extract (nth (l / 8) (nth m weight []) 0%Z)) 0%Z)
                        (seq 0 N0) (seq 0 64)).
  { rewrite (shape2_table 0%Z N0 8 weight Hw) at 1. rewrite map2_outer.
    rewrite <- (view_rows_flat3_outer
                  (fun m g i => nth i (extract (nth g (nth m weight []) 0%Z)) 0%Z)
                  N0 8 8 64) by lia.
    reflexivity. }
  assert (E3 : view_rows 64
                 (concat (map flat3
                    (map3 (fun v => replicate GROUP v)
                          (map2 extract (expand_dims_1 offset)))))
               = outer2 (fun m l => nth (l / 8) (extract (nth m offset 0%Z)) 0%Z)
                        (seq 0 N0) (seq 0 64)).
  { unfold view_rows, expand_dims_1, map3, map2. rewrite !map_map.
    assert (Hrows : Forall (fun row : list Z => length row = 64)
              (map (fun o => flat3 (map (map (fun v => replicate GROUP v))
                                        (map extract [o]))) offset)).
    { apply Forall_fmap, Forall_forall. intros o _. reflexivity. }
    assert (Hlen : length (concat (map (fun o => flat3 (map (map (fun v => replicate GROUP v))
                                        (map extract [o]))) offset)) = N0 * 64).
    { apply (length_flat2 N0 64). split; [by rewrite length_map|done]. }
    rewrite Hlen, Nat.div_mul by lia.
    rewrite chunks_concat_n; [|by rewrite length_map|done].
    rewrite <- (map_nth_seq _ 0%Z offset), Ho.
    unfold outer2. apply list_fmap_ext. intros _ m _. simpl.
    reflexivity. }
  rewrite E1, E2, E3. by rewrite zip2_outer, map2_outer, zip2_outer.
Qed.

(** C8: field [i] of a packed 32-bit word is [(w >> (i*4)) & 0xF] in the
    kernel exactly as in the reference [extract], a value in [0, 16); and in
    the reference configuration ([MID = B_MID = 64]) the kernel's
    dequantized tile holds, at every in-range row and column,
    [scale * (unpacked_weight - unpacked_offset)] with the integer part
    exact, which is the entry of the reference dequantization. *)
Theorem quant_dequant_exact (N0 B0 : nat) (p : pid)
    (scale : list (list R)) (offset : list Z) (weight : list (list Z)) :
  shape2 N0 8 scale -> length offset = N0 -> shape2 N0 8 weight ->
  (forall (w : Z) (i : nat),
     (- 2 ^ 31 <= w < 2 ^ 31)%Z -> i < FPINT ->
     quant_lane w i = Z.land (Z.shiftr w (Z.of_nat i * 4)) 15
     /\ quant_lane w i = nth i (extract w) 0%Z
     /\ (0 <= quant_lane w i < 16)%Z)
  /\ exists D,
       quant_dequant (flat2 scale) offset (flat2 weight) N0 64 B0 64 p 0 = Ok D
       /\ forall ib l,
            ib < B0 -> l < 64 -> program_id 0 p * B0 + ib < N0 ->
            nth l (nth ib D []) 0%R
            = (nth (l / 8) (nth (program_id 0 p * B0 + ib) scale []) 0
               * IZR (quant_lane
                        (nth (l / 8) (nth (program_id 0 p * B0 + ib) weight []) 0%Z)
                        (l mod 8)
                      - quant_lane (nth (program_id 0 p * B0 + ib) offset 0%Z) (l / 8)))%R
            /\ nth l (nth ib D []) 0%R
               = nth l (nth (program_id 0 p * B0 + ib)
                            (quant_dequant_spec scale offset weight) []) 0%R.
Proof.
  intros Hs Ho Hw. split.
  { intros w i _ Hi. by apply quant_lane_extract. }
  pose proof (length_flat2 _ _ _ Hs) as Hs'.
  pose proof (length_flat2 _ _ _ Hw) as Hw'.
  eexists. split.
  { apply (quant_dequant_ok (flat2 scale) offset (flat2 weight) [] N0 0 64 B0 64);
      try done.
    - rewrite Ho. change (64 / GROUP / FPINT) with 1. lia.
    - lia.
    - lia. }
  intros ib l Hib Hl Hm.
  assert (Hl8 : l / 8 < 8) by (apply Nat.Div0.div_lt_upper_bound; lia).
  assert (Hl64 : l / 8 / 8 = 0) by (apply Nat.div_small; lia).
  assert (Hmod : l mod 8 < 8) by (apply Nat.mod_upper_bound; lia).
  assert (Hentry :
    quant_dequant_entry (flat2 scale) offset (flat2 weight) N0 64 B0 64 p 0 ib l
    = (nth (l / 8) (nth (program_id 0 p * B0 + ib) scale []) 0
       * IZR (quant_lane
                (nth (l / 8) (nth (program_id 0 p * B0 + ib) weight []) 0%Z)
                (l mod 8)
              - quant_lane (nth (program_id 0 p * B0 + ib) offset 0%Z) (l / 8)))%R).
  { unfold quant_dequant_entry, quant_scale_entry, quant_weight_entry,
      quant_offset_entry. cbv zeta.
    rewrite FPINT_eq, GROUP_eq. change (64 / 8) with 8. change (8 / 8) with 1.
    change (0 / 8) with 0. rewrite !Nat.add_0_l, Hl64, Nat.add_0_r, Nat.mul_1_r.
    destruct (Nat.ltb_spec (program_id 0 p * B0 + ib) N0); [|lia].
    destruct (Nat.ltb_spec (l / 8) 8); [|lia]. simpl.
    by rewrite (nth_flat2 N0 8 scale), (nth_flat2 N0 8 weight). }
  rewrite nth_outer2_seq by done. split; [exact Hentry|].
  rewrite Hentry, (quant_dequant_spec_table N0) by done.
  rewrite nth_outer2_seq by done.
  destruct (quant_lane_extract
              (nth (l / 8) (nth (program_id 0 p * B0 + ib) weight []) 0%Z) (l mod 8))
    as (_ & -> & _); [by rewrite FPINT_eq|].
  destruct (quant_lane_extract (nth (program_id 0 p * B0 + ib) offset 0%Z) (l / 8))
    as (_ & -> & _); [by rewrite FPINT_eq|].
  done.
Qed.

Lemma quant_dequant_exact_witness :
  quant_lane 0x76543210 3 = Z.land (Z.shiftr 0x76543210 (Z.of_nat 3 * 4)) 15
  /\ quant_lane 0x76543210 3 = nth 3 (extract 0x76543210) 0%Z
  /\ (0 <= quant_lane 0x76543210 3 < 16)%Z.
Proof.
  apply (proj1 (quant_dequant_exact 1 1 (0, 0, 0) [replicate 8 1%R] [0%Z]
                  [replicate 8 0%Z]
                  ltac:(split; [reflexivity|]; repeat constructor)
                  eq_refl
                  ltac:(split; [reflexivity|]; repeat constructor))).
  - lia.
  - unfold FPINT. simpl. lia.
Defined.


(** ** Evaluating the extended reals *)

Arguments scale_inf : simpl never.
Arguments f32_div : simpl never.
Arguments Rpower : simpl never.
Arguments exp : simpl never.

Lemma scale_inf_pos (r : R) (pos : bool) :
  (0 < r)%R -> scale_inf r pos = if pos then PInf else NInf.
Proof. intros H. unfold scale_inf. destruct (Rlt_dec 0 r); [done|lra]. Qed.

Lemma f32_div_fin (a b : R) : b <> 0%R -> f32_div (Fin a) (Fin b) = Fin (a / b).
Proof. intros H. unfold f32_div. by destruct (Req_dec_T b 0). Qed.

Lemma Rmax_same (a : R) : Rmax a a = a.
Proof. apply Rmax_left. lra. Qed.

Lemma exp2_at_0 (c a : R) : a = 0%R -> Rpower 2 (c * a) = 1%R.
Proof. intros ->. rewrite Rmult_0_r. apply Rpower_O. lra. Qed.

Lemma exp_at_0 (a : R) : a = 0%R -> exp a = 1%R.
Proof. intros ->. apply exp_0. Qed.

Lemma not_close_3_4 : ~ close (3 / 4) 1.
Proof.
  unfold close, atol, rtol. rewrite Rabs_R1.
  replace (3 / 4 - 1)%R with (- (1 / 4))%R by lra.
  rewrite Rabs_Ropp, Rabs_pos_eq by lra. lra.
Qed.

Lemma exp2_neg_log2e_bounds :
  (0 < Rpower 2 (- (144269504 / 100000000)) < 1 / 2)%R.
Proof.
  split; [unfold Rpower; apply exp_pos|].
  replace (1 / 2)%R with (Rpower 2 (- (1))).
  - apply Rpower_lt; lra.
  - rewrite Rpower_Ropp, Rpower_1 by lra. lra.
Qed.

(** ** Puzzle 8 on a row that the chunk size does not divide *)

(** C4 fails on the code: a row of three equal logits streamed in chunks
    of two.  The masked-out fourth position is loaded as 0 and enters the
    running maximum and sum.  On three zeros every output is 1/4 where the
    reference gives 1/3, and the row sums to 3/4, outside the tolerance of
    1; adding 1 to every logit changes every output to [1 / (3 + e)] with
    [e = 2 ^ (-1.44269504) < 1/2], outside the tolerance of 1/4. *)
Theorem softmax_kernel_uneven_chunk :
  let e := Rpower 2 (- (144269504 / 100000000)) in
  run_softmax 1 1 3 1 2 [[Fin 0; Fin 0; Fin 0]] [Fin 0; Fin 0; Fin 0]
  = Ok [Fin (1 / 4); Fin (1 / 4); Fin (1 / 4)]
  /\ softmax_spec [[Fin 0; Fin 0; Fin 0]] = [[Fin (1 / 3); Fin (1 / 3); Fin (1 / 3)]]
  /\ f32_sum [Fin (1 / 4); Fin (1 / 4); Fin (1 / 4)] = Fin (3 / 4)
  /\ ~ close (3 / 4) 1
  /\ run_softmax 1 1 3 1 2 [[Fin 1; Fin 1; Fin 1]] [Fin 0; Fin 0; Fin 0]
     = Ok [Fin (1 / (3 + e)); Fin (1 / (3 + e)); Fin (1 / (3 + e))]
  /\ ~ close (1 / (3 + e)) (1 / 4).
Proof.
  intros e. pose proof exp2_neg_log2e_bounds as He. fold e in He.
  split; [|split; [|split; [|split; [|split]]]].
  - unfold run_softmax, launch, launch_writes. cbn.
    rewrite !scale_inf_pos by lra. cbn.
    rewrite !Rmax_same, !(exp2_at_0 _ (0 + - 0)) by lra.
    rewrite !f32_div_fin by lra.
    rewrite apply_write_in, bind_Ok by (simpl; lia).
    rewrite apply_write_in, bind_Ok by (simpl; lia).
    rewrite apply_write_in, bind_Ok by (simpl; lia). cbn.
    repeat f_equal; lra.
  - unfold softmax_spec. cbn.
    rewrite !Rmax_same, !(exp_at_0 (0 + - 0)) by lra.
    rewrite !f32_div_fin by lra. repeat f_equal; lra.
  - cbn. f_equal. lra.
  - apply not_close_3_4.
  - unfold run_softmax, launch, launch_writes. cbn.
    rewrite !scale_inf_pos by lra. cbn.
    rewrite !(Rmax_left 1 0), !Rmax_same by lra.
    rewrite !(exp2_at_0 _ (1 + - (1))) by lra.
    replace (144269504 / 100000000 * (0 + - (1)))%R
      with (- (144269504 / 100000000))%R by lra.
    fold e.
    rewrite !f32_div_fin by lra.
    rewrite apply_write_in, bind_Ok by (simpl; lia).
    rewrite apply_write_in, bind_Ok by (simpl; lia).
    rewrite apply_write_in, bind_Ok by (simpl; lia). cbn.
    by replace ((0 * 0 + (1 + (1 + 0))) * 1 + (1 + (e + 0)))%R with (3 + e)%R by lra.
  - unfold close, atol, rtol. intros Hc.
    assert (Hy : (2 / 7 < 1 / (3 + e))%R).
    { apply (Rmult_lt_reg_r (3 + e)); [lra|].
      replace (1 / (3 + e) * (3 + e))%R with 1%R by (field; lra). lra. }
    rewrite (Rabs_pos_eq (1 / 4)) in Hc by lra.
    rewrite Rabs_pos_eq in Hc by lra. lra.
Qed.

(** ** Puzzle 9 on a sequence that the chunk size does not divide *)

(** C2 fails on the code: [T = 3] streamed in chunks of two, zero query
    and keys, values all 1.  The masked-out fourth score is 0, not
    [-inf], and adds 1 to the running sum: the kernel returns 3/4 where the
    reference gives 1. *)
Theorem flashatt_kernel_uneven_chunk :
  run_flashatt 1 3 1 2 [Fin 0] [Fin 0; Fin 0; Fin 0] [Fin 1; Fin 1; Fin 1] [Fin 0]
  = Ok [Fin (3 / 4)]
  /\ flashatt_spec [Fin 0] [Fin 0; Fin 0; Fin 0] [Fin 1; Fin 1; Fin 1] = [Fin 1]
  /\ ~ close (3 / 4) 1.
Proof.
  split; [|split].
  - unfold run_flashatt, launch, launch_writes. cbn.
    rewrite !scale_inf_pos by lra. cbn.
    rewrite !Rmult_0_l, !Rmax_same, !(exp2_at_0 _ (0 + - 0)) by lra.
    rewrite !f32_div_fin by lra.
    rewrite apply_write_in, bind_Ok by (simpl; lia). cbn.
    do 3 f_equal. lra.
  - unfold flashatt_spec. cbn.
    rewrite !Rmult_0_l, !Rmax_same, !(exp_at_0 (0 + - 0)) by lra.
    rewrite !f32_div_fin by lra. cbn. do 2 f_equal. lra.
  - apply not_close_3_4.
Qed.

(** C3 fails on the code: the score tile is the plain product of the
    masked loads.  In the second chunk of [T = 3], [B1 = 2] the column past
    the end holds [1 * 0 = 0], not [-inf]; on zero scores the running sum
    ends at 4 with three valid positions; and with all valid scores [-1]
    the running maximum ends at 0, the masked score.  (The weighted
    accumulator is spared because the value load fills 0.) *)
Theorem flashatt_masked_scores :
  flashatt_qk [Fin 1] [Fin 1; Fin 1; Fin 1] 1 3 1 2 (0, 0, 0) 2
  = Ok [[Fin 1; Fin 0]]
  /\ foldR (flashatt_step [Fin 0] [Fin 0; Fin 0; Fin 0] [Fin 1; Fin 1; Fin 1]
              1 3 1 2 (0, 0, 0))
       ([NInf], [Fin 0], [Fin 0]) (tl_range 0 3 2)
     = Ok ([Fin 0], [Fin 4], [Fin 3])
  /\ exists sums result,
       foldR (flashatt_step [Fin (-1)] [Fin 1; Fin 1; Fin 1] [Fin 1; Fin 1; Fin 1]
                1 3 1 2 (0, 0, 0))
         ([NInf], [Fin 0], [Fin 0]) (tl_range 0 3 2)
       = Ok ([Fin 0], sums, result).
Proof.
  split; [|split].
  - cbn. do 4 f_equal; [f_equal; lra|do 2 f_equal; lra].
  - cbn. rewrite !scale_inf_pos by lra. cbn.
    rewrite !Rmult_0_l, !Rmax_same, !(exp2_at_0 _ (0 + - 0)) by lra.
    do 3 f_equal; [|do 2 f_equal; lra]. do 3 f_equal. lra.
  - cbn. rewrite !scale_inf_pos by lra. cbn.
    replace (Rmax (Rmax (-1 * 1) (-1 * 1)) (Rmax (-1 * 1) (-1 * 0))) with 0%R.
    + eauto.
    + rewrite Rmax_same, (Rmax_right (-1 * 1) (-1 * 0)) by lra.
      rewrite Rmax_right by lra. lra.
Qed.


(** ** Launches that write part of the buffer *)

Lemma launch_frame_table {A} (g0 g1 g2 : nat) (kernel : pid -> result (list (write A)))
    (W : pid -> list (write A)) (g : nat -> A) (written : nat -> bool) (z : list A) :
  (forall c, c ∈ grid_cells g0 g1 g2 -> kernel c = Ok (W c)) ->
  (forall c w, c ∈ grid_cells g0 g1 g2 -> w ∈ W c ->
               w.1 < length z /\ w.2 = g w.1 /\ written w.1 = true) ->
  (forall q, q < length z -> written q = true ->
             exists c w, c ∈ grid_cells g0 g1 g2 /\ w ∈ W c /\ w.1 = q) ->
  launch g0 g1 g2 kernel z = Ok (imap (fun q v => if written q then g q else v) z).
Proof.
  intros Hk Hw Hcov. unfold launch, launch_writes.
  rewrite (mapR_ok _ W) by done. cbn.
  set (ws := concat (map W (grid_cells g0 g1 g2))).
  assert (Hin : forall w, w ∈ ws ->
            exists c, c ∈ grid_cells g0 g1 g2 /\ w ∈ W c).
  { intros w H. apply elem_of_concat in H as (l & H & Hl).
    apply list_elem_of_fmap in H as (c & -> & Hc). eauto. }
  assert (Hni : forall c w, c ∈ grid_cells g0 g1 g2 -> w ∈ W c -> w ∈ ws).
  { intros c w Hc H. apply elem_of_concat. exists (W c). split; [|done].
    by apply list_elem_of_fmap_2. }
  destruct (apply_writes_ok ws z) as (buf' & -> & Hlen & Hframe & Hval).
  { intros w H. destruct (Hin w H) as (c & Hc & H'). by apply (Hw c w). }
  f_equal. apply list_eq. intros i.
  rewrite list_lookup_imap.
  destruct (z !! i) as [v|] eqn:Ez.
  - simpl. pose proof (lookup_lt_Some _ _ _ Ez) as Hi.
    destruct (written i) eqn:Ewr.
    + apply Hval.
      * destruct (Hcov i Hi Ewr) as (c & w & Hc & H & E). exists w. eauto.
      * intros w H E. destruct (Hin w H) as (c & Hc & H').
        destruct (Hw c w Hc H') as (_ & -> & _). by rewrite E.
    + rewrite Hframe; [done|]. intros w H E.
      destruct (Hin w H) as (c & Hc & H').
      destruct (Hw c w Hc H') as (_ & _ & Hwr). rewrite E in Hwr. congruence.
  - simpl. apply lookup_ge_None. apply lookup_ge_None in Ez. lia.
Qed.

Lemma mapR_err_at {A B} (f : A -> result B) (e : error) (l : list A) :
  (exists a, a ∈ l /\ f a = Err e) ->
  (forall a e', a ∈ l -> f a = Err e' -> e' = e) ->
  mapR f l = Err e.
Proof.
  induction l as [|a l IH]; intros (b & Hb & Eb) Hall.
  - by apply elem_of_nil in Hb.
  - simpl. destruct (f a) as [v|e'] eqn:Ea.
    + rewrite bind_Ok. rewrite IH; [done| |].
      * apply elem_of_cons in Hb as [->|Hb]; [congruence|eauto].
      * intros c e' Hc. apply Hall. apply elem_of_cons; by right.
    + cbn. f_equal. apply (Hall a); [apply elem_of_cons; by left|done].
Qed.

Lemma load1_all_out {A} (other : A) (buf : list A) (xs : list nat) :
  (exists a, a ∈ xs /\ length buf <= a) ->
  load1 other buf xs (all_true xs) = Err OutOfBounds.
Proof.
  intros (a & Ha & Hlen). unfold load1, all_true.
  apply mapR_err_at.
  - exists (a, true). split.
    + rewrite <- (map_id xs) at 1. rewrite zip_with_map_same.
      apply list_elem_of_fmap. by exists a.
    + unfold load_at. simpl. by rewrite (proj2 (lookup_ge_None buf a)).
  - intros [i m] e' _. unfold load_at. simpl.
    destruct m; [|done]. destruct (buf !! i); [done|]. by intros [= <-].
Qed.

(** ** Puzzle 1 away from its design point *)

Lemma add_kernel_block (x : list R) (N0 B0 : nat) (p : pid) :
  B0 <= length x ->
  add_kernel x N0 B0 p
  = Ok (map (fun a => (a, (nth a x 0 + 10)%R)) (seq 0 B0)).
Proof.
  intros Hx. unfold add_kernel, arange. rewrite Nat.sub_0_r.
  rewrite load1_all by (intros a Ha; apply elem_of_seq in Ha; lia).
  rewrite bind_Ok, map_map. f_equal. unfold all_true.
  rewrite <- (map_id (seq 0 B0)) at 1. rewrite store1_map.
  induction (seq 0 B0) as [|a l IH]; [done|]. cbn. by rewrite <- IH.
Qed.

Lemma imap_prefix {A} (g : nat -> A) (n : nat) (z : list A) :
  n <= length z ->
  imap (fun q v => if q <? n then g q else v) z = map g (seq 0 n) ++ drop n z.
Proof.
  intros Hn. apply list_eq. intros i. rewrite list_lookup_imap.
  destruct (decide (i < n)) as [Hi|Hi].
  - rewrite lookup_app_l by (rewrite length_map, length_seq; lia).
    rewrite list_lookup_fmap, lookup_seq_lt by done.
    destruct (lookup_lt_is_Some_2 z i ltac:(lia)) as [v ->]. simpl.
    by destruct (Nat.ltb_spec i n); [|lia].
  - rewrite lookup_app_r by (rewrite length_map, length_seq; lia).
    rewrite length_map, length_seq, lookup_drop.
    replace (n + (i - n)) with i by lia.
    destruct (z !! i); [|done]. simpl.
    by destruct (Nat.ltb_spec i n); [lia|].
Qed.

(** X5: Puzzle 1 has no mask and does not read its program id: launched with a
    block that is shorter than the vector, every instance rewrites the first
    block and the rest of the output keeps what it held; with [B0 = N0] the
    output is the reference. *)
Theorem add_kernel_first_block (N0 B0 : nat) (x z : list R) :
  length x = N0 -> length z = N0 -> 0 < B0 -> B0 <= N0 ->
  launch1 N0 B0 (add_kernel x N0 B0) z = Ok (add_spec (take B0 x) ++ drop B0 z)
  /\ (B0 = N0 -> launch1 N0 B0 (add_kernel x N0 B0) z = Ok (add_spec x)).
Proof.
  intros Hx Hz HB0 HB.
  assert (E : launch1 N0 B0 (add_kernel x N0 B0) z
              = Ok (add_spec (take B0 x) ++ drop B0 z)).
  { unfold launch1.
    rewrite (launch_frame_table _ _ _ _
               (fun _ => map (fun a => (a, (nth a x 0 + 10)%R)) (seq 0 B0))
               (fun i => (nth i x 0 + 10)%R) (fun q => q <? B0)).
    - rewrite imap_prefix by lia. do 2 f_equal. unfold add_spec.
      rewrite <- (map_nth_seq (fun a => (a + 10)%R) 0%R (take B0 x)).
      rewrite length_take, Nat.min_l by lia.
      apply list_fmap_ext. intros i a Ha. apply lookup_seq in Ha as [E Ha].
      simpl in E. subst a. f_equal. rewrite !nth_lookup, lookup_take_lt by lia. done.
    - intros c _. apply add_kernel_block. lia.
    - intros c w _ Hw. apply list_elem_of_fmap in Hw as (a & -> & Ha).
      apply elem_of_seq in Ha. simpl. split; [lia|]. split; [done|].
      apply Nat.ltb_lt. lia.
    - intros q Hq Hw. apply Nat.ltb_lt in Hw.
      exists (0, 0, 0), (q, (nth q x 0 + 10)%R).
      split.
      { apply elem_of_grid_cells. simpl. split; [apply cdiv_pos; lia|].
        unfold cdiv. simpl. lia. }
      split; [|done]. apply list_elem_of_fmap. exists q.
      split; [done|]. apply elem_of_seq. lia. }
  split; [exact E|]. intros ->. rewrite E.
  rewrite <- Hx at 1. rewrite firstn_all.
  rewrite drop_ge by lia. by rewrite app_nil_r.
Qed.

Lemma add_kernel_first_block_witness :
  launch1 4 2 (add_kernel [1; 2; 3; 4]%R 4 2) [0; 0; 7; 8]%R
  = Ok (add_spec (take 2 [1; 2; 3; 4]%R) ++ drop 2 [0; 0; 7; 8]%R).
Proof.
  apply (add_kernel_first_block 4 2 [1; 2; 3; 4]%R [0; 0; 7; 8]%R);
    [reflexivity|reflexivity|lia|lia].
Defined.

(** X6: Puzzle 1 launched with a block longer than the vector reads past the end
    of its input: every instance, and the launch, fail out of bounds. *)
Theorem add_kernel_block_too_long (N0 B0 : nat) (x z : list R) :
  length x = N0 -> 0 < N0 -> N0 < B0 ->
  (forall p, add_kernel x N0 B0 p = Err OutOfBounds)
  /\ launch1 N0 B0 (add_kernel x N0 B0) z = Err OutOfBounds.
Proof.
  intros Hx HN HB.
  assert (Hk : forall p, add_kernel x N0 B0 p = Err OutOfBounds).
  { intros p. unfold add_kernel, arange. rewrite Nat.sub_0_r.
    rewrite load1_all_out; [done|]. exists N0.
    split; [apply elem_of_seq; lia|lia]. }
  split; [exact Hk|]. unfold launch1. apply launch_err; [|apply cdiv_pos; lia..|done].
  apply cdiv_pos; lia.
Qed.

Lemma add_kernel_block_too_long_witness :
  launch1 2 4 (add_kernel [1; 2]%R 2 4) [0; 0]%R = Err OutOfBounds.
Proof.
  apply (add_kernel_block_too_long 2 4 [1; 2]%R [0; 0]%R); [reflexivity|lia|lia].
Defined.

(** ** Puzzle 2: the blocked constant add *)

Lemma add_mask2_kernel_ok (x : list R) (N0 B0 : nat) (p : pid) :
  length x = N0 ->
  add_mask2_kernel x N0 B0 p
  = Ok (omap (fun a => let i := program_id 0 p * B0 + a in
                       if i <? N0 then Some (i, (nth i x 0 + 10)%R) else None)
             (seq 0 B0)).
Proof.
  intros Hx. unfold add_mask2_kernel, arange. rewrite Nat.sub_0_r, map_map.
  rewrite load1_map.
  2:{ intros a _ Ha. apply Nat.ltb_lt in Ha. lia. }
  rewrite bind_Ok, map_map, store1_map. f_equal. apply omap_ext'. intros a _.
  cbv zeta. by destruct (_ <? _).
Qed.

(** X7: Puzzle 2: for every vector and every positive block size, dividing the
    length or not, the launch of the masked kernel returns the reference
    [x + 10]. *)
Theorem add_mask2_kernel_correct (N0 B0 : nat) (x z : list R) :
  length x = N0 -> length z = N0 -> 0 < B0 ->
  launch1 N0 B0 (add_mask2_kernel x N0 B0) z = Ok (add2_spec x).
Proof.
  intros Hx Hz HB0. unfold launch1.
  rewrite (launch_table _ _ _ _
             (fun p => omap (fun a => let i := program_id 0 p * B0 + a in
                       if i <? N0 then Some (i, (nth i x 0 + 10)%R) else None)
                            (seq 0 B0))
             (fun i => (nth i x 0 + 10)%R)).
  - rewrite Hz, <- Hx. unfold add2_spec.
    by rewrite (map_nth_seq (fun a => (a + 10)%R) 0%R).
  - intros c _. by apply add_mask2_kernel_ok.
  - intros c w _ Hw. apply list_elem_of_omap in Hw as (a & _ & Hw). cbv zeta in Hw.
    destruct (Nat.ltb_spec (program_id 0 c * B0 + a) N0); [|done].
    inversion Hw; subst w. simpl in *. split; [lia|done].
  - intros q Hq. rewrite Hz in Hq.
    exists (q / B0, 0, 0), (q, (nth q x 0 + 10)%R). split; [|split; [|done]].
    + apply elem_of_grid_cells. simpl. split; [by apply div_lt_cdiv|].
      unfold cdiv. simpl. lia.
    + apply list_elem_of_omap. exists (q mod B0). cbn [program_id fst snd].
      pose proof (Nat.div_mod q B0 ltac:(lia)).
      pose proof (Nat.mod_upper_bound q B0 ltac:(lia)).
      split; [apply elem_of_seq; lia|]. cbv zeta.
      replace (q / B0 * B0 + q mod B0) with q by lia.
      destruct (Nat.ltb_spec q N0); [done|lia].
Qed.

Lemma add_mask2_kernel_correct_witness :
  launch1 3 2 (add_mask2_kernel [1; 2; 3]%R 3 2) [0; 0; 0]%R
  = Ok (add2_spec [1; 2; 3]%R).
Proof.
  apply (add_mask2_kernel_correct 3 2 [1; 2; 3]%R [0; 0; 0]%R);
    [reflexivity|reflexivity|lia].
Defined.


(** ** Outer products of two vectors, tile by tile *)

Lemma flat2_outer_seq_all {A} (g : nat -> nat -> A) (n m : nat) :
  flat2 (outer2 g (seq 0 n) (seq 0 m))
  = map (fun l => g (l / m) (l mod m)) (seq 0 (n * m)).
Proof.
  destruct m as [|m]; [|apply flat2_outer_seq; lia].
  rewrite Nat.mul_0_r. unfold flat2, outer2. simpl.
  induction (seq 0 n) as [|a l IH]; [done|]. simpl. exact IH.
Qed.

(** The broadcast of a row vector against a column vector, as torch forms
    it for [x[None, :]] and [y[:, None]]. *)
Lemma outer_spec_table (f : R -> R -> R) (x y : list R) :
  zip2 f (broadcast_to2 (length y) (length x) (expand_dims_0 x))
         (broadcast_to2 (length y) (length x) (expand_dims_1 y))
  = outer2 (fun j i => f (nth i x 0%R) (nth j y 0%R))
           (seq 0 (length y)) (seq 0 (length x)).
Proof.
  replace (expand_dims_0 x)
    with (expand_dims_0 (map (fun i => nth i x 0%R) (seq 0 (length x))))
    by (by rewrite (map_nth_seq (fun a => a) 0%R x), map_id).
  replace (expand_dims_1 y)
    with (expand_dims_1 (map (fun j => nth j y 0%R) (seq 0 (length y))))
    by (by rewrite (map_nth_seq (fun a => a) 0%R y), map_id).
  rewrite (bcast_cols_n _ _ _ (seq 0 (length y)) (seq 0 (length x)))
    by apply length_seq.
  rewrite (bcast_rows_n _ _ _ (seq 0 (length y)) (seq 0 (length x)))
    by apply length_seq.
  by rewrite zip2_outer.
Qed.

(** A launch over the [(cdiv N0 B0, cdiv N1 B1)] grid whose instances store
    a [B1 x B0] tile at [N0 * row + column] under the row and column
    bounds fills the [N1 x N0] output with the table of its values. *)
Lemma launch2_outer_table (g : nat -> nat -> R) (v : pid -> nat -> nat -> R)
    (N0 N1 B0 B1 : nat) (kernel : pid -> result (list (write R))) (z : list R) :
  0 < B0 -> 0 < B1 -> length z = N1 * N0 ->
  (forall p, kernel p
     = Ok (store2
             (outer2 (fun b a => N0 * (program_id 1 p * B1 + b)
                                 + (program_id 0 p * B0 + a))
                     (seq 0 B1) (seq 0 B0))
             (outer2 (v p) (seq 0 B1) (seq 0 B0))
             (outer2 (fun b a => (program_id 0 p * B0 + a <? N0)
                                 && (program_id 1 p * B1 + b <? N1))
                     (seq 0 B1) (seq 0 B0)))) ->
  (forall p b a, program_id 0 p * B0 + a < N0 -> program_id 1 p * B1 + b < N1 ->
     v p b a = g (program_id 1 p * B1 + b) (program_id 0 p * B0 + a)) ->
  launch2 N0 N1 B0 B1 kernel z = Ok (flat2 (outer2 g (seq 0 N1) (seq 0 N0))).
Proof.
  intros HB0 HB1 Hz Hk Hv. unfold launch2.
  rewrite (launch_table _ _ _ _
             (fun p => store2
                (outer2 (fun b a => N0 * (program_id 1 p * B1 + b)
                                    + (program_id 0 p * B0 + a))
                        (seq 0 B1) (seq 0 B0))
                (outer2 (v p) (seq 0 B1) (seq 0 B0))
                (outer2 (fun b a => (program_id 0 p * B0 + a <? N0)
                                    && (program_id 1 p * B1 + b <? N1))
                        (seq 0 B1) (seq 0 B0)))
             (fun q => g (q / N0) (q mod N0))).
  - by rewrite Hz, flat2_outer_seq_all.
  - intros c _. apply Hk.
  - intros c w _ Hw. apply elem_of_store2_outer in Hw as (b & a & _ & _ & Hm & ->).
    apply andb_true_iff in Hm as [Ha Hb]. apply Nat.ltb_lt in Ha, Hb.
    cbn [fst snd]. split.
    + rewrite Hz. pose proof (flat_idx2_lt _ _ _ _ Hb Ha). lia.
    + rewrite (Hv c b a Ha Hb).
      replace (N0 * (program_id 1 c * B1 + b) + (program_id 0 c * B0 + a))
        with ((program_id 0 c * B0 + a) + (program_id 1 c * B1 + b) * N0) by lia.
      rewrite Nat.div_add, Nat.Div0.mod_add by lia.
      by rewrite Nat.div_small, Nat.mod_small by lia.
  - intros q Hq. rewrite Hz in Hq.
    assert (HN0 : 0 < N0) by (destruct N0; lia).
    assert (Hj : q / N0 < N1) by (apply Nat.Div0.div_lt_upper_bound; lia).
    pose proof (Nat.mod_upper_bound q N0 ltac:(lia)) as Hi.
    pose proof (Nat.div_mod q N0 ltac:(lia)) as Eq.
    destruct (split_block (q mod N0) N0 B0 HB0 Hi) as (Hi1 & Hi2 & Hi3).
    destruct (split_block (q / N0) N1 B1 HB1 Hj) as (Hj1 & Hj2 & Hj3).
    exists (q mod N0 / B0, q / N0 / B1, 0).
    exists (q, v (q mod N0 / B0, q / N0 / B1, 0) ((q / N0) mod B1) ((q mod N0) mod B0)).
    split; [|split; [|done]].
    + apply elem_of_grid_cells. cbn [fst snd]. unfold cdiv at 3. simpl. lia.
    + apply elem_of_store2_outer. exists ((q / N0) mod B1), ((q mod N0) mod B0).
      rewrite !elem_of_seq. cbn [program_id fst snd].
      rewrite Hi3, Hj3. split; [lia|]. split; [lia|]. split.
      * apply andb_true_iff. split; apply Nat.ltb_lt; lia.
      * f_equal. lia.
Qed.

(** ** Puzzle 4: the blocked outer add *)

Lemma add_vec_block_kernel_ok (x y : list R) (N0 N1 B0 B1 : nat) (p : pid) :
  length x = N0 -> length y = N1 ->
  add_vec_block_kernel x y N0 N1 B0 B1 p
  = Ok (store2
          (outer2 (fun b a => N0 * (program_id 1 p * B1 + b)
                              + (program_id 0 p * B0 + a))
                  (seq 0 B1) (seq 0 B0))
          (outer2 (fun b a =>
                     ((if program_id 0 p * B0 + a <? N0
                       then nth (program_id 0 p * B0 + a) x 0 else 0)
                      + (if program_id 1 p * B1 + b <? N1
                         then nth (program_id 1 p * B1 + b) y 0 else 0))%R)
                  (seq 0 B1) (seq 0 B0))
          (outer2 (fun b a => (program_id 0 p * B0 + a <? N0)
                              && (program_id 1 p * B1 + b <? N1))
                  (seq 0 B1) (seq 0 B0))).
Proof.
  intros Hx Hy. unfold add_vec_block_kernel, arange. rewrite !Nat.sub_0_r, !map_map.
  rewrite !load1_map by (intros a _ Ha; apply Nat.ltb_lt in Ha; lia).
  rewrite bind_Ok. cbv beta zeta. rewrite bind_Ok. cbv beta zeta.
  rewrite !(bcast_rows_n _ _ _ (seq 0 B1) (seq 0 B0)) by apply length_seq.
  rewrite !(bcast_cols_n _ _ _ (seq 0 B1) (seq 0 B0)) by apply length_seq.
  by rewrite !zip2_outer.
Qed.

(** X9: Puzzle 4: for all vectors and all positive block sizes, dividing the
    lengths or not, the launch over the two-axis grid returns the
    reference table [x_i + y_j], row [j], column [i]. *)
Theorem add_vec_block_kernel_correct (N0 N1 B0 B1 : nat) (x y z : list R) :
  length x = N0 -> length y = N1 -> length z = N1 * N0 -> 0 < B0 -> 0 < B1 ->
  launch2 N0 N1 B0 B1 (add_vec_block_kernel x y N0 N1 B0 B1) z
  = Ok (flat2 (add_vec_block_spec x y)).
Proof.
  intros Hx Hy Hz HB0 HB1. unfold add_vec_block_spec.
  rewrite outer_spec_table, Hx, Hy.
  apply (launch2_outer_table _
           (fun p b a =>
              ((if program_id 0 p * B0 + a <? N0
                then nth (program_id 0 p * B0 + a) x 0 else 0)
               + (if program_id 1 p * B1 + b <? N1
                  then nth (program_id 1 p * B1 + b) y 0 else 0))%R)); try done.
  - intros p. by apply add_vec_block_kernel_ok.
  - intros p b a Ha Hb.
    destruct (Nat.ltb_spec (program_id 0 p * B0 + a) N0); [|lia].
    destruct (Nat.ltb_spec (program_id 1 p * B1 + b) N1); [|lia]. done.
Qed.

Lemma add_vec_block_kernel_correct_witness :
  launch2 3 2 2 2 (add_vec_block_kernel [1; 2; 3]%R [10; 20]%R 3 2 2 2)
    (replicate 6 0%R)
  = Ok (flat2 (add_vec_block_spec [1; 2; 3]%R [10; 20]%R)).
Proof.
  apply (add_vec_block_kernel_correct 3 2 2 2 [1; 2; 3]%R [10; 20]%R (replicate 6 0%R));
    [reflexivity|reflexivity|reflexivity|lia|lia].
Defined.

(** ** Puzzle 5: the fused outer multiplication *)

Lemma relu_gate (r : R) : (r * gt_zero r)%R = relu r.
Proof.
  unfold gt_zero, relu, Rmax.
  destruct (Rlt_dec 0 r), (Rle_dec r 0); lra.
Qed.

Lemma mul_relu_block_kernel_ok (x y : list R) (N0 N1 B0 B1 : nat) (p : pid) :
  length x = N0 -> length y = N1 ->
  mul_relu_block_kernel x y N0 N1 B0 B1 p
  = Ok (store2
          (outer2 (fun b a => N0 * (program_id 1 p * B1 + b)
                              + (program_id 0 p * B0 + a))
                  (seq 0 B1) (seq 0 B0))
          (outer2 (fun b a =>
                     relu ((if program_id 0 p * B0 + a <? N0
                            then nth (program_id 0 p * B0 + a) x 0 else 0)
                           * (if program_id 1 p * B1 + b <? N1
                              then nth (program_id 1 p * B1 + b) y 0 else 0))%R)
                  (seq 0 B1) (seq 0 B0))
          (outer2 (fun b a => (program_id 0 p * B0 + a <? N0)
                              && (program_id 1 p * B1 + b <? N1))
                  (seq 0 B1) (seq 0 B0))).
Proof.
  intros Hx Hy. unfold mul_relu_block_kernel, arange. rewrite !Nat.sub_0_r, !map_map.
  rewrite !load1_map by (intros a _ Ha; apply Nat.ltb_lt in Ha; lia).
  rewrite bind_Ok. cbv beta zeta. rewrite bind_Ok. cbv beta zeta.
  rewrite !(bcast_rows_n _ _ _ (seq 0 B1) (seq 0 B0)) by apply length_seq.
  rewrite !(bcast_cols_n _ _ _ (seq 0 B1) (seq 0 B0)) by apply length_seq.
  rewrite !zip2_outer, map2_outer. do 2 f_equal.
  apply outer2_ext. intros b a _ _. apply relu_gate.
Qed.




(** ** Puzzle 3: the outer add in one block *)

Lemma add_vec_kernel_ok (x y : list R) (N0 N1 B0 B1 : nat) (p : pid) :
  B0 <= length x -> B1 <= length y ->
  add_vec_kernel x y N0 N1 B0 B1 p
  = Ok (store2
          (outer2 (fun b a => B0 * b + a) (seq 0 B1) (seq 0 B0))
          (outer2 (fun b a => (nth a x 0 + nth b y 0)%R) (seq 0 B1) (seq 0 B0))
          (outer2 (fun _ _ => true) (seq 0 B1) (seq 0 B0))).
Proof.
  intros Hx Hy. unfold add_vec_kernel, arange. rewrite !Nat.sub_0_r.
  rewrite !load1_all by (intros a Ha; apply elem_of_seq in Ha; lia).
  rewrite bind_Ok. cbv beta zeta. rewrite bind_Ok. cbv beta zeta.
  replace (expand_dims_0 (seq 0 B0))
    with (expand_dims_0 (map (fun a : nat => a) (seq 0 B0))) by (by rewrite map_id).
  replace (expand_dims_1 (seq 0 B1))
    with (expand_dims_1 (map (fun a : nat => a) (seq 0 B1))) by (by rewrite map_id).
  rewrite !(bcast_rows_n _ _ _ (seq 0 B1) (seq 0 B0)) by apply length_seq.
  rewrite !(bcast_cols_n _ _ _ (seq 0 B1) (seq 0 B0)) by apply length_seq.
  by rewrite map2_outer, !zip2_outer, map_all_true_outer.
Qed.

(** X8: Puzzle 3: with the blocks as long as the vectors, the one instance of
    the launch returns the reference table [x_i + y_j], row [j], column
    [i]; a block longer than its vector reads out of bounds. *)
Theorem add_vec_kernel_correct (N0 N1 : nat) (x y z : list R) :
  length x = N0 -> length y = N1 -> length z = N1 * N0 -> 0 < N0 -> 0 < N1 ->
  launch2 N0 N1 N0 N1 (add_vec_kernel x y N0 N1 N0 N1) z
  = Ok (flat2 (add_vec_spec x y))
  /\ (forall B0 B1 p, N0 < B0 \/ N1 < B1 ->
        add_vec_kernel x y N0 N1 B0 B1 p = Err OutOfBounds).
Proof.
  intros Hx Hy Hz HN0 HN1. split.
  - unfold add_vec_spec. rewrite outer_spec_table, Hx, Hy. unfold launch2.
    rewrite (launch_table _ _ _ _
               (fun _ => store2
                  (outer2 (fun b a => N0 * b + a) (seq 0 N1) (seq 0 N0))
                  (outer2 (fun b a => (nth a x 0 + nth b y 0)%R) (seq 0 N1) (seq 0 N0))
                  (outer2 (fun _ _ => true) (seq 0 N1) (seq 0 N0)))
               (fun q => (nth (q mod N0) x 0 + nth (q / N0) y 0)%R)).
    + by rewrite Hz, flat2_outer_seq_all.
    + intros c _. apply add_vec_kernel_ok; lia.
    + intros c w _ Hw. apply elem_of_store2_outer in Hw as (b & a & Hb & Ha & _ & ->).
      apply elem_of_seq in Ha, Hb. cbn [fst snd]. split.
      * rewrite Hz. pose proof (flat_idx2_lt b a N1 N0 ltac:(lia) ltac:(lia)). lia.
      * replace (N0 * b + a) with (a + b * N0) by lia.
        rewrite Nat.div_add, Nat.Div0.mod_add by lia.
        by rewrite Nat.div_small, Nat.mod_small by lia.
    + intros q Hq. rewrite Hz in Hq.
      assert (Hj : q / N0 < N1) by (apply Nat.Div0.div_lt_upper_bound; lia).
      pose proof (Nat.mod_upper_bound q N0 ltac:(lia)) as Hi.
      pose proof (Nat.div_mod q N0 ltac:(lia)) as Eq.
      exists (0, 0, 0), (q, (nth (q mod N0) x 0 + nth (q / N0) y 0)%R).
      split; [|split; [|done]].
      * apply elem_of_grid_cells. cbn [fst snd].
        split; [apply cdiv_pos; lia|]. split; [apply cdiv_pos; lia|].
        unfold cdiv. simpl. lia.
      * apply elem_of_store2_outer. exists (q / N0), (q mod N0).
        rewrite !elem_of_seq. split; [lia|]. split; [lia|]. split; [done|].
        f_equal. lia.
  - intros B0 B1 p HB. unfold add_vec_kernel, arange. rewrite !Nat.sub_0_r.
    destruct (decide (N0 < B0)) as [H0|H0].
    + rewrite (load1_all_out 0%R x); [done|].
      exists N0. split; [apply elem_of_seq; lia|lia].
    + rewrite (load1_all 0%R x) by (intros a Ha; apply elem_of_seq in Ha; lia).
      rewrite bind_Ok. cbv beta zeta.
      rewrite (load1_all_out 0%R y); [done|].
      exists N1. split; [apply elem_of_seq; lia|lia].
Qed.

Lemma add_vec_kernel_correct_witness :
  launch2 3 2 3 2 (add_vec_kernel [1; 2; 3]%R [10; 20]%R 3 2 3 2) (replicate 6 0%R)
  = Ok (flat2 (add_vec_spec [1; 2; 3]%R [10; 20]%R)).
Proof.
  apply (add_vec_kernel_correct 3 2 [1; 2; 3]%R [10; 20]%R (replicate 6 0%R));
    [reflexivity|reflexivity|reflexivity|lia|lia].
Defined.

(** ** Puzzle 6: the backward pass of the fused outer multiplication *)

Lemma mul_relu_block_back_spec_table (N0 N1 : nat) (x : list (list R)) (y : list R)
    (dz : list (list R)) :
  shape2 N1 N0 x -> length y = N1 -> shape2 N1 N0 dz ->
  mul_relu_block_back_spec x y dz
  = outer2 (fun j i =>
              ((if Rlt_dec 0 (nth i (nth j x []) 0 * nth j y 0)
                then nth i (nth j dz []) 0 else 0) * nth j y 0)%R)
           (seq 0 N1) (seq 0 N0).
Proof.
  intros Hx Hy Hdz. unfold mul_relu_block_back_spec.
  destruct N1 as [|N1].
  { destruct Hx as [Hx _]. by destruct x. }
  assert (Hhd : length (hd [] x) = N0).
  { destruct Hx as [Hl Hx]. destruct x as [|r x]; [done|]. simpl.
    by inversion Hx. }
  rewrite Hhd. destruct Hx as [Hlen Hx']. rewrite Hlen.
  assert (Hx : shape2 (S N1) N0 x) by done.
  replace (expand_dims_1 y)
    with (expand_dims_1 (map (fun j => nth j y 0%R) (seq 0 (S N1))))
    by (by rewrite <- Hy, (map_nth_seq (fun a => a) 0%R y), map_id).
  rewrite (bcast_rows_n _ _ _ (seq 0 (S N1)) (seq 0 N0)) by apply length_seq.
  rewrite (shape2_table 0%R _ _ x Hx) at 1.
  rewrite (shape2_table 0%R _ _ dz Hdz) at 1.
  by rewrite !zip2_outer.
Qed.

Lemma mul_relu_block_back_kernel_ok (x : list (list R)) (y : list R)
    (dz : list (list R)) (N0 N1 B0 B1 : nat) (p : pid) :
  shape2 N1 N0 x -> length y = N1 -> shape2 N1 N0 dz ->
  mul_relu_block_back_kernel (flat2 x) y (flat2 dz) N0 N1 B0 B1 p
  = Ok (store2
          (outer2 (fun b a => N0 * (program_id 1 p * B1 + b)
                              + (program_id 0 p * B0 + a))
                  (seq 0 B1) (seq 0 B0))
          (outer2 (fun b a =>
             let m := (program_id 0 p * B0 + a <? N0)
                      && (program_id 1 p * B1 + b <? N1) in
             let q := N0 * (program_id 1 p * B1 + b) + (program_id 0 p * B0 + a) in
             let yv := if program_id 1 p * B1 + b <? N1
                       then nth (program_id 1 p * B1 + b) y 0%R else 0%R in
             ((if m then nth q (flat2 dz) 0 else 0)
              * gt_zero ((if m then nth q (flat2 x) 0 else 0) * yv) * yv)%R)
                  (seq 0 B1) (seq 0 B0))
          (outer2 (fun b a => (program_id 0 p * B0 + a <? N0)
                              && (program_id 1 p * B1 + b <? N1))
                  (seq 0 B1) (seq 0 B0))).
Proof.
  intros Hx Hy Hdz. unfold mul_relu_block_back_kernel, arange.
  rewrite !Nat.sub_0_r, !map_map.
  rewrite !(bcast_rows_n _ _ _ (seq 0 B1) (seq 0 B0)) by apply length_seq.
  rewrite !(bcast_cols_n _ _ _ (seq 0 B1) (seq 0 B0)) by apply length_seq.
  rewrite map2_outer, !zip2_outer.
  assert (Hidx : forall b a : nat,
            (program_id 0 p * B0 + a <? N0) && (program_id 1 p * B1 + b <? N1) = true ->
            N0 * (program_id 1 p * B1 + b) + (program_id 0 p * B0 + a) < N1 * N0).
  { intros b a Hm. apply andb_true_iff in Hm as [Ha Hb]. apply Nat.ltb_lt in Ha, Hb.
    pose proof (flat_idx2_lt _ _ _ _ Hb Ha). lia. }
  rewrite !load2_outer.
  2:{ intros b a _ _ Hm. rewrite (length_flat2 N1 N0) by done. by apply Hidx. }
  2:{ intros b a _ _ Hm. rewrite (length_flat2 N1 N0) by done. by apply Hidx. }
  rewrite load1_map by (intros a _ Ha; apply Nat.ltb_lt in Ha; lia).
  rewrite bind_Ok. cbv beta zeta. rewrite bind_Ok. cbv beta zeta.
  rewrite bind_Ok. cbv beta zeta.
  rewrite !(bcast_rows_n _ _ _ (seq 0 B1) (seq 0 B0)) by apply length_seq.
  by rewrite !zip2_outer, map2_outer, !zip2_outer.
Qed.

(** X11: Puzzle 6: for all inputs and all positive block sizes the launch
    returns the reference gradient: [dz] where [x * y] is positive, zero
    elsewhere, times [y]. *)
Theorem mul_relu_block_back_kernel_correct (N0 N1 B0 B1 : nat)
    (x : list (list R)) (y : list R) (dz : list (list R)) (z : list R) :
  shape2 N1 N0 x -> length y = N1 -> shape2 N1 N0 dz -> length z = N1 * N0 ->
  0 < B0 -> 0 < B1 ->
  launch2 N0 N1 B0 B1 (mul_relu_block_back_kernel (flat2 x) y (flat2 dz) N0 N1 B0 B1) z
  = Ok (flat2 (mul_relu_block_back_spec x y dz)).
Proof.
  intros Hx Hy Hdz Hz HB0 HB1.
  rewrite (mul_relu_block_back_spec_table N0 N1) by done.
  apply (launch2_outer_table _
           (fun p b a =>
             let m := (program_id 0 p * B0 + a <? N0)
                      && (program_id 1 p * B1 + b <? N1) in
             let q := N0 * (program_id 1 p * B1 + b) + (program_id 0 p * B0 + a) in
             let yv := if program_id 1 p * B1 + b <? N1
                       then nth (program_id 1 p * B1 + b) y 0%R else 0%R in
             ((if m then nth q (flat2 dz) 0 else 0)
              * gt_zero ((if m then nth q (flat2 x) 0 else 0) * yv) * yv)%R));
    try done.
  - intros p. by apply mul_relu_block_back_kernel_ok.
  - intros p b a Ha Hb. cbv zeta.
    destruct (Nat.ltb_spec (program_id 0 p * B0 + a) N0); [|lia].
    destruct (Nat.ltb_spec (program_id 1 p * B1 + b) N1); [|lia]. cbn [andb].
    replace (N0 * (program_id 1 p * B1 + b) + (program_id 0 p * B0 + a))
      with ((program_id 1 p * B1 + b) * N0 + (program_id 0 p * B0 + a)) by lia.
    rewrite !(nth_flat2 N1 N0) by done.
    unfold gt_zero. destruct (Rlt_dec 0 _); lra.
Qed.

Lemma mul_relu_block_back_kernel_correct_witness :
  launch2 2 2 1 2
    (mul_relu_block_back_kernel (flat2 [[1; -2]; [3; 4]]%R) [5; -6]%R
       (flat2 [[1; 1]; [1; 1]]%R) 2 2 1 2) (replicate 4 0%R)
  = Ok (flat2 (mul_relu_block_back_spec [[1; -2]; [3; 4]]%R [5; -6]%R
                 [[1; 1]; [1; 1]]%R)).
Proof.
  apply (mul_relu_block_back_kernel_correct 2 2 1 2 [[1; -2]; [3; 4]]%R [5; -6]%R
           [[1; 1]; [1; 1]]%R (replicate 4 0%R)).
  - split; [reflexivity|]. repeat constructor.
  - reflexivity.
  - split; [reflexivity|]. repeat constructor.
  - reflexivity.
  - lia.
  - lia.
Defined.

(** X12: The reference gradient is the chain rule: at every entry where
    [x * y] is not zero it is [dz] times the derivative of
    [t => relu (t * y)] at [x]; where [x * y] is zero it is zero. *)
Theorem mul_relu_block_back_spec_gradient (N0 N1 : nat)
    (x : list (list R)) (y : list R) (dz : list (list R)) (j i : nat) :
  shape2 N1 N0 x -> length y = N1 -> shape2 N1 N0 dz -> j < N1 -> i < N0 ->
  let xv := nth i (nth j x []) 0%R in
  let yv := nth j y 0%R in
  let dx := nth i (nth j (mul_relu_block_back_spec x y dz) []) 0%R in
  ((xv * yv)%R <> 0%R ->
     exists d, derivable_pt_lim (fun t => relu (t * yv)) xv d
               /\ dx = (nth i (nth j dz []) 0 * d)%R)
  /\ ((xv * yv)%R = 0%R -> dx = 0%R).
Proof.
  intros Hx Hy Hdz Hj Hi xv yv dx. subst dx.
  rewrite (mul_relu_block_back_spec_table N0 N1) by done.
  rewrite nth_outer2_seq by done. fold xv yv. split.
  - intros Hu. destruct (Rlt_dec 0 (xv * yv)) as [Hpos|Hneg].
    + exists yv. split; [|done].
      assert (Hy0 : yv <> 0%R) by (intros E; rewrite E in Hpos; lra).
      intros eps Heps.
      assert (Hd : (0 < xv * yv / Rabs yv)%R).
      { apply Rdiv_lt_0_compat; [done|]. by apply Rabs_pos_lt. }
      exists (mkposreal _ Hd). intros h Hh Hlt. simpl in Hlt.
      assert (Hhy : (Rabs (h * yv) < xv * yv)%R).
      { rewrite Rabs_mult.
        apply (Rmult_lt_compat_r (Rabs yv)) in Hlt; [|by apply Rabs_pos_lt].
        unfold Rdiv in Hlt. rewrite Rmult_assoc, Rinv_l, Rmult_1_r in Hlt; [done|].
        by apply Rabs_no_R0. }
      apply Rabs_def2 in Hhy as [Hh1 Hh2].
      unfold relu. rewrite !Rmax_left by lra.
      replace (((xv + h) * yv - xv * yv) / h - yv)%R with 0%R by (field; done).
      by rewrite Rabs_R0.
    + exists 0%R. split; [|lra].
      assert (Hneg' : (xv * yv < 0)%R) by lra.
      assert (Hy0 : yv <> 0%R) by (intros E; rewrite E in Hneg'; lra).
      intros eps Heps.
      assert (Hd : (0 < - (xv * yv) / Rabs yv)%R).
      { apply Rdiv_lt_0_compat; [lra|]. by apply Rabs_pos_lt. }
      exists (mkposreal _ Hd). intros h Hh Hlt. simpl in Hlt.
      assert (Hhy : (Rabs (h * yv) < - (xv * yv))%R).
      { rewrite Rabs_mult.
        apply (Rmult_lt_compat_r (Rabs yv)) in Hlt; [|by apply Rabs_pos_lt].
        unfold Rdiv in Hlt. rewrite Rmult_assoc, Rinv_l, Rmult_1_r in Hlt; [done|].
        by apply Rabs_no_R0. }
      apply Rabs_def2 in Hhy as [Hh1 Hh2].
      unfold relu. rewrite !Rmax_right by lra.
      replace ((0 - 0) / h - 0)%R with 0%R by (field; done).
      by rewrite Rabs_R0.
  - intros Hu. rewrite Hu. destruct (Rlt_dec 0 0); lra.
Qed.

Lemma mul_relu_block_back_spec_gradient_witness :
  exists d, derivable_pt_lim (fun t => relu (t * 5)) 1 d
            /\ nth 0 (nth 0 (mul_relu_block_back_spec [[1; -2]; [3; 4]]%R [5; -6]%R
                               [[1; 1]; [1; 1]]%R) []) 0%R
               = (1 * d)%R.
Proof.
  apply (mul_relu_block_back_spec_gradient 2 2 [[1; -2]; [3; 4]]%R [5; -6]%R
           [[1; 1]; [1; 1]]%R 0 0).
  - split; [reflexivity|]. repeat constructor.
  - reflexivity.
  - split; [reflexivity|]. repeat constructor.
  - lia.
  - lia.
  - simpl. lra.
Defined.


(** ** Row-major tiles over a two-axis grid *)

(** A launch over the [(cdiv N0 B0, cdiv N1 B1)] grid whose instances store
    a [B0 x B1] tile at [row * N1 + column] under the row and column
    bounds fills the [N0 x N1] output with the table of its values. *)
Lemma launch_rows_table (g : nat -> nat -> R) (v : pid -> nat -> nat -> R)
    (N0 N1 B0 B1 : nat) (kernel : pid -> result (list (write R))) (z : list R) :
  0 < B0 -> 0 < B1 -> length z = N0 * N1 ->
  (forall p, kernel p
     = Ok (store2
             (outer2 (fun ib jn => (program_id 0 p * B0 + ib) * N1
                                   + (program_id 1 p * B1 + jn))
                     (seq 0 B0) (seq 0 B1))
             (outer2 (v p) (seq 0 B0) (seq 0 B1))
             (outer2 (fun ib jn => (program_id 0 p * B0 + ib <? N0)
                                   && (program_id 1 p * B1 + jn <? N1))
                     (seq 0 B0) (seq 0 B1)))) ->
  (forall p ib jn, program_id 0 p * B0 + ib < N0 -> program_id 1 p * B1 + jn < N1 ->
     v p ib jn = g (program_id 0 p * B0 + ib) (program_id 1 p * B1 + jn)) ->
  launch (cdiv N0 B0) (cdiv N1 B1) (cdiv 1 1) kernel z
  = Ok (flat2 (outer2 g (seq 0 N0) (seq 0 N1))).
Proof.
  intros HB0 HB1 Hz Hk Hv.
  rewrite (launch_table _ _ _ _
             (fun p => store2
                (outer2 (fun ib jn => (program_id 0 p * B0 + ib) * N1
                                      + (program_id 1 p * B1 + jn))
                        (seq 0 B0) (seq 0 B1))
                (outer2 (v p) (seq 0 B0) (seq 0 B1))
                (outer2 (fun ib jn => (program_id 0 p * B0 + ib <? N0)
                                      && (program_id 1 p * B1 + jn <? N1))
                        (seq 0 B0) (seq 0 B1)))
             (fun q => g (q / N1) (q mod N1))).
  - by rewrite Hz, flat2_outer_seq_all.
  - intros c _. apply Hk.
  - intros c w _ Hw. apply elem_of_store2_outer in Hw as (ib & jn & _ & _ & Hm & ->).
    apply andb_true_iff in Hm as [Ha Hb]. apply Nat.ltb_lt in Ha, Hb.
    cbn [fst snd]. split.
    + rewrite Hz. by apply flat_idx2_lt.
    + rewrite (Hv c ib jn Ha Hb).
      replace ((program_id 0 c * B0 + ib) * N1 + (program_id 1 c * B1 + jn))
        with ((program_id 1 c * B1 + jn) + (program_id 0 c * B0 + ib) * N1) by lia.
      rewrite Nat.div_add, Nat.Div0.mod_add by lia.
      by rewrite Nat.div_small, Nat.mod_small by lia.
  - intros q Hq. rewrite Hz in Hq.
    assert (HN1 : 0 < N1) by (destruct N1; lia).
    assert (Hi : q / N1 < N0) by (apply Nat.Div0.div_lt_upper_bound; lia).
    pose proof (Nat.mod_upper_bound q N1 ltac:(lia)) as Hj.
    pose proof (Nat.div_mod q N1 ltac:(lia)) as Eq.
    destruct (split_block (q / N1) N0 B0 HB0 Hi) as (Hi1 & Hi2 & Hi3).
    destruct (split_block (q mod N1) N1 B1 HB1 Hj) as (Hj1 & Hj2 & Hj3).
    exists (q / N1 / B0, q mod N1 / B1, 0).
    exists (q, v (q / N1 / B0, q mod N1 / B1, 0) ((q / N1) mod B0) ((q mod N1) mod B1)).
    split; [|split; [|done]].
    + apply elem_of_grid_cells. cbn [fst snd]. unfold cdiv at 3. simpl. lia.
    + apply elem_of_store2_outer. exists ((q / N1) mod B0), ((q mod N1) mod B1).
      rewrite !elem_of_seq. cbn [program_id fst snd].
      rewrite Hi3, Hj3. split; [lia|]. split; [lia|]. split.
      * apply andb_true_iff. split; apply Nat.ltb_lt; lia.
      * f_equal. lia.
Qed.

(** ** Puzzle 12 in the reference configuration *)

Lemma quant_dot_kernel_tile (scale : list R) (offset weight : list Z)
    (activation : list R) (N0 N1 B0 B1 : nat) (p : pid) :
  length scale = N0 * 8 -> length offset = N0 -> length weight = N0 * 8 ->
  length activation = 64 * N1 ->
  quant_dot_kernel scale offset weight activation N0 N1 64 B0 B1 64 p
  = Ok (store2
          (outer2 (fun ib jn => (program_id 0 p * B0 + ib) * N1
                                + (program_id 1 p * B1 + jn))
                  (seq 0 B0) (seq 0 B1))
          (outer2 (fun ib jn =>
                     (0 + Rsum (map (fun l =>
                        (quant_dequant_entry scale offset weight N0 64 B0 64 p 0 ib l
                         * quant_act_entry activation N1 64 B1 p 0 l jn)%R)
                        (seq 0 64)))%R)
                  (seq 0 B0) (seq 0 B1))
          (outer2 (fun ib jn => (program_id 0 p * B0 + ib <? N0)
                                && (program_id 1 p * B1 + jn <? N1))
                  (seq 0 B0) (seq 0 B1))).
Proof.
  intros Hs Ho Hw Ha. unfold quant_dot_kernel.
  rewrite quant_static_asserts_ok, bind_Ok by done.
  change (tl_range 0 64 64) with [0]. cbn [foldR].
  assert (Ho' : length offset = N0 * (64 / GROUP / FPINT)).
  { rewrite Ho. change (64 / GROUP / FPINT) with 1. lia. }
  rewrite (quant_dequant_ok _ _ _ activation N0 N1 64 B0 B1 64), bind_Ok;
    try first [done | lia | reflexivity].
  rewrite (quant_load_act_ok scale offset weight activation N0 N1 64 B0 B1 64), bind_Ok;
    try first [done | lia | reflexivity].
  unfold arange. rewrite !Nat.sub_0_r, !map_map.
  rewrite !(bcast_rows_n _ _ _ (seq 0 B0) (seq 0 B1)) by apply length_seq.
  rewrite !(bcast_cols_n _ _ _ (seq 0 B0) (seq 0 B1)) by apply length_seq.
  rewrite map2_outer, !zip2_outer, dot2_outer by done.
  replace (replicate B0 (replicate B1 0%R))
    with (outer2 (fun _ _ : nat => 0%R) (seq 0 B0) (seq 0 B1)).
  2:{ unfold outer2. rewrite <- (replicate_seq _ 0 B1). by rewrite <- (replicate_seq _ 0 B0). }
  by rewrite zip2_outer.
Qed.

Lemma quant_dequant_entry_spec (N0 B0 : nat) (p : pid)
    (scale : list (list R)) (offset : list Z) (weight : list (list Z)) (ib l : nat) :
  shape2 N0 8 scale -> shape2 N0 8 weight ->
  program_id 0 p * B0 + ib < N0 -> l < 64 ->
  quant_dequant_entry (flat2 scale) offset (flat2 weight) N0 64 B0 64 p 0 ib l
  = (nth (l / 8) (nth (program_id 0 p * B0 + ib) scale []) 0
     * IZR (nth (l mod 8)
              (extract (nth (l / 8) (nth (program_id 0 p * B0 + ib) weight []) 0%Z)) 0%Z
            - nth (l / 8) (extract (nth (program_id 0 p * B0 + ib) offset 0%Z)) 0%Z))%R.
Proof.
  intros Hs Hw Hm Hl.
  assert (Hl8 : l / 8 < 8) by (apply Nat.Div0.div_lt_upper_bound; lia).
  assert (Hl64 : l / 8 / 8 = 0) by (apply Nat.div_small; lia).
  assert (Hmod : l mod 8 < 8) by (apply Nat.mod_upper_bound; lia).
  unfold quant_dequant_entry, quant_scale_entry, quant_weight_entry,
    quant_offset_entry. cbv zeta.
  rewrite FPINT_eq, GROUP_eq. change (64 / 8) with 8. change (8 / 8) with 1.
  change (0 / 8) with 0. rewrite !Nat.add_0_l, Hl64, Nat.add_0_r, Nat.mul_1_r.
  destruct (Nat.ltb_spec (program_id 0 p * B0 + ib) N0); [|lia].
  destruct (Nat.ltb_spec (l / 8) 8); [|lia]. cbn [andb].
  change (0 <? 1) with true. cbv iota.
  rewrite (nth_flat2 N0 8 scale), (nth_flat2 N0 8 weight) by done.
  destruct (quant_lane_extract
              (nth (l / 8) (nth (program_id 0 p * B0 + ib) weight []) 0%Z) (l mod 8))
    as (_ & -> & _); [by rewrite FPINT_eq|].
  destruct (quant_lane_extract (nth (program_id 0 p * B0 + ib) offset 0%Z) (l / 8))
    as (_ & -> & _); [by rewrite FPINT_eq|].
  done.
Qed.

(** X25: Puzzle 12 in the configuration the kernel is written for
    ([MID = B_MID = 64], one offset word and eight scales per row): for all
    row and column counts and all positive block sizes the launch returns
    the reference product of the dequantized weights with the
    activations. *)
Theorem quant_dot_kernel_correct (N0 N1 B0 B1 : nat)
    (scale : list (list R)) (offset : list Z) (weight : list (list Z))
    (activation : list (list R)) (z : list R) :
  shape2 N0 8 scale -> length offset = N0 -> shape2 N0 8 weight ->
  shape2 64 N1 activation -> length z = N0 * N1 -> 0 < B0 -> 0 < B1 ->
  run_quant_dot N0 N1 64 B0 B1 64 scale offset weight activation z
  = Ok (flat2 (quant_dot_spec scale offset weight activation)).
Proof.
  intros Hs Ho Hw Ha Hz HB0 HB1. unfold run_quant_dot, quant_dot_spec.
  rewrite (quant_dequant_spec_table N0) by done.
  rewrite (shape2_table 0%R 64 N1 activation Ha) at 2.
  rewrite dot2_outer by done.
  apply (launch_rows_table _
           (fun p ib jn =>
              (0 + Rsum (map (fun l =>
                 (quant_dequant_entry (flat2 scale) offset (flat2 weight)
                    N0 64 B0 64 p 0 ib l
                  * quant_act_entry (flat2 activation) N1 64 B1 p 0 l jn)%R)
                 (seq 0 64)))%R)); try done.
  - intros p. apply quant_dot_kernel_tile; try done; by apply length_flat2.
  - intros p ib jn Hi Hj. rewrite Rplus_0_l. apply Rsum_ext. intros l Hl.
    apply elem_of_seq in Hl.
    rewrite (quant_dequant_entry_spec N0) by (done || lia). f_equal.
    unfold quant_act_entry. rewrite Nat.add_0_l.
    destruct (Nat.ltb_spec l 64); [|lia].
    destruct (Nat.ltb_spec (program_id 1 p * B1 + jn) N1); [|lia]. cbn [andb].
    by rewrite (nth_flat2 64 N1).
Qed.

Lemma quant_dot_kernel_correct_witness :
  run_quant_dot 1 1 64 1 1 64 [replicate 8 1%R] [0%Z] [replicate 8 0%Z]
    (replicate 64 [1%R]) [0%R]
  = Ok (flat2 (quant_dot_spec [replicate 8 1%R] [0%Z] [replicate 8 0%Z]
                 (replicate 64 [1%R]))).
Proof.
  apply (quant_dot_kernel_correct 1 1 1 1 [replicate 8 1%R] [0%Z] [replicate 8 0%Z]
           (replicate 64 [1%R]) [0%R]).
  - split; [reflexivity|]. repeat constructor.
  - reflexivity.
  - split; [reflexivity|]. repeat constructor.
  - split; [reflexivity|]. repeat constructor.
  - reflexivity.
  - lia.
  - lia.
Defined.


(** ** Packing and unpacking 4-bit fields *)

Lemma extract_fields (w : Z) :
  extract w = map (fun i => ((w / 16 ^ Z.of_nat i) mod 16)%Z) (seq 0 8).
Proof.
  unfold extract, arange. rewrite map_map. apply list_fmap_ext. intros _ i _.
  change (2 ^ 4 - 1)%Z with (Z.ones 4).
  rewrite Z.land_ones, Z.shiftr_div_pow2 by lia.
  change (2 ^ 4)%Z with 16%Z. do 2 f_equal.
  rewrite Nat2Z.inj_mul, Z.mul_comm. change (Z.of_nat 4) with 4%Z.
  rewrite Z.pow_mul_r by lia. done.
Qed.

(** X24: [extract] loses nothing of a 32-bit word and reads nothing above it:
    packing the eight fields of any integer gives back its low 32 bits, so
    a word of [0, 2^32) is recovered exactly and a negative [int32] has the
    fields of its two's complement; and eight fields of [0, 16) packed into
    a word are the fields [extract] returns. *)
Theorem extract_pack_round_trip :
  (forall w : Z, pack_fields (extract w) = (w mod 2 ^ 32)%Z)
  /\ (forall w : Z, extract (w mod 2 ^ 32) = extract w)
  /\ (forall fields : list Z,
        length fields = 8 -> Forall (fun f => (0 <= f < 16)%Z) fields ->
        extract (pack_fields fields) = fields).
Proof.
  split; [|split].
  - intros w. rewrite extract_fields. cbn [seq map pack_fields foldr Z.of_nat].
    change (Z.pos (Pos.of_succ_nat 0)) with 1%Z.
    change (16 ^ 0)%Z with 1%Z. change (16 ^ 1)%Z with 16%Z.
    change (16 ^ Z.of_nat 2)%Z with 256%Z.
    change (16 ^ Z.of_nat 3)%Z with 4096%Z.
    change (16 ^ Z.of_nat 4)%Z with 65536%Z.
    change (16 ^ Z.of_nat 5)%Z with 1048576%Z.
    change (16 ^ Z.of_nat 6)%Z with 16777216%Z.
    change (16 ^ Z.of_nat 7)%Z with 268435456%Z.
    change (2 ^ 32)%Z with 4294967296%Z.
    Z.div_mod_to_equations. lia.
  - intros w. rewrite !extract_fields. apply list_fmap_ext. intros j i Hi.
    apply lookup_seq in Hi as [-> Hi]. simpl in Hi.
    do 8 (destruct j as [|j]; [cbn; Z.div_mod_to_equations; lia|]). lia.
  - intros fields Hlen Hf.
    do 8 (destruct fields as [|? fields]; [done|]).
    destruct fields; [|done]. clear Hlen.
    repeat match goal with
           | H : Forall _ (_ :: _) |- _ => apply Forall_cons in H as [? H]
           end.
    rewrite extract_fields. cbn [seq map pack_fields foldr].
    repeat f_equal; cbn; Z.div_mod_to_equations; lia.
Qed.

Lemma extract_pack_round_trip_witness :
  extract (pack_fields [1; 2; 3; 4; 5; 6; 7; 8]%Z) = [1; 2; 3; 4; 5; 6; 7; 8]%Z.
Proof.
  apply (proj2 (proj2 extract_pack_round_trip));
    [reflexivity|repeat constructor; lia].
Defined.


(** ** Maxima and sums of rows of reals *)

Lemma Rmaxl_cons (a : R) (l : list R) :
  l <> [] -> Rmaxl (a :: l) = Rmax a (Rmaxl l).
Proof. by destruct l. Qed.

Lemma Rmaxl_app (l1 l2 : list R) :
  l1 <> [] -> l2 <> [] -> Rmaxl (l1 ++ l2) = Rmax (Rmaxl l1) (Rmaxl l2).
Proof.
  intros H1 H2. induction l1 as [|a l1 IH]; [done|].
  destruct l1 as [|b l1].
  - simpl app. by rewrite Rmaxl_cons.
  - rewrite <- app_comm_cons, !Rmaxl_cons by done.
    rewrite IH by done. by rewrite Rmax_assoc.
Qed.

Lemma Rmaxl_ge (l : list R) (a : R) : a ∈ l -> (a <= Rmaxl l)%R.
Proof.
  induction l as [|b l IH]; intros H; [by apply elem_of_nil in H|].
  destruct l as [|c l].
  - apply list_elem_of_singleton in H. subst. simpl. lra.
  - rewrite Rmaxl_cons by done. apply elem_of_cons in H as [->|H].
    + apply Rmax_l.
    + etransitivity; [by apply IH|]. apply Rmax_r.
Qed.

Lemma Rmaxl_shift (c : R) (l : list R) :
  l <> [] -> Rmaxl (map (fun a => (a + c)%R) l) = (Rmaxl l + c)%R.
Proof.
  intros H. induction l as [|a l IH]; [done|].
  destruct l as [|b l]; [done|].
  change (map _ (a :: b :: l)) with ((a + c)%R :: map (fun a => (a + c)%R) (b :: l)).
  rewrite !Rmaxl_cons by done. rewrite IH by done.
  unfold Rmax. destruct (Rle_dec _ _), (Rle_dec _ _); lra.
Qed.

Lemma f32_maxl_Fin (l : list R) :
  l <> [] -> f32_maxl (map Fin l) = Fin (Rmaxl l).
Proof.
  intros H. induction l as [|a l IH]; [done|].
  destruct l as [|b l]; [done|].
  rewrite Rmaxl_cons by done.
  change (f32_maxl (map Fin (a :: b :: l)))
    with (f32_max (Fin a) (f32_maxl (map Fin (b :: l)))).
  by rewrite IH.
Qed.

Lemma f32_sum_Fin (l : list R) : f32_sum (map Fin l) = Fin (Rsum l).
Proof.
  induction l as [|a l IH]; [done|].
  change (f32_sum (map Fin (a :: l))) with (f32_add (Fin a) (f32_sum (map Fin l))).
  by rewrite IH.
Qed.

Lemma Rsum_scale {A} (f : A -> R) (k : R) (l : list A) :
  (Rsum (map f l) * k)%R = Rsum (map (fun a => (f a * k)%R) l).
Proof. induction l as [|a l IH]; simpl; [lra|]. rewrite <- IH. lra. Qed.

Lemma Rsum_pos {A} (f : A -> R) (l : list A) :
  l <> [] -> (forall a, a ∈ l -> (0 < f a)%R) -> (0 < Rsum (map f l))%R.
Proof.
  intros Hl H. induction l as [|a l IH]; [done|]. simpl.
  assert (Ha : (0 < f a)%R) by (apply H, elem_of_cons; by left).
  destruct l as [|b l]; [simpl; lra|].
  assert (0 < Rsum (map f (b :: l)))%R;
    [|lra].
  apply IH; [done|]. intros c Hc. apply H. apply elem_of_cons; by right.
Qed.

Lemma exp2c_pos (d : R) : (0 < exp2c d)%R.
Proof. unfold exp2c, Rpower. apply exp_pos. Qed.

Lemma exp2c_plus (a b : R) : (exp2c a * exp2c b)%R = exp2c (a + b).
Proof. unfold exp2c. rewrite <- Rpower_plus. f_equal. lra. Qed.

(** ** Softmax of a row *)

Section SoftmaxRow.
Variable ex : R -> R.
Hypothesis ex_pos : forall d, (0 < ex d)%R.

Lemma softmax_row_denominator (row : list R) (m : R) :
row <> [] -> (0 < Rsum (map (fun a => ex (a - m)%R) row))%R.
Proof using ex_pos. intros H. apply Rsum_pos; [done|]. intros a _. apply ex_pos. Qed.

Lemma softmax_row_sum (row : list R) :
row <> [] -> Rsum (softmax_row ex row) = 1%R.
Proof using ex_pos.
intros H. unfold softmax_row.
pose proof (softmax_row_denominator row (Rmaxl row) H) as Hs.
set (s := Rsum (map (fun a => ex (a - Rmaxl row)%R) row)) in *.
rewrite <- (Rsum_scale (fun a => ex (a - Rmaxl row)%R) (/ s)).
fold s. field. lra.
Qed.

Lemma softmax_row_shift (c : R) (row : list R) :
row <> [] ->
softmax_row ex (map (fun a => (a + c)%R) row) = softmax_row ex row.
Proof.
intros H. unfold softmax_row. rewrite Rmaxl_shift by done. rewrite !map_map.
assert (E : forall a, (a + c - (Rmaxl row + c))%R = (a - Rmaxl row)%R)
by (intros a; lra).
apply list_fmap_ext. intros _ a _. cbv beta. rewrite E. do 2 f_equal.
apply list_fmap_ext. intros _ b _. cbv beta. by rewrite E.
Qed.

Lemma length_softmax_row (row : list R) :
length (softmax_row ex row) = length row.
Proof. unfold softmax_row. by rewrite length_map. Qed.
End SoftmaxRow.

(** ** The reference softmax *)

Lemma softmax_spec_row (row : list R) :
  row <> [] ->
  map (fun a => f32_div a
                 (f32_sum (map f32_exp
                    (map (fun a => f32_sub a (f32_maxl (map Fin row))) (map Fin row)))))
      (map f32_exp (map (fun a => f32_sub a (f32_maxl (map Fin row))) (map Fin row)))
  = map Fin (softmax_row exp row).
Proof.
  intros H. rewrite f32_maxl_Fin by done. rewrite !map_map.
  change (fun x => f32_exp (f32_sub (Fin x) (Fin (Rmaxl row))))
    with (fun x => Fin (exp (x - Rmaxl row))).
  rewrite <- (map_map (fun x => exp (x - Rmaxl row)) Fin), f32_sum_Fin.
  unfold softmax_row. rewrite !map_map.
  apply list_fmap_ext. intros _ a _.
  change (f32_exp (f32_sub (Fin a) (Fin (Rmaxl row))))
    with (Fin (exp (a - Rmaxl row))).
  rewrite f32_div_fin; [done|].
  pose proof (softmax_row_denominator exp exp_pos row (Rmaxl row) H). lra.
Qed.

Lemma zip_with_map_fg {A B C D} (h : B -> C -> D) (f : A -> B) (g : B -> C)
    (l : list A) :
  zip_with h (map f l) (map g (map f l)) = map (fun a => h (f a) (g (f a))) l.
Proof. by rewrite map_map, zip_with_fmap_l, zip_with_fmap_r, zip_with_diag. Qed.

Lemma softmax_spec_finite (x : list (list R)) :
  Forall (fun row => row <> []) x ->
  softmax_spec (map2 Fin x) = map2 Fin (map (softmax_row exp) x).
Proof.
  intros H. unfold softmax_spec, map2. cbv zeta.
  rewrite !zip_with_map_fg, !map_map.
  apply list_fmap_ext. intros i row Hrow. cbv beta.
  rewrite Forall_forall in H. apply softmax_spec_row, H.
  by eapply list_elem_of_lookup_2.
Qed.




(** ** One chunk of the streaming loops *)

Lemma exp2c_f32 (d : R) :
  f32_exp2 (f32_mul (Fin (144269504 / 100000000)) (Fin d)) = Fin (exp2c d).
Proof. done. Qed.

Lemma exp2c_f32_ninf :
  f32_exp2 (f32_mul (Fin (144269504 / 100000000)) NInf) = Fin 0.
Proof. cbn. by rewrite scale_inf_pos by lra. Qed.

Local Abbreviation chunk rr n B := (map (fun j => rr (n + j)) (seq 0 B)).
Local Abbreviation gmax rr m := (if m =? 0 then NInf else Fin (running_max rr m)).

Lemma chunk_nonempty (rr : nat -> R) (n B : nat) : 0 < B -> chunk rr n B <> [].
Proof. intros HB. destruct B; [lia|done]. Qed.

Lemma seq_prefix_chunk (rr : nat -> R) (n B : nat) :
  map rr (seq 0 (n + B)) = map rr (seq 0 n) ++ chunk rr n B.
Proof. rewrite seq_app, map_app. f_equal. apply map_seq_add. Qed.

Lemma running_max_step (rr : nat -> R) (n B : nat) :
  0 < B ->
  f32_max (gmax rr n) (f32_maxl (map Fin (chunk rr n B)))
  = Fin (running_max rr (n + B)).
Proof.
  intros HB. rewrite f32_maxl_Fin by (by apply chunk_nonempty).
  unfold running_max. rewrite seq_prefix_chunk.
  destruct n as [|n']; [done|].
  rewrite Rmaxl_app; [done|done|by apply chunk_nonempty].
Qed.

Lemma running_sum_step (rr : nat -> R) (n B : nat) :
  f32_add
    (f32_mul (Fin (running_sum rr n))
       (f32_exp2 (f32_mul (Fin (144269504 / 100000000))
                    (f32_sub (gmax rr n) (Fin (running_max rr (n + B)))))))
    (f32_sum (map (fun v => f32_exp2 (f32_mul (Fin (144269504 / 100000000))
                                        (f32_sub v (Fin (running_max rr (n + B))))))
                  (map Fin (chunk rr n B))))
  = Fin (running_sum rr (n + B)).
Proof.
  rewrite map_map.
  change (fun x => f32_exp2 (f32_mul (Fin (144269504 / 100000000))
                               (f32_sub (Fin x) (Fin (running_max rr (n + B))))))
    with (fun x => Fin (exp2c (x - running_max rr (n + B)))).
  rewrite <- (map_map (fun x => exp2c (x - running_max rr (n + B))) Fin), f32_sum_Fin.
  assert (Etail : Rsum (map (fun x => exp2c (x - running_max rr (n + B)))
                             (chunk rr n B))
                  = Rsum (map (fun t => exp2c (rr t - running_max rr (n + B)))
                              (seq n B))).
  { rewrite map_map.
    by rewrite (map_seq_add (fun t => exp2c (rr t - running_max rr (n + B))) n B). }
  unfold running_sum at 2. rewrite seq_app. change (0 + n) with n.
  rewrite map_app, Rsum_app, <- Etail.
  destruct (Nat.eqb_spec n 0) as [->|Hn].
  - change (f32_sub NInf (Fin (running_max rr (0 + B)))) with NInf.
    rewrite exp2c_f32_ninf. cbn [f32_mul f32_add seq map Rsum foldr].
    f_equal. unfold running_sum. simpl. lra.
  - change (f32_sub (Fin (running_max rr n)) (Fin (running_max rr (n + B))))
      with (Fin (running_max rr n - running_max rr (n + B))).
    rewrite exp2c_f32. cbn [f32_mul f32_add]. do 2 f_equal.
    unfold running_sum. rewrite Rsum_scale. apply Rsum_ext. intros t _.
    rewrite exp2c_plus. f_equal. lra.
Qed.

Lemma running_weighted_step (rr vv : nat -> R) (n B : nat) :
  f32_add
    (f32_mul (Fin (running_weighted rr vv n))
       (f32_exp2 (f32_mul (Fin (144269504 / 100000000))
                    (f32_sub (gmax rr n) (Fin (running_max rr (n + B)))))))
    (f32_sum
       (zip_with f32_mul
          (map (fun v => f32_exp2 (f32_mul (Fin (144269504 / 100000000))
                                     (f32_sub v (Fin (running_max rr (n + B))))))
               (map Fin (chunk rr n B)))
          (map (fun j => Fin (vv (n + j))) (seq 0 B))))
  = Fin (running_weighted rr vv (n + B)).
Proof.
  rewrite !map_map, zip_with_map_same.
  change (fun a => f32_mul
            (f32_exp2 (f32_mul (Fin (144269504 / 100000000))
                         (f32_sub (Fin (rr (n + a))) (Fin (running_max rr (n + B))))))
            (Fin (vv (n + a))))
    with (fun a => Fin (exp2c (rr (n + a)%nat - running_max rr (n + B))
                        * vv (n + a)%nat)).
  rewrite <- (map_map (fun a => (exp2c (rr (n + a)%nat - running_max rr (n + B))
                                 * vv (n + a)%nat)%R) Fin), f32_sum_Fin.
  rewrite <- (map_seq_add (fun t => (exp2c (rr t - running_max rr (n + B)) * vv t)%R)
                n B).
  unfold running_weighted at 2. rewrite seq_app. change (0 + n) with n.
  rewrite map_app, Rsum_app.
  destruct (Nat.eqb_spec n 0) as [->|Hn].
  - change (f32_sub NInf (Fin (running_max rr (0 + B)))) with NInf.
    rewrite exp2c_f32_ninf. cbn [f32_mul f32_add seq map Rsum foldr].
    f_equal. unfold running_weighted. simpl. lra.
  - change (f32_sub (Fin (running_max rr n)) (Fin (running_max rr (n + B))))
      with (Fin (running_max rr n - running_max rr (n + B))).
    rewrite exp2c_f32. cbn [f32_mul f32_add]. do 2 f_equal.
    unfold running_weighted. rewrite Rsum_scale. apply Rsum_ext. intros t _.
    rewrite Rmult_assoc, (Rmult_comm (vv t)), <- Rmult_assoc, exp2c_plus.
    do 2 f_equal. lra.
Qed.

Lemma running_sum_pos (rr : nat -> R) (n : nat) : 0 < n -> (0 < running_sum rr n)%R.
Proof.
  intros Hn. unfold running_sum. apply Rsum_pos; [by destruct n; [lia|]|].
  intros t _. apply exp2c_pos.
Qed.


(** ** Puzzle 8: the streaming softmax, chunk by chunk *)

Lemma map2_Fin_table (N0 T : nat) (x : list (list R)) :
  shape2 N0 T x ->
  map2 Fin x = outer2 (fun i j => Fin (nth j (nth i x []) 0%R)) (seq 0 N0) (seq 0 T).
Proof. intros Hx. rewrite (shape2_table 0%R N0 T x Hx) at 1. by rewrite map2_outer. Qed.

Lemma nth_flat2_Fin (N0 T : nat) (x : list (list R)) (i t : nat) :
  shape2 N0 T x -> i < N0 -> t < T ->
  nth (i * T + t) (flat2 (map2 Fin x)) (Fin 0) = Fin (nth t (nth i x []) 0%R).
Proof.
  intros Hx Hi Ht. rewrite (map2_Fin_table N0 T) by done.
  rewrite (nth_flat2 N0 T); [by rewrite nth_outer2_seq| |done].
  pose proof (shape2_outer (fun i j => Fin (nth j (nth i x []) 0%R)) (seq 0 N0) (seq 0 T))
    as H. by rewrite !length_seq in H.
Qed.

Lemma length_flat2_Fin (N0 T : nat) (x : list (list R)) :
  shape2 N0 T x -> length (flat2 (map2 Fin x)) = N0 * T.
Proof.
  intros Hx. rewrite (map2_Fin_table N0 T) by done.
  rewrite (length_flat2 N0 T); [done|].
  pose proof (shape2_outer (fun i j => Fin (nth j (nth i x []) 0%R)) (seq 0 N0) (seq 0 T))
    as H. by rewrite !length_seq in H.
Qed.

Lemma map_nth_seq_id {A} (d : A) (l : list A) :
  map (fun i => nth i l d) (seq 0 (length l)) = l.
Proof. by rewrite (map_nth_seq (fun a => a) d l), map_id. Qed.

Lemma map_outer2_rows {A B C D} (h : list C -> D) (g : A -> B -> C)
    (xs : list A) (ys : list B) :
  map h (outer2 g xs ys) = map (fun a => h (map (g a) ys)) xs.
Proof. unfold outer2. by rewrite map_map. Qed.

Lemma masked_row (x : list (list R)) (N0 T B1 i : nat) :
  shape2 N0 T x -> 0 < B1 -> i < N0 ->
  map (masked_entry x N0 T i) (seq 0 (cdiv T B1 * B1)) = pad_chunks T B1 (nth i x []).
Proof.
  intros Hx HB1 Hi. pose proof (cdiv_mul_ge T B1 HB1) as Hge.
  replace (cdiv T B1 * B1) with (T + (cdiv T B1 * B1 - T)) at 1 by lia.
  rewrite seq_app, map_app. unfold pad_chunks. f_equal.
  - rewrite <- (map_nth_seq_id 0%R (nth i x [])) at 1.
    rewrite (shape2_nth N0 T) by done.
    apply list_fmap_ext. intros ? t Ht. apply list_elem_of_lookup_2, elem_of_seq in Ht.
    unfold masked_entry.
    destruct (Nat.ltb_spec i N0); [|lia]. by destruct (Nat.ltb_spec t T); [|lia].
  - rewrite (replicate_seq _ (0 + T)). apply list_fmap_ext. intros ? t Ht.
    apply list_elem_of_lookup_2, elem_of_seq in Ht. unfold masked_entry.
    destruct (Nat.ltb_spec t T); [lia|]. by rewrite andb_false_r.
Qed.

Section SoftmaxKernel.
Variables (x : list (list R)) (N0 N1 T B0 B1 : nat) (p : pid).
Hypothesis Hx : shape2 N0 T x.
Hypothesis HB1 : 0 < B1.
Hypothesis HT : 0 < T.

Local Abbreviation row a := (program_id 0 p * B0 + a).
Local Abbreviation r a := (masked_entry x N0 T (row a)).
Local Abbreviation n := (cdiv T B1).

Lemma softmax_vals (k : nat) :
load2 (Fin 0) (flat2 (map2 Fin x))
(outer2 (fun a j => row a * T + (k + j)) (seq 0 B0) (seq 0 B1))
(outer2 (fun a j => (row a <? N0) && (k + j <? T)) (seq 0 B0) (seq 0 B1))
= Ok (outer2 (fun a j => Fin (r a (k + j))) (seq 0 B0) (seq 0 B1)).
Proof using Hx.
rewrite load2_outer.
- f_equal. apply outer2_ext. intros a j _ _. unfold masked_entry.
destruct ((row a <? N0) && (k + j <? T)) eqn:E; [|done].
apply andb_true_iff in E as [Ha Hj]. apply Nat.ltb_lt in Ha, Hj.
by apply (nth_flat2_Fin N0 T).
- intros a j _ _ E. apply andb_true_iff in E as [Ha Hj]. apply Nat.ltb_lt in Ha, Hj.
rewrite (length_flat2_Fin N0 T) by done. by apply flat_idx2_lt.
Qed.

Lemma softmax_kernel_ok :
softmax_kernel (flat2 (map2 Fin x)) N0 N1 T B0 B1 p
= Ok (concat (map (fun k =>
store2
(outer2 (fun a j => row a * T + (k + j)) (seq 0 B0) (seq 0 B1))
(outer2 (fun a j =>
 Fin (exp2c (r a (k + j) - running_max (r a) (n * B1))
  / running_sum (r a) (n * B1)))
(seq 0 B0) (seq 0 B1))
(outer2 (fun a j => (row a <? N0) && (k + j <? T)) (seq 0 B0) (seq 0 B1)))
(tl_range 0 T B1))).
Proof using Hx HB1 HT.
unfold softmax_kernel, arange. cbv zeta. rewrite !Nat.sub_0_r, !map_map.
match goal with
| |- context [foldR ?f (?s1, ?s2) ?l ≫= _] =>
destruct (foldR_inv f
(fun c st =>
 st = (map (fun a => if c * B1 =? 0 then NInf
     else Fin (running_max (r a) (c * B1))) (seq 0 B0),
 map (fun a => Fin (running_sum (r a) (c * B1))) (seq 0 B0)))
l (s1, s2)) as (st & E & Hst)
end.
- by rewrite !(replicate_seq _ 0).
- intros c k st Hk ->. apply lookup_tl_range in Hk as [-> Hc].
cbv beta. cbn [fst snd]. rewrite Nat.add_0_l, !map_map.
rewrite !(bcast_rows_n _ _ _ (seq 0 B0) (seq 0 B1)) by apply length_seq.
rewrite !(bcast_cols_n _ _ _ (seq 0 B0) (seq 0 B1)) by apply length_seq.
rewrite map2_outer, !zip2_outer, softmax_vals, bind_Ok. cbv beta.
eexists. split; [reflexivity|].
rewrite !map_outer2_rows, !zip_with_map_same.
rewrite !(bcast_rows_n _ _ _ (seq 0 B0) (seq 0 B1)) by apply length_seq.
rewrite zip2_outer, map2_outer, map_outer2_rows, !map_map, !zip_with_map_same.
replace (S c * B1) with (c * B1 + B1) by lia.
destruct (Nat.eqb_spec (c * B1 + B1) 0) as [E0|_]; [lia|].
f_equal; apply list_fmap_ext; intros _ a _; cbv beta.
+ rewrite <- (map_map (fun j => r a (c * B1 + j)) Fin).
by apply (running_max_step (r a) (c * B1) B1).
+ rewrite <- (map_map (fun j => r a (c * B1 + j)) Fin).
rewrite (running_max_step (r a) (c * B1) B1) by done.
rewrite <- (running_sum_step (r a) (c * B1) B1). by rewrite !map_map.
- rewrite E, bind_Ok. rewrite length_tl_range, Nat.sub_0_r in Hst.
subst st. cbn [fst snd].
pose proof (cdiv_pos T B1 HB1 HT) as Hn.
destruct (Nat.eqb_spec (n * B1) 0) as [E0|_]; [nia|].
match goal with
| |- foldR ?f [] ?l = Ok (concat (map ?W ?l)) =>
rewrite (foldR_append f W l []); [done|]
end.
intros ws k Hk.
apply list_elem_of_lookup_1 in Hk as [c Hk].
apply lookup_tl_range in Hk as [-> Hc].
cbv beta. rewrite !Nat.add_0_l, !map_map.
rewrite !(bcast_rows_n _ _ _ (seq 0 B0) (seq 0 B1)) by apply length_seq.
rewrite !(bcast_cols_n _ _ _ (seq 0 B0) (seq 0 B1)) by apply length_seq.
rewrite map2_outer, !zip2_outer, softmax_vals, bind_Ok. cbv beta.
rewrite !zip2_outer, map2_outer, zip2_outer. do 3 f_equal.
apply outer2_ext. intros a j _ _.
change (f32_exp2 (f32_mul (Fin (144269504 / 100000000))
(f32_sub (Fin (r a (c * B1 + j))) (Fin (running_max (r a) (n * B1))))))
with (Fin (exp2c (r a (c * B1 + j) - running_max (r a) (n * B1)))).
apply f32_div_fin.
pose proof (running_sum_pos (r a) (n * B1) ltac:(nia)). lra.
Qed.
End SoftmaxKernel.


Lemma cdiv_mul (m b : nat) : 0 < b -> cdiv (m * b) b = m.
Proof.
  intros Hb. unfold cdiv. symmetry.
  apply (Nat.div_unique _ _ _ (b - 1)); lia.
Qed.

Lemma pad_chunks_even (m B1 : nat) (row : list R) :
  0 < B1 -> pad_chunks (m * B1) B1 row = row.
Proof.
  intros HB1. unfold pad_chunks. rewrite cdiv_mul, Nat.sub_diag by done.
  apply app_nil_r.
Qed.

Lemma length_pad_chunks (T B1 : nat) (row : list R) :
  0 < B1 -> length row = T -> length (pad_chunks T B1 row) = cdiv T B1 * B1.
Proof.
  intros HB1 Hrow. unfold pad_chunks. rewrite length_app, length_replicate, Hrow.
  pose proof (cdiv_mul_ge T B1 HB1). lia.
Qed.

Lemma running_stats_padded (x : list (list R)) (N0 T B1 i : nat) :
  shape2 N0 T x -> 0 < B1 -> i < N0 ->
  running_max (masked_entry x N0 T i) (cdiv T B1 * B1)
  = Rmaxl (pad_chunks T B1 (nth i x []))
  /\ running_sum (masked_entry x N0 T i) (cdiv T B1 * B1)
     = Rsum (map (fun a => exp2c (a - Rmaxl (pad_chunks T B1 (nth i x []))))
                 (pad_chunks T B1 (nth i x []))).
Proof.
  intros Hx HB1 Hi.
  assert (E : running_max (masked_entry x N0 T i) (cdiv T B1 * B1)
              = Rmaxl (pad_chunks T B1 (nth i x []))).
  { unfold running_max. by rewrite (masked_row x N0 T B1 i). }
  split; [exact E|]. unfold running_sum. rewrite E.
  rewrite <- (map_map (masked_entry x N0 T i)
                (fun a => exp2c (a - Rmaxl (pad_chunks T B1 (nth i x []))))).
  by rewrite (masked_row x N0 T B1 i).
Qed.

(** The table of outputs of the streaming softmax. *)
Lemma softmax_padded_table (x : list (list R)) (N0 T B1 : nat) :
  shape2 N0 T x -> 0 < B1 ->
  map (fun row => take T (softmax_row exp2c (pad_chunks T B1 row))) x
  = outer2 (fun i t =>
              (exp2c (masked_entry x N0 T i t
                      - running_max (masked_entry x N0 T i) (cdiv T B1 * B1))
               / running_sum (masked_entry x N0 T i) (cdiv T B1 * B1))%R)
           (seq 0 N0) (seq 0 T).
Proof.
  intros Hx HB1. pose proof (cdiv_mul_ge T B1 HB1) as Hge.
  apply (table_eq2 0%R).
  - destruct Hx as [Hlen Hrows]. split; [by rewrite length_map|].
    apply Forall_fmap. eapply Forall_impl; [exact Hrows|].
    intros row Hrow. simpl.
    rewrite length_take, length_softmax_row, (length_pad_chunks T B1) by done. lia.
  - intros i t Hi Ht.
    destruct (running_stats_padded x N0 T B1 i Hx HB1 Hi) as [-> ->].
    assert (Hrow : length (nth i x []) = T) by (by apply (shape2_nth N0 T)).
    destruct Hx as [Hlen Hrows].
    rewrite (nth_map_lt _ _ []) by lia.
    rewrite !nth_lookup, lookup_take_lt by done. rewrite <- !nth_lookup.
    unfold softmax_row.
    rewrite (nth_map_lt _ _ 0%R) by (rewrite (length_pad_chunks T B1) by done; lia).
    unfold pad_chunks at 1. rewrite app_nth1 by lia.
    unfold masked_entry.
    destruct (Nat.ltb_spec i N0); [|lia]. by destruct (Nat.ltb_spec t T); [|lia].
Qed.

(** The launch of the streaming softmax in closed form: every row is
    treated as if followed by zeros up to a whole number of chunks. *)
Lemma run_softmax_closed_form (N0 N1 T B0 B1 : nat) (x : list (list R)) (z : list f32) :
  shape2 N0 T x -> 0 < B0 -> 0 < B1 -> 0 < N1 -> 0 < T -> length z = N0 * T ->
  run_softmax N0 N1 T B0 B1 (map2 Fin x) z
  = Ok (map Fin (flat2 (map (fun row => take T (softmax_row exp2c (pad_chunks T B1 row)))
                            x))).
Proof.
  intros Hx HB0 HB1 HN1 HT Hz. unfold run_softmax.
  set (G := fun i t =>
              (exp2c (masked_entry x N0 T i t
                      - running_max (masked_entry x N0 T i) (cdiv T B1 * B1))
               / running_sum (masked_entry x N0 T i) (cdiv T B1 * B1))%R).
  rewrite (launch_table _ _ _ _
             (fun p => concat (map (fun k =>
                store2
                  (outer2 (fun a j => (program_id 0 p * B0 + a) * T + (k + j))
                          (seq 0 B0) (seq 0 B1))
                  (outer2 (fun a j => Fin (G (program_id 0 p * B0 + a) (k + j)))
                          (seq 0 B0) (seq 0 B1))
                  (outer2 (fun a j => (program_id 0 p * B0 + a <? N0) && (k + j <? T))
                          (seq 0 B0) (seq 0 B1)))
                (tl_range 0 T B1)))
             (fun q => Fin (G (q / T) (q mod T)))).
  - rewrite Hz, (softmax_padded_table x N0 T B1) by done. fold G.
    by rewrite flat2_outer_seq_all, map_map.
  - intros c _. by apply softmax_kernel_ok.
  - intros c w _ Hw. apply elem_of_concat in Hw as (l & Hl & Hw).
    apply list_elem_of_fmap in Hl as (k & -> & Hk).
    apply elem_of_store2_outer in Hw as (a & j & _ & _ & Hm & ->).
    apply andb_true_iff in Hm as [Ha Hj]. apply Nat.ltb_lt in Ha, Hj.
    cbn [fst snd]. split; [rewrite Hz; by apply flat_idx2_lt|].
    replace ((program_id 0 c * B0 + a) * T + (k + j))
      with ((k + j) + (program_id 0 c * B0 + a) * T) by lia.
    rewrite Nat.div_add, Nat.Div0.mod_add by lia.
    by rewrite Nat.div_small, Nat.mod_small by lia.
  - intros q Hq. rewrite Hz in Hq.
    assert (Hi : q / T < N0) by (apply Nat.Div0.div_lt_upper_bound; lia).
    pose proof (Nat.mod_upper_bound q T ltac:(lia)) as Ht.
    pose proof (Nat.div_mod q T ltac:(lia)) as Eq.
    destruct (split_block (q / T) N0 B0 HB0 Hi) as (Hi1 & Hi2 & Hi3).
    destruct (split_block (q mod T) T B1 HB1 Ht) as (Ht1 & Ht2 & Ht3).
    exists (q / T / B0, 0, 0), (q, Fin (G (q / T) (q mod T))).
    split; [|split; [|done]].
    + apply elem_of_grid_cells. cbn [fst snd].
      split; [done|]. split; [by apply cdiv_pos|]. unfold cdiv. simpl. lia.
    + apply elem_of_concat. eexists. split.
      * apply list_elem_of_fmap. exists ((q mod T) / B1 * B1). split; [done|].
        unfold tl_range. apply list_elem_of_fmap. exists ((q mod T) / B1).
        split; [done|]. apply elem_of_seq. rewrite Nat.sub_0_r. lia.
      * apply elem_of_store2_outer. exists ((q / T) mod B0), ((q mod T) mod B1).
        rewrite !elem_of_seq. cbn [program_id fst snd].
        rewrite Hi3, Ht3. split; [lia|]. split; [lia|]. split.
        -- apply andb_true_iff. split; apply Nat.ltb_lt; lia.
        -- f_equal. lia.
Qed.

(** X15: Puzzle 8 for every chunk size: the kernel runs without fault and each
    output row is the first [T] entries of the softmax, with the kernel's
    exponential [2^(log2_e * d)], of the row followed by zeros up to a
    whole number of chunks; the positions the last chunk masks out count
    as logits of value zero. *)
Theorem softmax_kernel_closed_form (N0 N1 T B0 B1 : nat)
    (x : list (list R)) (z : list f32) :
  shape2 N0 T x -> 0 < B0 -> 0 < B1 -> 0 < N1 -> 0 < T -> length z = N0 * T ->
  run_softmax N0 N1 T B0 B1 (map2 Fin x) z
  = Ok (map Fin (flat2 (map (fun row => take T (softmax_row exp2c (pad_chunks T B1 row)))
                            x))).
Proof. apply run_softmax_closed_form. Qed.

Lemma softmax_kernel_closed_form_witness :
  run_softmax 1 1 3 1 2 (map2 Fin [[0; 0; 0]]%R) (replicate 3 (Fin 0))
  = Ok (map Fin (flat2 (map (fun row => take 3 (softmax_row exp2c (pad_chunks 3 2 row)))
                            [[0; 0; 0]]%R))).
Proof.
  apply (softmax_kernel_closed_form 1 1 3 1 2 [[0; 0; 0]]%R (replicate 3 (Fin 0)));
    [split; [reflexivity|repeat constructor]|lia|lia|lia|lia|reflexivity].
Defined.




(** ** Puzzle 9: the streaming attention, chunk by chunk *)

Lemma load1_Fin (v : list R) (n : nat) (fi : nat -> nat) (xs : list nat) :
  length v = n ->
  load1 (Fin 0) (map Fin v) (map fi xs) (map (fun a => fi a <? n) xs)
  = Ok (map (fun a => Fin (masked_elem v n (fi a))) xs).
Proof.
  intros Hv. rewrite (load1_map (Fin 0) (map Fin v) fi (fun a => fi a <? n)).
  - f_equal. apply list_fmap_ext. intros _ a _. unfold masked_elem.
    destruct (fi a <? n); [|done]. apply (map_nth Fin).
  - intros a _ Ha. apply Nat.ltb_lt in Ha. rewrite length_map. lia.
Qed.

Section FlashKernel.
Variables (q k v : list R) (N0 T B0 B1 : nat) (p : pid).
Hypothesis Hq : length q = N0.
Hypothesis Hk : length k = T.
Hypothesis Hv : length v = T.
Hypothesis HB1 : 0 < B1.
Hypothesis HT : 0 < T.

Local Abbreviation row a := (program_id 0 p * B0 + a).
Local Abbreviation rr a := (fun t => (masked_elem q N0 (row a) * masked_elem k T t)%R).
Local Abbreviation vv := (masked_elem v T).
Local Abbreviation n := (cdiv T B1).

Lemma flashatt_qk_ok (k0 : nat) :
flashatt_qk (map Fin q) (map Fin k) N0 T B0 B1 p k0
= Ok (outer2 (fun a j => Fin (rr a (k0 + j))) (seq 0 B0) (seq 0 B1)).
Proof using Hq Hk.
unfold flashatt_qk, arange. cbv zeta. rewrite !Nat.sub_0_r, !map_map.
rewrite (load1_Fin q N0 (fun a => row a)) by done. rewrite bind_Ok. cbv beta.
rewrite (load1_Fin k T (fun a => k0 + a)) by done. rewrite bind_Ok. cbv beta.
rewrite !(bcast_rows_n _ _ _ (seq 0 B0) (seq 0 B1)) by apply length_seq.
rewrite !(bcast_cols_n _ _ _ (seq 0 B0) (seq 0 B1)) by apply length_seq.
by rewrite zip2_outer.
Qed.

Lemma flashatt_step_ok (c : nat) :
flashatt_step (map Fin q) (map Fin k) (map Fin v) N0 T B0 B1 p
(map (fun a => if c * B1 =? 0 then NInf
 else Fin (running_max (rr a) (c * B1))) (seq 0 B0),
 map (fun a => Fin (running_sum (rr a) (c * B1))) (seq 0 B0),
 map (fun a => Fin (running_weighted (rr a) vv (c * B1))) (seq 0 B0))
(c * B1)
= Ok (map (fun a => Fin (running_max (rr a) (c * B1 + B1))) (seq 0 B0),
map (fun a => Fin (running_sum (rr a) (c * B1 + B1))) (seq 0 B0),
map (fun a => Fin (running_weighted (rr a) vv (c * B1 + B1))) (seq 0 B0)).
Proof using Hq Hk Hv HB1.
unfold flashatt_step. cbv zeta. cbn [fst snd]. unfold arange.
rewrite !Nat.sub_0_r, !map_map.
rewrite flashatt_qk_ok, bind_Ok. cbv beta.
rewrite (load1_Fin v T (fun a => c * B1 + a)) by done. rewrite bind_Ok. cbv beta.
rewrite !map_outer2_rows, !zip_with_map_same.
rewrite !(bcast_rows_n _ _ _ (seq 0 B0) (seq 0 B1)) by apply length_seq.
rewrite !(bcast_cols_n _ _ _ (seq 0 B0) (seq 0 B1)) by apply length_seq.
rewrite !zip2_outer, !map2_outer, !zip2_outer, !map_outer2_rows.
rewrite !map_map, !zip_with_map_same.
do 2 f_equal; [f_equal|..]; apply list_fmap_ext; intros _ a _; cbv beta.
- rewrite <- (running_max_step (rr a) (c * B1) B1) by done. by rewrite map_map.
- rewrite <- (map_map (fun j => rr a (c * B1 + j)) Fin).
rewrite (running_max_step (rr a) (c * B1) B1) by done.
rewrite <- (running_sum_step (rr a) (c * B1) B1). by rewrite !map_map.
- rewrite <- (map_map (fun j => rr a (c * B1 + j)) Fin).
rewrite (running_max_step (rr a) (c * B1) B1) by done.
rewrite <- (running_weighted_step (rr a) vv (c * B1) B1).
by rewrite !map_map, zip_with_map_same.
Qed.

Lemma flashatt_kernel_ok :
flashatt_kernel (map Fin q) (map Fin k) (map Fin v) N0 T B0 B1 p
= Ok (omap (fun a =>
if row a <? N0
then Some (row a, Fin (running_weighted (rr a) vv (n * B1)
           / running_sum (rr a) (n * B1)))
else None) (seq 0 B0)).
Proof using Hq Hk Hv HB1 HT.
unfold flashatt_kernel, arange. cbv zeta. rewrite !Nat.sub_0_r, !map_map.
destruct (foldR_inv (flashatt_step (map Fin q) (map Fin k) (map Fin v) N0 T B0 B1 p)
(fun c st =>
 st = (map (fun a => if c * B1 =? 0 then NInf
     else Fin (running_max (rr a) (c * B1))) (seq 0 B0),
 map (fun a => Fin (running_sum (rr a) (c * B1))) (seq 0 B0),
 map (fun a => Fin (running_weighted (rr a) vv (c * B1))) (seq 0 B0)))
(tl_range 0 T B1)
(replicate B0 NInf, replicate B0 (Fin 0), replicate B0 (Fin 0)))
as (st & E & Hst).
- by rewrite !(replicate_seq _ 0).
- intros c k0 st Hk0 ->. apply lookup_tl_range in Hk0 as [-> Hc].
rewrite Nat.add_0_l, flashatt_step_ok. eexists. split; [reflexivity|].
replace (S c * B1) with (c * B1 + B1) by lia.
by destruct (Nat.eqb_spec (c * B1 + B1) 0) as [E0|_]; [lia|].
- rewrite E, bind_Ok. rewrite length_tl_range, Nat.sub_0_r in Hst.
subst st. cbn [fst snd]. rewrite zip_with_map_same, store1_map.
f_equal. apply omap_ext'. intros a _.
destruct (row a <? N0); [|done]. do 2 f_equal.
apply f32_div_fin.
pose proof (cdiv_pos T B1 HB1 HT) as Hn.
pose proof (running_sum_pos (rr a) (n * B1) ltac:(nia)). lra.
Qed.
End FlashKernel.


(** ** Attention in closed form *)

Lemma masked_vector (v : list R) (T B1 : nat) :
  length v = T -> 0 < B1 ->
  map (masked_elem v T) (seq 0 (cdiv T B1 * B1)) = pad_chunks T B1 v.
Proof.
  intros Hv HB1. pose proof (cdiv_mul_ge T B1 HB1) as Hge.
  replace (cdiv T B1 * B1) with (T + (cdiv T B1 * B1 - T)) at 1 by lia.
  rewrite seq_app, map_app. unfold pad_chunks. f_equal.
  - transitivity (map (fun t => nth t v 0%R) (seq 0 T));
      [|by rewrite <- Hv, map_nth_seq_id].
    apply list_fmap_ext. intros ? t Ht. apply list_elem_of_lookup_2, elem_of_seq in Ht.
    unfold masked_elem. by destruct (Nat.ltb_spec t T); [|lia].
  - rewrite (replicate_seq _ (0 + T)). apply list_fmap_ext. intros ? t Ht.
    apply list_elem_of_lookup_2, elem_of_seq in Ht. unfold masked_elem.
    by destruct (Nat.ltb_spec t T); [lia|].
Qed.

Lemma zip_with_prefix {A B C} (f : A -> B -> C) (l1 : list A) (l2 l3 : list B) :
  length l1 = length l2 -> zip_with f l1 (l2 ++ l3) = zip_with f l1 l2.
Proof.
  intros H. rewrite <- (app_nil_r l1) at 1. rewrite zip_with_app by done.
  simpl. apply app_nil_r.
Qed.

Lemma zip_with_nth_l {A B C} (f : A -> B -> C) (d : A) (v : list A) (g : nat -> B)
    (n : nat) :
  length v = n ->
  zip_with f v (map g (seq 0 n)) = map (fun t => f (nth t v d) (g t)) (seq 0 n).
Proof.
  intros H.
  transitivity (zip_with f (map (fun t => nth t v d) (seq 0 n)) (map g (seq 0 n))).
  - f_equal. by rewrite <- H, map_nth_seq_id.
  - apply zip_with_map_same.
Qed.

Lemma attention_row_running (q k v : list R) (N0 T B1 i : nat) :
  length k = T -> length v = T -> 0 < B1 -> 0 < T -> i < N0 ->
  let rr := fun t => (masked_elem q N0 i * masked_elem k T t)%R in
  (running_weighted rr (masked_elem v T) (cdiv T B1 * B1)
   / running_sum rr (cdiv T B1 * B1))%R
  = attention_row exp2c (pad_chunks T B1 k) v (nth i q 0%R).
Proof.
  intros Hk Hv HB1 HT Hi rr. pose proof (cdiv_mul_ge T B1 HB1) as Hge.
  pose proof (cdiv_pos T B1 HB1 HT) as Hn.
  assert (Hqi : masked_elem q N0 i = nth i q 0%R).
  { unfold masked_elem. by destruct (Nat.ltb_spec i N0); [|lia]. }
  assert (Es : map (fun kj => (nth i q 0 * kj)%R) (pad_chunks T B1 k)
               = map rr (seq 0 (cdiv T B1 * B1))).
  { rewrite <- (masked_vector k T B1) by done. rewrite map_map.
    apply list_fmap_ext. intros _ t _. unfold rr. by rewrite Hqi. }
  unfold attention_row, softmax_row. rewrite Es, !map_map.
  fold (running_max rr (cdiv T B1 * B1)). fold (running_sum rr (cdiv T B1 * B1)).
  pose proof (running_sum_pos rr (cdiv T B1 * B1) ltac:(nia)) as HS.
  set (M := running_max rr (cdiv T B1 * B1)) in *.
  set (S := running_sum rr (cdiv T B1 * B1)) in *.
  assert (EN : seq 0 (cdiv T B1 * B1) = seq 0 T ++ seq T (cdiv T B1 * B1 - T)).
  { replace (cdiv T B1 * B1) with (T + (cdiv T B1 * B1 - T)) at 1 by lia.
    apply seq_app. }
  unfold running_weighted. fold M. rewrite EN, !map_app, Rsum_app.
  rewrite zip_with_prefix by (by rewrite length_map, length_seq).
  rewrite (zip_with_nth_l _ 0%R) by done.
  rewrite (Rsum_zero _ (seq T _)).
  - rewrite Rplus_0_r. unfold Rdiv. rewrite Rsum_scale. apply Rsum_ext.
    intros t Ht. apply elem_of_seq in Ht.
    assert (Ev : masked_elem v T t = nth t v 0%R).
    { unfold masked_elem. by destruct (Nat.ltb_spec t T); [|lia]. }
    rewrite Ev. lra.
  - intros t Ht. apply elem_of_seq in Ht.
    assert (Ev : masked_elem v T t = 0%R).
    { unfold masked_elem. by destruct (Nat.ltb_spec t T); [lia|]. }
    rewrite Ev. lra.
Qed.

Lemma Rsum_zip_replicate (c : R) (w : list R) (n : nat) :
  length w = n -> Rsum (zip_with Rmult (replicate n c) w) = (c * Rsum w)%R.
Proof.
  revert n. induction w as [|a w IH]; intros n Hn.
  - subst n. simpl. lra.
  - destruct n as [|n]; [done|]. simpl. rewrite (IH n) by (simpl in Hn; lia). lra.
Qed.

Lemma attention_row_constant (ex : R -> R) (k : list R) (c q : R) :
  (forall d, (0 < ex d)%R) -> k <> [] ->
  attention_row ex k (replicate (length k) c) q = c.
Proof.
  intros Hex Hk. unfold attention_row.
  rewrite Rsum_zip_replicate by (by rewrite length_softmax_row, length_map).
  rewrite softmax_row_sum; [lra|done|]. by destruct k.
Qed.

(** The launch of the streaming attention in closed form: the keys are
    treated as if followed by zeros up to a whole number of chunks. *)
Lemma run_flashatt_closed_form (N0 T B0 B1 : nat) (q k v : list R) (z : list f32) :
  length q = N0 -> length k = T -> length v = T ->
  0 < B0 -> 0 < B1 -> 0 < T -> length z = N0 ->
  run_flashatt N0 T B0 B1 (map Fin q) (map Fin k) (map Fin v) z
  = Ok (map Fin (map (attention_row exp2c (pad_chunks T B1 k) v) q)).
Proof.
  intros Hq Hk Hv HB0 HB1 HT Hz. unfold run_flashatt.
  set (out := fun i =>
     (running_weighted (fun t => (masked_elem q N0 i * masked_elem k T t)%R)
        (masked_elem v T) (cdiv T B1 * B1)
      / running_sum (fun t => (masked_elem q N0 i * masked_elem k T t)%R)
          (cdiv T B1 * B1))%R).
  rewrite (launch_table _ _ _ _
             (fun p => omap (fun a =>
                if program_id 0 p * B0 + a <? N0
                then Some (program_id 0 p * B0 + a, Fin (out (program_id 0 p * B0 + a)))
                else None) (seq 0 B0))
             (fun i => Fin (out i))).
  - rewrite Hz, map_map. f_equal.
    transitivity (map (fun i => Fin (attention_row exp2c (pad_chunks T B1 k) v
                                       (nth i q 0%R))) (seq 0 N0)).
    + apply list_fmap_ext. intros ? i Hi.
      apply list_elem_of_lookup_2, elem_of_seq in Hi.
      cbv beta. f_equal. unfold out. apply attention_row_running; try done. lia.
    + rewrite <- Hq.
      apply (map_nth_seq (fun qi => Fin (attention_row exp2c (pad_chunks T B1 k) v qi))
               0%R q).
  - intros c _. by apply flashatt_kernel_ok.
  - intros c w _ Hw. apply list_elem_of_omap in Hw as (a & _ & Hw).
    destruct (Nat.ltb_spec (program_id 0 c * B0 + a) N0); [|done].
    inversion Hw; subst w. cbn [fst snd]. rewrite Hz. simpl in *. split; [lia|done].
  - intros i Hi. rewrite Hz in Hi.
    destruct (split_block i N0 B0 HB0 Hi) as (Hi1 & Hi2 & Hi3).
    exists (i / B0, 0, 0), (i, Fin (out i)). split; [|split; [|done]].
    + apply elem_of_grid_cells. cbn [fst snd]. unfold cdiv at 2 3. simpl. lia.
    + apply list_elem_of_omap. exists (i mod B0). cbn [program_id fst snd].
      rewrite Hi3. split; [apply elem_of_seq; lia|].
      by destruct (Nat.ltb_spec i N0); [|lia].
Qed.






(** ** The reference attention *)

Lemma f32_sum_zip_Fin (v w : list R) :
  f32_sum (zip_with f32_mul (map Fin v) (map Fin w)) = Fin (Rsum (zip_with Rmult v w)).
Proof.
  rewrite zip_with_fmap_l, zip_with_fmap_r.
  change (fun x y => f32_mul (Fin x) (Fin y)) with (fun x y => Fin (x * y)).
  rewrite <- (f32_sum_Fin (zip_with Rmult v w)). f_equal.
  revert w. induction v as [|a v IH]; intros [|b w]; simpl; try done.
  by rewrite IH.
Qed.

Lemma flashatt_spec_finite (q k v : list R) :
  k <> [] ->
  flashatt_spec (map Fin q) (map Fin k) (map Fin v)
  = map Fin (map (attention_row exp k v) q).
Proof.
  intros Hk. unfold flashatt_spec, map2. cbv zeta.
  rewrite !zip_with_map_fg, !map_map.
  apply list_fmap_ext. intros _ qi _. cbv beta.
  replace (map (fun kj : f32 => f32_mul (Fin qi) kj) (map Fin k))
    with (map Fin (map (fun kj => (qi * kj)%R) k)) by (by rewrite !map_map).
  rewrite softmax_spec_row by (by destruct k).
  apply f32_sum_zip_Fin.
Qed.




(** ** The demos of the introduction on any buffer *)

(** X1: Demo 1 on any buffer: with at least five cells the masked load yields
    the first five followed by three zeros, whatever the buffer holds from
    cell five on (it may even end there); with fewer it reads out of
    bounds. *)
Theorem demo1_masked_load (x : list R) :
  (5 <= length x ->
     demo1 x = Ok (seq 0 8, take 5 x ++ replicate 3 0%R))
  /\ (length x < 5 -> demo1 x = Err OutOfBounds).
Proof.
  split; intros H.
  - do 5 (destruct x as [|? x]; [simpl in H; lia|]). reflexivity.
  - do 5 (destruct x as [|? x]; [reflexivity|]). simpl in H. lia.
Qed.

Lemma demo1_masked_load_witness :
  demo1 (ones 12) = Ok (seq 0 8, take 5 (ones 12) ++ replicate 3 0%R).
Proof. apply (demo1_masked_load (ones 12)). simpl. lia. Defined.

(** X2: Demo 2 on any 4 x 4 matrix: the 8 x 4 tile holds, row by row, the
    first three entries of each matrix row and a zero, then four rows of
    zeros. *)
Theorem demo2_masked_load (m : list (list R)) :
  shape2 4 4 m ->
  exists range,
    demo2 (flat2 m)
    = Ok (range, map (fun row => take 3 row ++ [0%R]) m ++ replicate 4 (replicate 4 0%R)).
Proof.
  intros [Hlen Hrows].
  do 4 (destruct m as [|? m]; [done|]). destruct m; [|done]. clear Hlen.
  repeat match goal with
         | H : Forall _ (_ :: _) |- _ => apply Forall_cons in H as [? H]
         end.
  repeat match goal with
         | H : length ?r = 4 |- _ =>
             do 4 (destruct r as [|? r]; [done|]); destruct r; [clear H|done]
         end.
  eexists. reflexivity.
Qed.

Lemma demo2_masked_load_witness :
  exists range,
    demo2 (flat2 (replicate 4 (ones 4)))
    = Ok (range, map (fun row => take 3 row ++ [0%R]) (replicate 4 (ones 4))
                 ++ replicate 4 (replicate 4 0%R)).
Proof.
  apply (demo2_masked_load (replicate 4 (ones 4))).
  split; [reflexivity|repeat constructor].
Defined.

(** X3: Demo 3 on any buffer: with at least five cells the masked store puts
    10 in the first five and leaves every other cell as it was; with fewer
    it writes out of bounds. *)
Theorem demo3_masked_store (z : list R) :
  (5 <= length z ->
     launch 1 1 1 demo3 z = Ok (replicate 5 10%R ++ drop 5 z))
  /\ (length z < 5 -> launch 1 1 1 demo3 z = Err OutOfBounds).
Proof.
  split; intros H.
  - do 5 (destruct z as [|? z]; [simpl in H; lia|]). reflexivity.
  - do 5 (destruct z as [|? z]; [reflexivity|]). simpl in H. lia.
Qed.

Lemma demo3_masked_store_witness :
  launch 1 1 1 demo3 (ones 12) = Ok (replicate 5 10%R ++ drop 5 (ones 12)).
Proof. apply (demo3_masked_store (ones 12)). simpl. lia. Defined.

(** X4: Demo 4 on any buffer of at least twenty cells: the three instances
    load disjoint blocks, and their tiles in program order are the first
    twenty cells, each once, followed by the four zeros of the masked-out
    tail of the last block. *)
Theorem demo4_blocks (x : list R) :
  20 <= length x ->
  exists t0 t1 t2,
    demo4 x (0, 0, 0) = Ok (0, t0) /\ demo4 x (1, 0, 0) = Ok (1, t1)
    /\ demo4 x (2, 0, 0) = Ok (2, t2)
    /\ t0 ++ t1 ++ t2 = take 20 x ++ replicate 4 0%R.
Proof.
  intros H. do 20 (destruct x as [|? x]; [simpl in H; lia|]).
  do 3 eexists. repeat split; reflexivity.
Qed.

Lemma demo4_blocks_witness :
  exists t0 t1 t2,
    demo4 (ones 32) (0, 0, 0) = Ok (0, t0) /\ demo4 (ones 32) (1, 0, 0) = Ok (1, t1)
    /\ demo4 (ones 32) (2, 0, 0) = Ok (2, t2)
    /\ t0 ++ t1 ++ t2 = take 20 (ones 32) ++ replicate 4 0%R.
Proof. apply (demo4_blocks (ones 32)). simpl. lia. Defined.


(** ** The sequence of puzzle runs *)

Section RunPuzzles.
Variable test : Z -> bool.
Variable puzzles : list Z.

Lemma blocks_all_passed (blocks : list Z) :
AllPassed ∈ run_puzzle_blocks test puzzles blocks
<-> forall n, n ∈ blocks -> n ∈ puzzles -> test n = true.
Proof.
induction blocks as [|b blocks IH]; simpl.
- split; [|intros _; by apply list_elem_of_singleton].
intros _ n Hn. by apply elem_of_nil in Hn.
- destruct (bool_decide_reflect (b ∈ puzzles)) as [Hb|Hb].
+ rewrite !elem_of_cons. destruct (test b) eqn:Et; split.
* intros [?|[?|H]]; [done|done|]. intros n Hn Hp.
apply elem_of_cons in Hn as [->|Hn]; [done|]. by apply IH.
* intros H. right. right. apply IH. intros n Hn. apply H.
apply elem_of_cons. by right.
* intros [?|[?|H]]; [done|done|]. by apply elem_of_nil in H.
* intros H. rewrite H in Et; [done|apply elem_of_cons; by left|done].
+ rewrite IH. split.
* intros H n Hn Hp. apply elem_of_cons in Hn as [->|Hn]; [done|]. by apply H.
* intros H n Hn. apply H. apply elem_of_cons. by right.
Qed.

Lemma blocks_header (blocks : list Z) (n : Z) :
StronglySorted Z.lt blocks ->
PuzzleHeader n ∈ run_puzzle_blocks test puzzles blocks
<-> n ∈ blocks /\ n ∈ puzzles
/\ forall m, m ∈ blocks -> (m < n)%Z -> m ∈ puzzles -> test m = true.
Proof.
intros Hs. induction Hs as [|b blocks Hs IH Hb]; simpl.
- split.
+ intros H. apply list_elem_of_singleton in H. done.
+ intros (H & _). by apply elem_of_nil in H.
- rewrite Forall_forall in Hb.
destruct (bool_decide_reflect (b ∈ puzzles)) as [Hp|Hp].
+ rewrite !elem_of_cons. split.
* intros [E|[E|H]]; [|done|].
-- inversion E; subst n. split; [by left|]. split; [done|].
 intros m Hm Hlt. apply elem_of_cons in Hm as [->|Hm]; [lia|].
 apply Hb in Hm. lia.
-- destruct (test b) eqn:Et; [|by apply elem_of_nil in H].
 apply IH in H as (Hn & Hnp & Hall). split; [by right|]. split; [done|].
 intros m Hm Hlt Hmp. apply elem_of_cons in Hm as [->|Hm]; [done|].
 by apply Hall.
* intros ([->|Hn] & Hnp & Hall); [by left|]. right. right.
rewrite (Hall b); [|apply elem_of_cons; by left|by apply Hb|done].
apply IH. split; [done|]. split; [done|].
intros m Hm. apply Hall. apply elem_of_cons. by right.
+ rewrite IH. split.
* intros (Hn & Hnp & Hall). split; [apply elem_of_cons; by right|].
split; [done|]. intros m Hm Hlt Hmp.
apply elem_of_cons in Hm as [->|Hm]; [done|]. by apply Hall.
* intros (Hn & Hnp & Hall). apply elem_of_cons in Hn as [->|Hn]; [done|].
split; [done|]. split; [done|]. intros m Hm. apply Hall.
apply elem_of_cons. by right.
Qed.

Lemma blocks_none (blocks : list Z) :
(forall n, n ∈ blocks -> n ∉ puzzles) ->
run_puzzle_blocks test puzzles blocks = [AllPassed].
Proof.
induction blocks as [|b blocks IH]; intros H; simpl; [done|].
destruct (bool_decide_reflect (b ∈ puzzles)) as [Hb|Hb].
- exfalso. apply (H b); [apply elem_of_cons; by left|done].
- apply IH. intros n Hn. apply H. apply elem_of_cons. by right.
Qed.
End RunPuzzles.

Lemma elem_of_puzzle_numbers (n : Z) :
  n ∈ map Z.of_nat (seq 1 12) <-> (1 <= n <= 12)%Z.
Proof.
  rewrite list_elem_of_fmap. split.
  - intros (k & -> & Hk). apply elem_of_seq in Hk. lia.
  - intros H. exists (Z.to_nat n). split; [lia|]. apply elem_of_seq. lia.
Qed.

Lemma puzzle_numbers_sorted : StronglySorted Z.lt (map Z.of_nat (seq 1 12)).
Proof. simpl. repeat (constructor; [|repeat constructor; lia]). constructor. Qed.

(** X27: [run_puzzles] runs the selected puzzles in the order of their numbers,
    whatever the order of the list, and stops at the first failure: the
    test of puzzle [n] is run exactly when [n] is one of 1..12, is
    selected, and every selected puzzle of smaller number passed; "All
    tests passed!" is printed exactly when every selected puzzle of 1..12
    passes. *)
Theorem run_puzzles_first_failure (test : Z -> bool) (puzzles : list Z) :
  (forall n,
     PuzzleHeader n ∈ run_puzzles test puzzles
     <-> (1 <= n <= 12)%Z /\ n ∈ puzzles
         /\ forall m, (1 <= m < n)%Z -> m ∈ puzzles -> test m = true)
  /\ (AllPassed ∈ run_puzzles test puzzles
      <-> forall n, (1 <= n <= 12)%Z -> n ∈ puzzles -> test n = true).
Proof.
  unfold run_puzzles. split.
  - intros n. rewrite blocks_header by apply puzzle_numbers_sorted.
    rewrite elem_of_puzzle_numbers. split.
    + intros (Hn & Hp & Hall). split; [done|]. split; [done|].
      intros m Hm. apply Hall; [apply elem_of_puzzle_numbers|]; lia.
    + intros (Hn & Hp & Hall). split; [done|]. split; [done|].
      intros m Hm Hlt. apply elem_of_puzzle_numbers in Hm. apply Hall. lia.
  - rewrite blocks_all_passed. split.
    + intros H n Hn. apply H. by apply elem_of_puzzle_numbers.
    + intros H n Hn. apply H. by apply elem_of_puzzle_numbers.
Qed.

(** X28: A puzzle number outside 1..12 selects no block: [--puzzle N] with
    such an [N] other than zero runs no test and still prints "All tests
    passed!"; [--puzzle 0] is taken as no option and prints the help. *)
Theorem main_unknown_puzzle (test : Z -> bool) (n : Z) :
  (n < 0 \/ 12 < n)%Z ->
  main_dispatch false false (Some n) = RunPuzzles [n]
  /\ run_puzzles test [n] = [AllPassed]
  /\ main_dispatch false false (Some 0%Z) = PrintHelp.
Proof.
  intros Hn. split; [|split; [|done]].
  - unfold main_dispatch. destruct (Z.eqb_spec n 0); [lia|done].
  - apply blocks_none. intros m Hm Hin.
    apply elem_of_puzzle_numbers in Hm. apply list_elem_of_singleton in Hin. lia.
Qed.

Lemma main_unknown_puzzle_witness :
  run_puzzles (fun _ => false) [13%Z] = [AllPassed].
Proof. apply (main_unknown_puzzle (fun _ => false) 13). lia. Defined.

Lemma run_puzzles_first_failure_witness :
  PuzzleHeader 2 ∈ run_puzzles (fun _ => true) [2; 1]%Z.
Proof.
  apply (proj1 (run_puzzles_first_failure (fun _ => true) [2; 1]%Z)).
  split; [lia|]. split; [|done]. apply elem_of_cons. by left.
Defined.


(** ** Chunks that do not divide the row *)

Lemma pad_chunks_uneven (T B1 : nat) :
  0 < B1 -> T mod B1 <> 0 -> 0 < cdiv T B1 * B1 - T.
Proof.
  intros HB1 Hmod. pose proof (cdiv_mul_ge T B1 HB1) as Hge.
  destruct (decide (cdiv T B1 * B1 = T)) as [E|E]; [|lia].
  exfalso. apply Hmod. rewrite <- E. apply Nat.Div0.mod_mul.
Qed.

(** The softmax of a row followed by further entries, cut back to the
    row, sums to less than one. *)
Lemma softmax_row_prefix (ex : R -> R) (row tail : list R) :
  (forall d, (0 < ex d)%R) -> tail <> [] ->
  let w := softmax_row ex (row ++ tail) in
  take (length row) w
  = map (fun a => (ex (a - Rmaxl (row ++ tail))
                   / Rsum (map (fun a => ex (a - Rmaxl (row ++ tail))%R) (row ++ tail)))%R)
        row
  /\ (Rsum (take (length row) w) < 1)%R.
Proof.
  intros Hex Htail w.
  assert (Hne : row ++ tail <> []) by (destruct row; [done|done]).
  pose proof (softmax_row_sum ex Hex (row ++ tail) Hne) as Hsum.
  pose proof (softmax_row_denominator ex Hex (row ++ tail) (Rmaxl (row ++ tail)) Hne) as HS.
  fold w in Hsum. unfold softmax_row in w.
  set (M := Rmaxl (row ++ tail)) in *.
  set (S := Rsum (map (fun a => ex (a - M)%R) (row ++ tail))) in *.
  assert (Ew : w = map (fun a => (ex (a - M) / S)%R) row
                   ++ map (fun a => (ex (a - M) / S)%R) tail)
    by (subst w; apply map_app).
  assert (Etake : take (length row) w = map (fun a => (ex (a - M) / S)%R) row).
  { rewrite Ew. rewrite take_app_length'; [done|]. by rewrite length_map. }
  split; [exact Etake|]. rewrite Etake.
  rewrite Ew, Rsum_app in Hsum.
  assert (0 < Rsum (map (fun a => (ex (a - M) / S)%R) tail))%R; [|lra].
  apply Rsum_pos; [done|]. intros a _. apply Rdiv_lt_0_compat; [apply Hex|done].
Qed.






(** ** Instances of a two-axis grid write disjoint tiles *)

Lemma grid_cells_axis01 (g0 g1 : nat) :
  grid_cells g0 g1 1
  = map (fun c : nat * nat => (c.1, c.2, 0)) (list_prod (seq 0 g0) (seq 0 g1)).
Proof.
  unfold grid_cells. induction (seq 0 g0) as [|a l IH]; [done|].
  rewrite bind_cons, IH. simpl. rewrite map_app, map_map. f_equal.
Qed.

Lemma store2_outer_omap {A B C} (fi : A -> B -> nat) (fv : A -> B -> C)
    (fm : A -> B -> bool) (xs : list A) (ys : list B) :
  store2 (outer2 fi xs ys) (outer2 fv xs ys) (outer2 fm xs ys)
  = omap (fun ab : A * B =>
            if fm ab.1 ab.2 then Some (fi ab.1 ab.2, fv ab.1 ab.2) else None)
         (list_prod xs ys).
Proof. unfold store2. by rewrite !flat2_outer, store1_map. Qed.

Lemma launch2_writes_once (v : pid -> nat -> nat -> R)
    (N0 N1 B0 B1 : nat) (kernel : pid -> result (list (write R))) :
  0 < B0 -> 0 < B1 ->
  (forall p, kernel p
     = Ok (store2
             (outer2 (fun b a => N0 * (program_id 1 p * B1 + b)
                                 + (program_id 0 p * B0 + a))
                     (seq 0 B1) (seq 0 B0))
             (outer2 (v p) (seq 0 B1) (seq 0 B0))
             (outer2 (fun b a => (program_id 0 p * B0 + a <? N0)
                                 && (program_id 1 p * B1 + b <? N1))
                     (seq 0 B1) (seq 0 B0)))) ->
  exists ws,
    launch_writes (cdiv N0 B0) (cdiv N1 B1) (cdiv 1 1) kernel = Ok ws
    /\ (forall w, w ∈ ws -> w.1 < N1 * N0)
    /\ (forall q, q < N1 * N0 ->
          length (filter (fun w : write R => w.1 = q) ws) = 1).
Proof.
  intros HB0 HB1 Hk. unfold launch_writes.
  rewrite (mapR_ok _ (fun p => omap (fun ba : nat * nat =>
             if (program_id 0 p * B0 + ba.2 <? N0) && (program_id 1 p * B1 + ba.1 <? N1)
             then Some (N0 * (program_id 1 p * B1 + ba.1) + (program_id 0 p * B0 + ba.2),
                        v p ba.1 ba.2)
             else None) (list_prod (seq 0 B1) (seq 0 B0)))).
  2:{ intros c _. by rewrite Hk, store2_outer_omap. }
  rewrite bind_Ok. eexists. split; [done|].
  replace (cdiv 1 1) with 1 by done. rewrite grid_cells_axis01, map_map.
  rewrite (concat_omap_prod
    (fun (c : nat * nat) (ba : nat * nat) =>
       if (c.1 * B0 + ba.2 <? N0) && (c.2 * B1 + ba.1 <? N1)
       then Some (N0 * (c.2 * B1 + ba.1) + (c.1 * B0 + ba.2),
                  v (c.1, c.2, 0) ba.1 ba.2)
       else None)).
  split.
  - intros w Hw. apply list_elem_of_omap in Hw as ([[p0 p1] [b a]] & _ & E).
    cbn [fst snd] in E.
    destruct ((p0 * B0 + a <? N0) && (p1 * B1 + b <? N1)) eqn:Em; [|done].
    apply andb_true_iff in Em as [Ha Hb]. apply Nat.ltb_lt in Ha, Hb.
    inversion E; subst w. cbn [fst snd].
    pose proof (flat_idx2_lt _ _ _ _ Hb Ha). lia.
  - intros q Hq.
    assert (HN0 : 0 < N0) by (destruct N0; lia).
    assert (Hj : q / N0 < N1) by (apply Nat.Div0.div_lt_upper_bound; lia).
    pose proof (Nat.mod_upper_bound q N0 ltac:(lia)) as Hi.
    pose proof (Nat.div_mod q N0 ltac:(lia)) as Eq.
    destruct (split_block (q mod N0) N0 B0 HB0 Hi) as (Hi1 & Hi2 & Hi3).
    destruct (split_block (q / N0) N1 B1 HB1 Hj) as (Hj1 & Hj2 & Hj3).
    apply (omap_count_once _ _ _
             ((q mod N0 / B0, q / N0 / B1), ((q / N0) mod B1, (q mod N0) mod B0))).
    + repeat apply NoDup_list_prod; apply NoDup_seq.
    + rewrite !elem_of_list_prod, !elem_of_seq. cbn [fst snd]. lia.
    + eexists. cbn [fst snd]. rewrite Hi3, Hj3.
      destruct (Nat.ltb_spec (q mod N0) N0); [|lia].
      destruct (Nat.ltb_spec (q / N0) N1); [|lia]. cbn [andb].
      do 2 f_equal. lia.
    + intros [[p0 p1] [b a]] u Ht E.
      rewrite !elem_of_list_prod, !elem_of_seq in Ht. cbn [fst snd] in *.
      destruct ((p0 * B0 + a <? N0) && (p1 * B1 + b <? N1)) eqn:Em; [|done].
      apply andb_true_iff in Em as [Ha Hb]. apply Nat.ltb_lt in Ha, Hb.
      injection E as E1 E2.
      assert (E3 : (p1 * B1 + b) * N0 + (p0 * B0 + a)
                   = (q / N0) * N0 + q mod N0) by lia.
      apply idx2_inj in E3 as [Er Ec]; [|lia..].
      rewrite <- Hj3 in Er. rewrite <- Hi3 in Ec.
      apply idx2_inj in Er as [-> ->]; [|lia..].
      apply idx2_inj in Ec as [-> ->]; [done|lia..].
Qed.

(** X13: Puzzles 4, 5 and 6: for all sizes, the instances of the two-axis grid
    write disjoint tiles; over the whole launch every cell of the
    [N1 x N0] output is written exactly once and no write falls outside
    it. *)
Theorem blocked_kernels_write_once (N0 N1 B0 B1 : nat)
    (x y : list R) (xm dz : list (list R)) :
  length x = N0 -> length y = N1 -> shape2 N1 N0 xm -> shape2 N1 N0 dz ->
  0 < B0 -> 0 < B1 ->
  let once (kernel : pid -> result (list (write R))) :=
    exists ws,
      launch_writes (cdiv N0 B0) (cdiv N1 B1) (cdiv 1 1) kernel = Ok ws
      /\ (forall w, w ∈ ws -> w.1 < N1 * N0)
      /\ (forall q, q < N1 * N0 ->
            length (filter (fun w : write R => w.1 = q) ws) = 1) in
  once (add_vec_block_kernel x y N0 N1 B0 B1)
  /\ once (mul_relu_block_kernel x y N0 N1 B0 B1)
  /\ once (mul_relu_block_back_kernel (flat2 xm) y (flat2 dz) N0 N1 B0 B1).
Proof.
  intros Hx Hy Hxm Hdz HB0 HB1 once. subst once. cbv beta. split; [|split].
  - eapply launch2_writes_once; [done|done|].
    intros p. by apply add_vec_block_kernel_ok.
  - eapply launch2_writes_once; [done|done|].
    intros p. by apply mul_relu_block_kernel_ok.
  - eapply launch2_writes_once; [done|done|].
    intros p. by apply mul_relu_block_back_kernel_ok.
Qed.

Lemma blocked_kernels_write_once_witness :
  exists ws,
    launch_writes (cdiv 3 2) (cdiv 2 2) (cdiv 1 1)
      (add_vec_block_kernel [1; 2; 3]%R [10; 20]%R 3 2 2 2) = Ok ws
    /\ (forall w, w ∈ ws -> w.1 < 2 * 3)
    /\ (forall q, q < 2 * 3 ->
          length (filter (fun w : write R => w.1 = q) ws) = 1).
Proof.
  apply (blocked_kernels_write_once 3 2 2 2 [1; 2; 3]%R [10; 20]%R
           [[1; 2; 3]; [4; 5; 6]]%R [[1; 1; 1]; [1; 1; 1]]%R).
  - reflexivity.
  - reflexivity.
  - split; [reflexivity|repeat constructor].
  - split; [reflexivity|repeat constructor].
  - lia.
  - lia.
Defined.


(** ** The outputs of the streaming softmax are probabilities *)

Lemma Rsum_nonneg {A} (f : A -> R) (l : list A) :
  (forall b, b ∈ l -> (0 <= f b)%R) -> (0 <= Rsum (map f l))%R.
Proof.
  induction l as [|b l IH]; intros Hpos; simpl; [lra|].
  assert (0 <= f b)%R by (apply Hpos, elem_of_cons; by left).
  assert (0 <= Rsum (map f l))%R; [|lra].
  apply IH. intros c Hc. apply Hpos. apply elem_of_cons. by right.
Qed.

Lemma Rsum_ge_term {A} (f : A -> R) (l : list A) (a : A) :
  (forall b, b ∈ l -> (0 <= f b)%R) -> a ∈ l -> (f a <= Rsum (map f l))%R.
Proof.
  induction l as [|b l IH]; intros Hpos Ha; [by apply elem_of_nil in Ha|].
  simpl.
  assert (H0 : (0 <= Rsum (map f l))%R).
  { apply Rsum_nonneg. intros c Hc. apply Hpos. apply elem_of_cons. by right. }
  assert (Hb : (0 <= f b)%R) by (apply Hpos, elem_of_cons; by left).
  apply elem_of_cons in Ha as [->|Ha]; [lra|].
  assert (f a <= Rsum (map f l))%R; [|lra].
  apply IH; [|done]. intros c Hc. apply Hpos. apply elem_of_cons. by right.
Qed.

Lemma softmax_row_unit (ex : R -> R) (row : list R) (u : R) :
  (forall d, (0 < ex d)%R) -> u ∈ softmax_row ex row -> (0 < u <= 1)%R.
Proof.
  intros Hex Hu. unfold softmax_row in Hu.
  apply list_elem_of_fmap in Hu as (a & -> & Ha).
  assert (Hne : row <> []) by (intros ->; by apply elem_of_nil in Ha).
  pose proof (softmax_row_denominator ex Hex row (Rmaxl row) Hne) as HS.
  pose proof (Rsum_ge_term (fun a => ex (a - Rmaxl row)%R) row a
                (fun b _ => Rlt_le _ _ (Hex _)) Ha) as Hle.
  cbv beta in Hle. split.
  - apply Rdiv_lt_0_compat; [apply Hex|done].
  - apply (Rmult_le_reg_r (Rsum (map (fun a => ex (a - Rmaxl row)%R) row))); [done|].
    unfold Rdiv. rewrite Rmult_assoc, Rinv_l by lra. lra.
Qed.




(** ** The offsets the quantized kernel reads *)

Lemma foldR_ext {A St} (f g : St -> A -> result St) (s : St) (l : list A) :
  (forall s a, a ∈ l -> f s a = g s a) -> foldR f s l = foldR g s l.
Proof.
  revert s. induction l as [|a l IH]; intros s H; simpl; [done|].
  rewrite H by (apply elem_of_cons; by left).
  destruct (g s a) as [s'|e]; [|done]. rewrite !bind_Ok. apply IH.
  intros s0 b Hb. apply H. apply elem_of_cons. by right.
Qed.

Lemma mapR_ext {A B} (f g : A -> result B) (l : list A) :
  (forall a, f a = g a) -> mapR f l = mapR g l.
Proof. intros H. induction l as [|a l IH]; simpl; [done|]. by rewrite H, IH. Qed.

Lemma quant_offset_entry_first_word (offset offset' : list Z) (N0 MID B0 : nat)
    (p : pid) (k ib l : nat) :
  (forall m, m < N0 ->
     nth (m * (MID / GROUP / FPINT)) offset 0%Z
     = nth (m * (MID / GROUP / FPINT)) offset' 0%Z) ->
  quant_offset_entry offset N0 MID B0 64 p k ib l
  = quant_offset_entry offset' N0 MID B0 64 p k ib l.
Proof.
  intros H. unfold quant_offset_entry. cbv zeta.
  change (64 / GROUP / FPINT) with 1.
  destruct (Nat.ltb_spec (program_id 0 p * B0 + ib) N0) as [Hm|]; [|done].
  destruct (Nat.ltb_spec ((k + l) / GROUP / FPINT) 1) as [H0|]; [|done].
  cbn [andb]. replace ((k + l) / GROUP / FPINT) with 0 by lia.
  by rewrite Nat.add_0_r, (H _ Hm).
Qed.

(** X26: Puzzle 12 with [B_MID = 64] and any contraction extent that is a
    multiple of 64: the run succeeds and depends, of the offsets of each
    row, on the first packed word only (the kernel's mask compares the
    offset index with the block and not with the extent): two offset
    tensors that agree on the first word of every row give the same
    output. *)
Theorem quant_dot_kernel_first_offset_word (N0 N1 MID B0 B1 : nat)
    (scale : list (list R)) (offset offset' : list Z) (weight : list (list Z))
    (activation : list (list R)) (z : list R) :
  shape2 N0 (MID / GROUP) scale ->
  length offset = N0 * (MID / GROUP / FPINT) ->
  length offset' = N0 * (MID / GROUP / FPINT) ->
  shape2 N0 (MID / FPINT) weight -> shape2 MID N1 activation ->
  length z = N0 * N1 -> 0 < MID -> MID mod 64 = 0 ->
  (forall m, m < N0 ->
     nth (m * (MID / GROUP / FPINT)) offset 0%Z
     = nth (m * (MID / GROUP / FPINT)) offset' 0%Z) ->
  run_quant_dot N0 N1 MID B0 B1 64 scale offset weight activation z
  = run_quant_dot N0 N1 MID B0 B1 64 scale offset' weight activation z
  /\ exists out,
       run_quant_dot N0 N1 MID B0 B1 64 scale offset weight activation z = Ok out.
Proof.
  intros Hs Ho Ho' Hw Ha Hz HMID HM64 Hfirst.
  assert (HMF : MID mod FPINT = 0).
  { change FPINT with 8. pose proof (Nat.div_mod MID 64 ltac:(lia)).
    pose proof (Nat.div_mod MID 8 ltac:(lia)).
    pose proof (Nat.mod_upper_bound MID 8 ltac:(lia)). lia. }
  assert (HMG : MID mod GROUP = 0) by exact HMF.
  split.
  2:{ apply run_quant_dot_ok; try done; reflexivity || lia. }
  unfold run_quant_dot, launch, launch_writes. f_equal. f_equal.
  apply mapR_ext. intros p. unfold quant_dot_kernel.
  rewrite quant_static_asserts_ok by (done || reflexivity).
  rewrite !bind_Ok. f_equal.
  apply foldR_ext. intros tile k _.
  pose proof (length_flat2 _ _ _ Hs) as Hs'.
  pose proof (length_flat2 _ _ _ Hw) as Hw'.
  pose proof (length_flat2 _ _ _ Ha) as Ha'.
  rewrite !(quant_dequant_ok (flat2 scale) _ (flat2 weight) (flat2 activation)
              N0 N1 MID B0 B1 64) by (done || reflexivity || lia).
  do 2 f_equal. apply outer2_ext. intros ib l _ _.
  unfold quant_dequant_entry.
  by rewrite (quant_offset_entry_first_word offset offset').
Qed.

Lemma quant_dot_kernel_first_offset_word_witness :
  run_quant_dot 1 1 128 1 1 64 [replicate 16 1%R] [3; 5]%Z [replicate 16 7%Z]
    (replicate 128 [1%R]) [0%R]
  = run_quant_dot 1 1 128 1 1 64 [replicate 16 1%R] [3; 9]%Z [replicate 16 7%Z]
      (replicate 128 [1%R]) [0%R].
Proof.
  apply (quant_dot_kernel_first_offset_word 1 1 128 1 1 [replicate 16 1%R]
           [3; 5]%Z [3; 9]%Z [replicate 16 7%Z] (replicate 128 [1%R]) [0%R]).
  - split; [reflexivity|repeat constructor].
  - reflexivity.
  - reflexivity.
  - split; [reflexivity|repeat constructor].
  - split; [reflexivity|repeat constructor].
  - reflexivity.
  - lia.
  - reflexivity.
  - intros m Hm. assert (m = 0) as -> by lia. reflexivity.
Defined.


(** ** Instances of the matrix product write disjoint tiles *)

Lemma bind_map_prod {A B C} (g : A -> B -> C) (xs : list A) (ys : list B) :
  (xs ≫= fun a => map (g a) ys) = map (fun ab : A * B => g ab.1 ab.2) (list_prod xs ys).
Proof.
  induction xs as [|a xs IH]; [done|].
  rewrite bind_cons, IH. simpl. by rewrite map_app, map_map.
Qed.

Lemma bind_singletons {A B} (g : A -> B) (xs : list A) :
  (xs ≫= fun a => [g a]) = map g xs.
Proof. induction xs as [|a xs IH]; [done|]. rewrite bind_cons, IH. done. Qed.

Lemma grid_cells_prod (g0 g1 g2 : nat) :
  grid_cells g0 g1 g2
  = map (fun c : nat * (nat * nat) => (c.1, c.2.1, c.2.2))
        (list_prod (seq 0 g0) (list_prod (seq 0 g1) (seq 0 g2))).
Proof.
  unfold grid_cells.
  rewrite <- (bind_map_prod (fun p0 (c : nat * nat) => (p0, c.1, c.2))).
  apply list_bind_ext; [|done]. intros p0.
  rewrite <- (bind_map_prod (fun p1 p2 => (p0, p1, p2))).
  apply list_bind_ext; [|done]. intros p1. apply bind_singletons.
Qed.

Lemma store3_outer_omap {A B C D} (fi : A -> B -> C -> nat) (fv : A -> B -> C -> D)
    (fm : A -> B -> C -> bool) (xs : list A) (ys : list B) (zs : list C) :
  store3 (outer3 fi xs ys zs) (outer3 fv xs ys zs) (outer3 fm xs ys zs)
  = omap (fun t : A * (B * C) =>
            if fm t.1 t.2.1 t.2.2
            then Some (fi t.1 t.2.1 t.2.2, fv t.1 t.2.1 t.2.2) else None)
         (list_prod xs (list_prod ys zs)).
Proof. unfold store3. by rewrite !flat3_outer, store1_map. Qed.

(** X23: Puzzle 11: for all sizes, the instances of the three-axis grid write
    disjoint tiles; over the whole launch every cell of the
    [N2 x N1 x N0] output is written exactly once and no write falls
    outside it. *)
Theorem dot_kernel_writes_once (N0 N1 N2 MID B0 B1 B2 B_MID : nat)
    (x y : list (list (list R))) :
  shape3 N2 N1 MID x -> shape3 N2 MID N0 y ->
  0 < B0 -> 0 < B1 -> 0 < B2 -> 0 < B_MID ->
  exists ws,
    launch_writes (cdiv N0 B0) (cdiv N1 B1) (cdiv N2 B2)
      (dot_kernel (flat3 x) (flat3 y) N0 N1 N2 MID B0 B1 B2 B_MID) = Ok ws
    /\ (forall w, w ∈ ws -> w.1 < N2 * N1 * N0)
    /\ (forall q, q < N2 * N1 * N0 ->
          length (filter (fun w : write R => w.1 = q) ws) = 1).
Proof.
  intros Hx Hy HB0 HB1 HB2 HBM. unfold launch_writes.
  rewrite (mapR_ok _ (dot_writes x y N0 N1 N2 MID B0 B1 B2 B_MID))
    by (intros c _; by apply dot_kernel_ok).
  rewrite bind_Ok. eexists. split; [done|].
  rewrite grid_cells_prod, map_map. unfold dot_writes.
  set (acc := dot_acc x y N0 N1 N2 MID B0 B1 B2 B_MID).
  rewrite (map_ext _
    (fun c : nat * (nat * nat) =>
       omap (fun t : nat * (nat * nat) =>
               if (c.2.2 * B2 + t.1 <? N2) && (c.2.1 * B1 + t.2.1 <? N1)
                  && (c.1 * B0 + t.2.2 <? N0)
               then Some ((c.2.2 * B2 + t.1) * N1 * N0 + (c.2.1 * B1 + t.2.1) * N0
                          + (c.1 * B0 + t.2.2),
                          acc (c.1, c.2.1, c.2.2) (cdiv MID B_MID) t.1 t.2.1 t.2.2)
               else None)
            (list_prod (seq 0 B2) (list_prod (seq 0 B1) (seq 0 B0)))))
    by (intros c; by rewrite store3_outer_omap).
  rewrite (concat_omap_prod
    (fun (c : nat * (nat * nat)) (t : nat * (nat * nat)) =>
       if (c.2.2 * B2 + t.1 <? N2) && (c.2.1 * B1 + t.2.1 <? N1)
          && (c.1 * B0 + t.2.2 <? N0)
       then Some ((c.2.2 * B2 + t.1) * N1 * N0 + (c.2.1 * B1 + t.2.1) * N0
                  + (c.1 * B0 + t.2.2),
                  acc (c.1, c.2.1, c.2.2) (cdiv MID B_MID) t.1 t.2.1 t.2.2)
       else None)).
  split.
  - intros w Hw.
    apply list_elem_of_omap in Hw as ([[p0 [p1 p2]] [ib [im jn]]] & _ & E).
    cbn [fst snd] in E.
    destruct ((p2 * B2 + ib <? N2) && (p1 * B1 + im <? N1) && (p0 * B0 + jn <? N0))
      eqn:Em; [|done].
    apply andb_true_iff in Em as [Em Hn]. apply andb_true_iff in Em as [Hb Hm].
    apply Nat.ltb_lt in Hb, Hm, Hn. injection E as <-. cbn [fst snd].
    by apply flat_idx3_lt.
  - intros q Hq.
    destruct (split_idx3 q N2 N1 N0 Hq) as (b & m & n & Hb & Hm & Hn & ->).
    destruct (split_block n N0 B0 HB0 Hn) as (Hn1 & Hn2 & Hn3).
    destruct (split_block m N1 B1 HB1 Hm) as (Hm1 & Hm2 & Hm3).
    destruct (split_block b N2 B2 HB2 Hb) as (Hb1 & Hb2 & Hb3).
    apply (omap_count_once _ _ _
             ((n / B0, (m / B1, b / B2)), (b mod B2, (m mod B1, n mod B0)))).
    + repeat apply NoDup_list_prod; apply NoDup_seq.
    + rewrite !elem_of_list_prod, !elem_of_seq. cbn [fst snd]. lia.
    + eexists. cbn [fst snd]. rewrite Hn3, Hm3, Hb3.
      destruct (Nat.ltb_spec b N2); [|lia]. destruct (Nat.ltb_spec m N1); [|lia].
      destruct (Nat.ltb_spec n N0); [|lia]. reflexivity.
    + intros [[p0 [p1 p2]] [ib [im jn]]] u Ht E.
      rewrite !elem_of_list_prod, !elem_of_seq in Ht. cbn [fst snd] in *.
      destruct ((p2 * B2 + ib <? N2) && (p1 * B1 + im <? N1) && (p0 * B0 + jn <? N0))
        eqn:Em; [|done].
      apply andb_true_iff in Em as [Em Hn']. apply andb_true_iff in Em as [Hb' Hm'].
      apply Nat.ltb_lt in Hb', Hm', Hn'. injection E as E1 E2.
      apply idx3_inj in E1 as (Eb & Em' & En); [|lia..].
      rewrite <- Hb3 in Eb. rewrite <- Hm3 in Em'. rewrite <- Hn3 in En.
      apply idx2_inj in Eb as [-> ->]; [|lia..].
      apply idx2_inj in Em' as [-> ->]; [|lia..].
      apply idx2_inj in En as [-> ->]; [done|lia..].
Qed.

Lemma dot_kernel_writes_once_witness :
  exists ws,
    launch_writes (cdiv 2 2) (cdiv 1 1) (cdiv 1 1)
      (dot_kernel (flat3 [[[1; 2]]]%R) (flat3 [[[3; 4]; [5; 6]]]%R) 2 1 1 2 2 1 1 2)
    = Ok ws
    /\ (forall w, w ∈ ws -> w.1 < 1 * 1 * 2)
    /\ (forall q, q < 1 * 1 * 2 ->
          length (filter (fun w : write R => w.1 = q) ws) = 1).
Proof.
  apply (dot_kernel_writes_once 2 1 1 2 2 1 1 2 [[[1; 2]]]%R [[[3; 4]; [5; 6]]]%R).
  - split; [reflexivity|]. repeat constructor.
  - split; [reflexivity|]. repeat constructor.
  - lia.
  - lia.
  - lia.
  - lia.
Defined.
